(** * SQL-of-Thought: the correction loop, the SQL executor and the event stream

    A shallow embedding of the TypeScript sources of the demo

    - the Express server ([app.post('/api/sql-of-thought')]): module [Server];
    - the command-line pipeline ([sqlOfThought]): module [Cli];
    - the executor tool ([executeSQL] of sql-executor-tool.ts): module [Executor];

    and of the regular expressions they apply to SQL text: module [Text].

    Strings are sequences of 8-bit code units.  Everything outside the
    program (the model API, the database engine, [JSON.parse], the HTTP
    response) is an oracle collected in a [World] record; theorems quantify
    over every world. *)

From Stdlib Require Import String Ascii List Bool Arith ZArith Lia.
From Stdlib Require Import Numbers.DecimalString Numbers.DecimalZ Numbers.DecimalNat.
Import ListNotations.
Local Open Scope string_scope.
Local Open Scope nat_scope.

(* ===================================================================== *)
(** ** Text: character classes and the global [replace] of JavaScript     *)
(* ===================================================================== *)

Module Text.

(** [\s]: tab, line feed, vertical tab, form feed, carriage return, space
    and the no-break space (the members below code unit 256). *)
Definition is_space (c : ascii) : bool :=
  let n := N_of_ascii c in
  (((9 <=? n) && (n <=? 13)) || (n =? 32) || (n =? 160))%N.

Definition is_digit (c : ascii) : bool :=
  let n := N_of_ascii c in ((48 <=? n) && (n <=? 57))%N.

Definition is_upper (c : ascii) : bool :=
  let n := N_of_ascii c in ((65 <=? n) && (n <=? 90))%N.

Definition is_lower (c : ascii) : bool :=
  let n := N_of_ascii c in ((97 <=? n) && (n <=? 122))%N.

(** [\w] is [[A-Za-z0-9_]]. *)
Definition is_word (c : ascii) : bool :=
  is_upper c || is_lower c || is_digit c || (N_of_ascii c =? 95)%N.

(** Line terminators below code unit 256: [\n] and [\r].  The dot of a
    regular expression matches every other character. *)
Definition is_line_terminator (c : ascii) : bool :=
  let n := N_of_ascii c in ((n =? 10) || (n =? 13))%N.

(** Case folding of the [i] flag, on the ASCII letters. *)
Definition fold_case (c : ascii) : ascii :=
  if is_upper c then ascii_of_N (N_of_ascii c + 32) else c.

Definition eqb_ci (a b : ascii) : bool :=
  Ascii.eqb (fold_case a) (fold_case b).

(** [strip_prefix lit s]: [s] starts with the literal [lit]; the rest of [s]. *)
Fixpoint strip_prefix (lit s : string) : option string :=
  match lit, s with
  | EmptyString, _ => Some s
  | String a lit', String b s' =>
      if Ascii.eqb a b then strip_prefix lit' s' else None
  | String _ _, EmptyString => None
  end.

(** The same under the [i] flag. *)
Fixpoint strip_prefix_ci (lit s : string) : option string :=
  match lit, s with
  | EmptyString, _ => Some s
  | String a lit', String b s' =>
      if eqb_ci a b then strip_prefix_ci lit' s' else None
  | String _ _, EmptyString => None
  end.

(** The longest prefix of [s] whose characters satisfy [p], and the rest. *)
Fixpoint span (p : ascii -> bool) (s : string) : string * string :=
  match s with
  | EmptyString => (EmptyString, EmptyString)
  | String c t =>
      if p c then let (a, b) := span p t in (String c a, b)
      else (EmptyString, s)
  end.

(** A regular expression anchored at the start of its input: the
    replacement text and the number of characters the match consumed. *)
Definition matcher := string -> option (string * nat).

(** [s.replace(/re/g, ...)]: the matches are taken from left to right and
    do not overlap; [skip] counts the characters of the current match
    that are still to be passed over. *)
Fixpoint replace_from (m : matcher) (skip : nat) (s : string) : string :=
  match s with
  | EmptyString => EmptyString
  | String c t =>
      match skip with
      | S k => replace_from m k t
      | O =>
          match m s with
          | Some (r, n) => r ++ replace_from m (pred n) t
          | None => String c (replace_from m 0 t)
          end
      end
  end.

Definition replace_all (m : matcher) (s : string) : string :=
  replace_from m 0 s.

(** The pattern matches at no position of [s]. *)
Fixpoint nowhere (m : matcher) (s : string) : bool :=
  match m s with
  | Some _ => false
  | None => match s with
            | EmptyString => true
            | String _ t => nowhere m t
            end
  end.

(** Every character of [s] satisfies [p]. *)
Fixpoint all (p : ascii -> bool) (s : string) : bool :=
  match s with
  | EmptyString => true
  | String c t => p c && all p t
  end.

(** [s.trim()] *)
Fixpoint trim_start (s : string) : string :=
  match s with
  | EmptyString => EmptyString
  | String c t => if is_space c then trim_start t else s
  end.

Fixpoint trim_end (s : string) : string :=
  match s with
  | EmptyString => EmptyString
  | String c t =>
      match trim_end t with
      | EmptyString => if is_space c then EmptyString else String c EmptyString
      | t' => String c t'
      end
  end.

Definition trim (s : string) : string := trim_end (trim_start s).

(** *** The schema prefix *)

(** [/chinook\.chinook\./gi] replaced by ['chinook.'] *)
Definition double_prefix : matcher := fun s =>
  match strip_prefix_ci "chinook.chinook." s with
  | Some _ => Some ("chinook.", 16)
  | None => None
  end.

(** [/KW\s+(?!chinook\.)(\w+)/gi] replaced by ['KW chinook.$1'].  [\s+] is
    greedy; giving back white space never helps, since [\w+] would then
    have to start on a white-space character, so only the longest run is
    tried. *)
Definition unqualified (kw : string) : matcher := fun s =>
  match strip_prefix_ci kw s with
  | None => None
  | Some r =>
      let (ws, r1) := span is_space r in
      match ws with
      | EmptyString => None
      | _ =>
          match strip_prefix_ci "chinook." r1 with
          | Some _ => None
          | None =>
              let (w, _) := span is_word r1 in
              match w with
              | EmptyString => None
              | _ => Some (kw ++ " chinook." ++ w,
                           String.length kw + String.length ws + String.length w)
              end
          end
      end
  end.

(** [/KW\s+(\w+)/gi] replaced by ['KW chinook.$1'] (the executor tool). *)
Definition any_table (kw : string) : matcher := fun s =>
  match strip_prefix_ci kw s with
  | None => None
  | Some r =>
      let (ws, r1) := span is_space r in
      match ws with
      | EmptyString => None
      | _ =>
          let (w, _) := span is_word r1 in
          match w with
          | EmptyString => None
          | _ => Some (kw ++ " chinook." ++ w,
                       String.length kw + String.length ws + String.length w)
          end
      end
  end.

(** The rewrite of the server (after SQL generation and after each
    correction):
<<
    sql.replace(/chinook\.chinook\./gi, 'chinook.')
       .replace(/FROM\s+(?!chinook\.)(\w+)/gi, 'FROM chinook.$1')
       .replace(/JOIN\s+(?!chinook\.)(\w+)/gi, 'JOIN chinook.$1')
>> *)
Definition addSchemaPrefix (sql : string) : string :=
  replace_all (unqualified "JOIN")
    (replace_all (unqualified "FROM")
       (replace_all double_prefix sql)).

(** The rewrite of the executor tool:
<<
    cleanedSQL.replace(/FROM\s+(\w+)/gi, 'FROM chinook.$1')
              .replace(/JOIN\s+(\w+)/gi, 'JOIN chinook.$1')
>> *)
Definition prefixTables (sql : string) : string :=
  replace_all (any_table "JOIN") (replace_all (any_table "FROM") sql).

(** *** Cleaning of the executor tool *)

(** [/--.*$/gm]: two dashes and the rest of the line.  The greedy [.*]
    stops in front of a line terminator or at the end of the input, which
    is where [$] holds under the [m] flag. *)
Definition line_comment : matcher := fun s =>
  match strip_prefix "--" s with
  | Some r => let (body, _) := span (fun c => negb (is_line_terminator c)) r in
              Some (EmptyString, 2 + String.length body)
  | None => None
  end.

(** Characters in front of the first [*/] of [s], if there is one. *)
Fixpoint until_close (s : string) : option nat :=
  match s with
  | EmptyString => None
  | String c t =>
      match strip_prefix "*/" s with
      | Some _ => Some 0
      | None => option_map S (until_close t)
      end
  end.

(** [/\/\*[\s\S]*?\*\//g]: from the opening mark to the first closing one. *)
Definition block_comment : matcher := fun s =>
  match strip_prefix "/*" s with
  | Some r =>
      match until_close r with
      | Some n => Some (EmptyString, 2 + n + 2)
      | None => None
      end
  | None => None
  end.

(** [sql.replace(/--.*$/gm, '').replace(/\/\*[\s\S]*?\*\//g, '').trim()] *)
Definition cleanSQL (sql : string) : string :=
  trim (replace_all block_comment (replace_all line_comment sql)).

(** [response.replace(/```sql\n?/g, '').replace(/```\n?/g, '').trim()] *)
Definition fence (lit : string) : matcher := fun s =>
  match strip_prefix lit s with
  | Some r =>
      match strip_prefix (String (ascii_of_N 10) EmptyString) r with
      | Some _ => Some (EmptyString, String.length lit + 1)
      | None => Some (EmptyString, String.length lit)
      end
  | None => None
  end.

Definition stripFences (response : string) : string :=
  trim (replace_all (fence "```") (replace_all (fence "```sql") response)).

End Text.

(* ===================================================================== *)
(** ** Values of the JavaScript side                                      *)
(* ===================================================================== *)

Module Js.

(** What an awaited call can do: return, throw (the [message] of the
    error), or never settle.  [NoFuel] is not a behaviour of the program:
    it marks a loop of the model that was given too few iterations, and is
    proved unreachable. *)
Inductive Outcome (A : Type) : Type :=
| Return (a : A)
| Throw (message : string)
| Pending
| NoFuel.
Arguments Return {A} a.
Arguments Throw {A} message.
Arguments Pending {A}.
Arguments NoFuel {A}.

(** The answer of the outside world to an awaited call. *)
Inductive Answer (A : Type) : Type :=
| Resolves (a : A)
| Rejects (message : string)
| Hangs.
Arguments Resolves {A} a.
Arguments Rejects {A} message.
Arguments Hangs {A}.

(** A computation without effects that may throw a [TypeError]. *)
Inductive Try (A : Type) : Type :=
| Ok (a : A)
| Raise (message : string).
Arguments Ok {A} a.
Arguments Raise {A} message.

Definition andThen {A B} (t : Try A) (k : A -> Try B) : Try B :=
  match t with
  | Ok a => k a
  | Raise m => Raise m
  end.

Definition thrown {A} (t : Try A) : Outcome A :=
  match t with
  | Ok a => Return a
  | Raise m => Throw m
  end.

Definition await {A} (a : Answer A) : Outcome A :=
  match a with
  | Resolves x => Return x
  | Rejects m => Throw m
  | Hangs => Pending
  end.

(** A value produced by [JSON.parse].  A number is carried as the text
    [String(n)] yields; the members of an object are in property order. *)
#[local] Unset Elimination Schemes.
Inductive Json : Type :=
| JNull
| JBool (b : bool)
| JNumber (shown : string)
| JString (s : string)
| JArray (items : list Json)
| JObject (members : list (string * Json)).
#[local] Set Elimination Schemes.

(** A column value handed over by the database driver.  [VOther] stands
    for the values the programs never inspect (dates, buffers, lists and
    structs), named by a description. *)
Inductive Value : Type :=
| VNull
| VBool (b : bool)
| VNumber (shown : string)
| VString (s : string)
| VBigInt (z : Z)
| VOther (description : string).

(** A row object, as [Object.entries] lists it. *)
Definition Row : Type := list (string * Value).

Fixpoint assoc {A} (key : string) (ms : list (string * A)) : option A :=
  match ms with
  | [] => None
  | (k, v) :: rest => if String.eqb k key then Some v else assoc key rest
  end.

(** [x.key]; [None] is [undefined].  Reading a property of [null] throws. *)
Definition get (x : Json) (key : string) : Try (option Json) :=
  match x with
  | JNull => Raise ("Cannot read properties of null (reading '" ++ key ++ "')")
  | JObject ms => Ok (assoc key ms)
  | _ => Ok None
  end.

Fixpoint join (sep : string) (parts : list string) : string :=
  match parts with
  | [] => EmptyString
  | [p] => p
  | p :: rest => p ++ sep ++ join sep rest
  end.

Definition string_of_nat (n : nat) : string :=
  NilZero.string_of_uint (Nat.to_uint n).

(** [BigInt.prototype.toString()]: the decimal digits, with a minus sign
    for a negative value. *)
Definition BigInt_toString (z : Z) : string :=
  NilZero.string_of_int (Z.to_int z).

(** Reading a decimal string back. *)
Definition BigInt_parse (s : string) : option Z :=
  option_map Z.of_int (NilZero.int_of_string s).

(** [String(x)], as a template literal applies it; inside
    [Array.prototype.join] the elements [null] and [undefined] give the
    empty string. *)
Fixpoint toString (x : Json) : string :=
  match x with
  | JNull => "null"
  | JBool true => "true"
  | JBool false => "false"
  | JNumber shown => shown
  | JString s => s
  | JArray items =>
      join "," (map (fun i => match i with
                              | JNull => EmptyString
                              | _ => toString i
                              end) items)
  | JObject _ => "[object Object]"
  end.

Definition element_string (x : Json) : string :=
  match x with JNull => EmptyString | _ => toString x end.

Definition template (x : option Json) : string :=
  match x with None => "undefined" | Some v => toString v end.

(** [x || fallback] looks at the truthiness of [x]. *)
Definition truthy (x : option Json) : bool :=
  match x with
  | None | Some JNull | Some (JBool false) => false
  | Some (JNumber shown) => negb (String.eqb shown "0")
  | Some (JString s) => negb (String.eqb s EmptyString)
  | Some _ => true
  end.

(** [Object.keys(x)] *)
Definition keys (x : Json) : list string :=
  match x with
  | JObject ms => map fst ms
  | JArray items => map string_of_nat (seq 0 (List.length items))
  | JString s => map string_of_nat (seq 0 (String.length s))
  | _ => []
  end.

(** [x.tables.join(', ')] *)
Definition tables_join (x : Json) : Try string :=
  andThen (get x "tables") (fun tables =>
  match tables with
  | Some (JArray items) => Ok (join ", " (map element_string items))
  | None => Raise "Cannot read properties of undefined (reading 'join')"
  | Some JNull => Raise "Cannot read properties of null (reading 'join')"
  | Some _ => Raise "linkedSchema.tables.join is not a function"
  end).

(** Effectful code: state passing with exceptions.  The state survives a
    throw, as a [catch] block goes on working with it. *)
Definition M (T A : Type) : Type := T -> Outcome A * T.

Definition ret {T A} (a : A) : M T A := fun st => (Return a, st).

Definition bind {T A B} (c : M T A) (k : A -> M T B) : M T B := fun st =>
  match c st with
  | (Return a, st') => k a st'
  | (Throw m, st') => (Throw m, st')
  | (Pending, st') => (Pending, st')
  | (NoFuel, st') => (NoFuel, st')
  end.

Definition lift {T A} (o : Outcome A) : M T A := fun st => (o, st).

(** A pure computation inside effectful code. *)
Definition eval {T A} (t : Try A) : M T A := lift (thrown t).

(** [try { body } catch (error) { handler(error.message) }] *)
Definition try_catch {T A} (body : M T A) (handler : string -> M T A) : M T A :=
  fun st =>
    match body st with
    | (Throw m, st') => handler m st'
    | r => r
    end.

Declare Scope js_scope.
Delimit Scope js_scope with js.
Notation "x <- c ;; k" := (bind c (fun x => k))
  (at level 61, c at next level, right associativity) : js_scope.
Notation "c ;; k" := (bind c (fun _ => k))
  (at level 61, right associativity) : js_scope.

End Js.
Export Js.

(* ===================================================================== *)
(** ** The server: [app.post('/api/sql-of-thought', ...)]                 *)
(* ===================================================================== *)

Module Server.

(** The streamed messages [{ type, data, timestamp }]; the time stamp is
    not modelled. *)
Inductive Event : Type :=
| agent_start (agent : string)
| agent_complete (agent output : string)
| agent_error (agent error : string)
| agent_update (agent output : string)
| complete (success : bool) (sql : string) (results : list Row) (attempts : nat)
| error (error : string).

(** What became of one [JSON.stringify] + [res.write]: the chunk went out,
    the closed connection swallowed it, or the call threw. *)
Inductive Delivery : Type := Sent | Dropped | Failed.

Record Request : Type := {
  question : string;   (* the empty string stands for a missing field *)
  model : string;
  apiKey : string
}.

Record World : Type := {
(** [getSchema()] *)
schema_answer : Answer Json;
(** the content of the n-th chat completion *)
openai_answer : nat -> Answer string;
(** [JSON.parse]: the value, or the message of the [SyntaxError] *)
JSON_parse : string -> Json + string;
(** the n-th [db.all(sql, ...)] of the execute loop *)
db_answer : nat -> string -> Answer (list Row);
(** [DESCRIBE chinook.<table>] inside the correction plan agent *)
describe_answer : string -> Answer (list Row);
(** the n-th [res.write] *)
write_delivery : nat -> Delivery;
(** does [res.end()] throw *)
end_throws : bool
}.

(** The mutable state of one request. *)
Record State : Type := {
  responseEnded : bool;
  wire : list (Event * Delivery);   (* the [res.write] calls, in order *)
  end_calls : nat;                  (* calls of [res.end()] *)
  status400 : option string;        (* [res.status(400).json({ error })] *)
  openai_calls : nat;
  db_log : list string;             (* the SQL given to [db.all] by the loop *)
  close_listener : bool             (* [req.on('close', ...)] is registered *)
}.

Definition initial : State :=
  {| responseEnded := false; wire := []; end_calls := 0; status400 := None;
     openai_calls := 0; db_log := []; close_listener := false |}.

(** The events given to [res.write] so far. *)
Definition events (st : State) : list Event := map fst (wire st).

Definition set_responseEnded (b : bool) (st : State) : State :=
  {| responseEnded := b; wire := wire st; end_calls := end_calls st;
     status400 := status400 st; openai_calls := openai_calls st;
     db_log := db_log st; close_listener := close_listener st |}.

Definition push_wire (e : Event) (d : Delivery) (st : State) : State :=
  {| responseEnded := responseEnded st; wire := wire st ++ [(e, d)];
     end_calls := end_calls st; status400 := status400 st;
     openai_calls := openai_calls st; db_log := db_log st;
     close_listener := close_listener st |}.

Definition count_end (st : State) : State :=
  {| responseEnded := responseEnded st; wire := wire st;
     end_calls := S (end_calls st); status400 := status400 st;
     openai_calls := openai_calls st; db_log := db_log st;
     close_listener := close_listener st |}.

Definition set_status400 (msg : string) (st : State) : State :=
  {| responseEnded := responseEnded st; wire := wire st;
     end_calls := end_calls st; status400 := Some msg;
     openai_calls := openai_calls st; db_log := db_log st;
     close_listener := close_listener st |}.

Definition count_openai (st : State) : State :=
  {| responseEnded := responseEnded st; wire := wire st;
     end_calls := end_calls st; status400 := status400 st;
     openai_calls := S (openai_calls st); db_log := db_log st;
     close_listener := close_listener st |}.

Definition push_db (sql : string) (st : State) : State :=
  {| responseEnded := responseEnded st; wire := wire st;
     end_calls := end_calls st; status400 := status400 st;
     openai_calls := openai_calls st; db_log := db_log st ++ [sql];
     close_listener := close_listener st |}.

Definition set_close_listener (st : State) : State :=
  {| responseEnded := responseEnded st; wire := wire st;
     end_calls := end_calls st; status400 := status400 st;
     openai_calls := openai_calls st; db_log := db_log st;
     close_listener := true |}.

(** Computations of the handler. *)
Definition M (A : Type) : Type := Js.M State A.

Local Open Scope js_scope.

Definition maxAttempts : nat := 3.

(** The loop variables of step 5. *)
Record Loop : Type := {
  success : bool;
  attempt : nat;
  results : list Row;
  sqlWithSchema : string
}.

(** [typeof value === 'bigint' ? value.toString() : value] *)
Definition convert (value : Value) : Value :=
  match value with
  | VBigInt z => VString (BigInt_toString z)
  | _ => value
  end.

(** [results.map(row => { ... converted[key] = ... })] *)
Definition cleanResults (rows : list Row) : list Row :=
  map (fun row => map (fun kv => (fst kv, convert (snd kv))) row) rows.

Definition quote : string := String (ascii_of_N 34) EmptyString.

(** [error.match(/Table "(\w+)" does not have/)]: the first group of the
    leftmost match. *)
Definition table_named_at (s : string) : option string :=
  match Text.strip_prefix ("Table " ++ quote) s with
  | None => None
  | Some r =>
      let (w, r1) := Text.span Text.is_word r in
      match w with
      | EmptyString => None
      | _ => match Text.strip_prefix (quote ++ " does not have") r1 with
             | Some _ => Some w
             | None => None
             end
      end
  end.

Fixpoint tableMatch (error : string) : option string :=
  match table_named_at error with
  | Some t => Some t
  | None => match error with
            | EmptyString => None
            | String _ rest => tableMatch rest
            end
  end.

Section Handler.

Variable w : World.

(** *** The response *)

Definition res_write (e : Event) : M unit := fun st =>
  match write_delivery w (List.length (wire st)) with
  | Failed => (Throw "write failed", push_wire e Failed st)
  | d => (Return tt, push_wire e d st)
  end.

Definition res_end : M unit := fun st =>
  (if end_throws w then Throw "end failed" else Return tt, count_end st).

(** [console.error] and [console.log] leave no trace in the model. *)
Definition console : M unit := ret tt.

(** [const emit = (type, data) => { if (responseEnded) return; try { ...
    res.write(...) } catch (e) { console.error(...) } }] *)
Definition emit (e : Event) : M unit := fun st =>
  if responseEnded st then (Return tt, st)
  else try_catch (res_write e) (fun _ => console) st.

(** [const safeEnd = () => { if (!responseEnded) { responseEnded = true;
    try { res.end() } catch (e) { console.error(...) } } }] *)
Definition safeEnd : M unit := fun st =>
  if responseEnded st then (Return tt, st)
  else try_catch res_end (fun _ => console) (set_responseEnded true st).

(** The state [emit] and [safeEnd] leave behind. *)
Definition emit_state (e : Event) (st : State) : State :=
  if responseEnded st then st
  else push_wire e (write_delivery w (List.length (wire st))) st.

Definition end_state (st : State) : State :=
  if responseEnded st then st else count_end (set_responseEnded true st).

(** The listener installed by [req.on('close', ...)], when it has been
    installed: [responseEnded = true]. *)
Definition on_close (st : State) : State :=
  if close_listener st then set_responseEnded true st else st.

(** *** The agents *)

Definition callOpenAI : M string := fun st =>
  (await (openai_answer w (openai_calls st)), count_openai st).

Definition parse (response : string) : M Json :=
  lift (match JSON_parse w response with
        | inl v => Return v
        | inr m => Throw m
        end).

Definition schemaLinkingAgent : M Json :=
  response <- callOpenAI ;;
  parse response.

(** The prompt reads [linkedSchema.tables.join(', ')]. *)
Definition subproblemAgent (linkedSchema : Json) : M Json :=
  eval (tables_join linkedSchema) ;;
  response <- callOpenAI ;;
  parse response.

(** The prompt reads [subproblems.clauses]. *)
Definition queryPlanAgent (subproblems : Json) : M Json :=
  eval (get subproblems "clauses") ;;
  response <- callOpenAI ;;
  parse response.

Definition sqlGenerationAgent : M string :=
  response <- callOpenAI ;;
  ret (Text.stripFences response).

(** The table named by the error is described first; a failure of
    [DESCRIBE] resolves to no columns, and the columns only feed the
    prompt. *)
Definition correctionPlanAgent (error : string) : M Json :=
  match tableMatch error with
  | Some tableName =>
      lift (match describe_answer w tableName with
            | Hangs => Pending
            | _ => Return tt
            end)
  | None => ret tt
  end ;;
  response <- callOpenAI ;;
  parse response.

Definition correctionSQLAgent : M string :=
  response <- callOpenAI ;;
  ret (Text.stripFences response).

(** *** The texts shown for each stage *)

Definition nl : string := String (ascii_of_N 10) EmptyString.

(** [`Clauses: ${Object.keys(subproblems.clauses || {}).join(', ')}`] *)
Definition subproblemOutput (subproblems : Json) : Try string :=
  andThen (get subproblems "clauses") (fun clauses =>
  Ok ("Clauses: " ++
          join ", " (match clauses with
                     | Some c => if truthy clauses then keys c else []
                     | None => []
                     end))).

(** [`${step.step_number}. ${step.action}\n   → ${step.reasoning}`] *)
Definition stepLine (step : Json) : Try string :=
  andThen (get step "step_number") (fun number =>
  andThen (get step "action") (fun action =>
  andThen (get step "reasoning") (fun reasoning =>
  Ok (template number ++ ". " ++ template action ++ nl ++
          "   → " ++ template reasoning)))).

Fixpoint stepLines (steps : list Json) : Try (list string) :=
  match steps with
  | [] => Ok []
  | step :: rest =>
      andThen (stepLine step) (fun line =>
      andThen (stepLines rest) (fun lines => Ok (line :: lines)))
  end.

(** [queryPlan.steps?.map(...).join('\n\n') || 'No steps generated'] *)
Definition stepsDisplay (queryPlan : Json) : Try string :=
  andThen (get queryPlan "steps") (fun steps =>
  match steps with
  | None | Some JNull => Ok "No steps generated"
  | Some (JArray items) =>
      andThen (stepLines items) (fun lines =>
      match join (nl ++ nl) lines with
      | EmptyString => Ok "No steps generated"
      | display => Ok display
      end)
  | Some _ => Raise "queryPlan.steps?.map is not a function"
  end).

(** [queryPlan.steps?.length || 0], once [stepsDisplay] has returned *)
Definition stepsLength (queryPlan : Json) : nat :=
  match queryPlan with
  | JObject ms => match assoc "steps" ms with
                  | Some (JArray items) => List.length items
                  | _ => 0
                  end
  | _ => 0
  end.

Definition queryPlanOutput (queryPlan : Json) : Try string :=
  andThen (stepsDisplay queryPlan) (fun display =>
  andThen (get queryPlan "final_strategy") (fun strategy =>
  Ok ("📋 Chain-of-Thought Plan (" ++ string_of_nat (stepsLength queryPlan)
          ++ " steps):" ++ nl ++ nl ++ display ++ nl ++ nl ++ "✅ Strategy: "
          ++ (if truthy strategy then template strategy else "N/A")))).

(** [`Attempt ${attempt + 2}: ${correctionPlan.error_categories?.join(', ')
    || 'Analyzing...'}\nError: ${error.message}\nPlan:
    ${correctionPlan.root_cause || 'Analyzing error...'}`] *)
Definition correctionOutput (attempt : nat) (correctionPlan : Json)
    (message : string) : Try string :=
  andThen (get correctionPlan "error_categories") (fun categories =>
  andThen (match categories with
         | None | Some JNull => Ok "Analyzing..."
         | Some (JArray items) =>
             match join ", " (map element_string items) with
             | EmptyString => Ok "Analyzing..."
             | joined => Ok joined
             end
         | Some _ =>
             Raise "correctionPlan.error_categories?.join is not a function"
         end) (fun shown =>
  andThen (get correctionPlan "root_cause") (fun cause =>
  Ok ("Attempt " ++ string_of_nat (attempt + 2) ++ ": " ++ shown ++ nl
          ++ "Error: " ++ message ++ nl ++ "Plan: "
          ++ (if truthy cause then template cause
              else "Analyzing error..."))))).

(** *** Step 5: execute, with the correction loop *)

Definition db_all (sql : string) : M (list Row) := fun st =>
  (await (db_answer w (List.length (db_log st)) sql), push_db sql st).

Definition set_attempt (n : nat) (v : Loop) : Loop :=
  {| success := success v; attempt := n; results := results v;
     sqlWithSchema := sqlWithSchema v |}.

Definition set_sqlWithSchema (sql : string) (v : Loop) : Loop :=
  {| success := success v; attempt := attempt v; results := results v;
     sqlWithSchema := sql |}.

Definition succeeded (rows : list Row) (v : Loop) : Loop :=
  {| success := true; attempt := attempt v; results := rows;
     sqlWithSchema := sqlWithSchema v |}.

(** The [try] block of one iteration. *)
Definition execute (v : Loop) : M Loop :=
  rows <- db_all (sqlWithSchema v) ;;
  emit (agent_complete "execute"
          (string_of_nat (List.length (cleanResults rows)) ++ " rows returned")) ;;
  ret (succeeded (cleanResults rows) v).

(** The [catch] block of one iteration. *)
Definition recover (v : Loop) (message : string) : M Loop :=
  emit (agent_error "execute" message) ;;
  v' <- (if attempt v <? maxAttempts - 1 then
           emit (agent_start "correction") ;;
           correctionPlan <- correctionPlanAgent message ;;
           correctedSQL <- correctionSQLAgent ;;
           output <- eval (correctionOutput (attempt v) correctionPlan message) ;;
           emit (agent_complete "correction" output) ;;
           let sql := Text.addSchemaPrefix correctedSQL in
           emit (agent_update "sql"
                   ("Corrected SQL (Attempt " ++ string_of_nat (attempt v + 2)
                    ++ "):" ++ nl ++ sql)) ;;
           console ;;
           ret (set_sqlWithSchema sql v)
         else
           emit (agent_complete "correction"
                   ("Failed after " ++ string_of_nat maxAttempts
                    ++ " attempts. Final error: " ++ message)) ;;
           ret v) ;;
  ret (set_attempt (attempt v + 1) v').

(** The body of the loop. *)
Definition iteration (v : Loop) : M Loop :=
  emit (agent_start "execute") ;;
  try_catch (execute v) (recover v).

(** [while (attempt < maxAttempts && !success) { ... }] *)
Fixpoint loop (fuel : nat) (v : Loop) : M Loop :=
  if (attempt v <? maxAttempts) && negb (success v) then
    match fuel with
    | O => lift NoFuel
    | S fuel' => v' <- iteration v ;; loop fuel' v'
    end
  else ret v.

(** *** The pipeline *)

(** Steps 1 to 4 of the [try] block: the SQL text as generated. *)
Definition generate : M string :=
(* Step 1: Schema Linking *)
emit (agent_start "schema") ;;
lift (await (schema_answer w)) ;;
linkedSchema <- schemaLinkingAgent ;;
tables <- eval (tables_join linkedSchema) ;;
emit (agent_complete "schema" ("Tables: " ++ tables)) ;;
(* Step 2: Subproblem *)
emit (agent_start "subproblem") ;;
subproblems <- subproblemAgent linkedSchema ;;
clauses <- eval (subproblemOutput subproblems) ;;
emit (agent_complete "subproblem" clauses) ;;
(* Step 3: Query Plan *)
emit (agent_start "queryplan") ;;
queryPlan <- queryPlanAgent subproblems ;;
plan <- eval (queryPlanOutput queryPlan) ;;
emit (agent_complete "queryplan" plan) ;;
(* Step 4: SQL Generation *)
emit (agent_start "sql") ;;
generatedSQL <- sqlGenerationAgent ;;
emit (agent_complete "sql" (Text.addSchemaPrefix generatedSQL)) ;;
ret generatedSQL.

(** The loop variables on entry. *)
Definition entry (generatedSQL : string) : Loop :=
  {| success := false; attempt := 0; results := [];
     sqlWithSchema := Text.addSchemaPrefix generatedSQL |}.

(** Step 5 and the final result. *)
Definition conclude (generatedSQL : string) : M bool :=
  v <- loop (S maxAttempts) (entry generatedSQL) ;;
  emit (complete (success v) generatedSQL (results v) (attempt v + 1)) ;;
  safeEnd ;;
  ret false.

(** The [try] block of the handler; [true] when it left the handler by
    [return res.status(400).json(...)]. *)
Definition pipeline (req : Request) : M bool :=
  if String.eqb (apiKey req) EmptyString then
    (fun st => (Return true, set_status400 "API key is required" st))
  else if String.eqb (question req) EmptyString then
    (fun st => (Return true, set_status400 "Question is required" st))
  else
    generatedSQL <- generate ;;
    conclude generatedSQL.

(** The [catch] block of the handler. *)
Definition fatal (message : string) : M bool :=
  (fun st =>
     if responseEnded st then (Return tt, st)
     else try_catch (res_write (error message)) (fun _ => console) st) ;;
  safeEnd ;;
  ret false.

(** The whole handler; the [close] listener is registered last. *)
Definition handler (req : Request) : M unit :=
  returned <- try_catch (pipeline req) fatal ;;
  if returned : bool then ret tt
  else (fun st => (Return tt, set_close_listener st)).

Definition run (req : Request) : Outcome unit * State :=
  handler req initial.

(** The events given to [res.write], in order. *)
Definition emitted (req : Request) : list Event :=
  events (snd (run req)).

(** Those that reached the client. *)
Definition delivered (st : State) : list Event :=
  map fst (filter (fun ed => match snd ed with Sent => true | _ => false end)
             (wire st)).

End Handler.

End Server.

(* ===================================================================== *)
(** ** The executor tool: [executeSQL] of sql-executor-tool.ts            *)
(* ===================================================================== *)

Module Executor.

(** The in-memory database the tool opens, and the clock. *)
Record World : Type := {
  install_answer : Answer unit;             (* INSTALL sqlite; LOAD sqlite; *)
  attach_answer : Answer unit;              (* ATTACH '...' AS chinook *)
  query_answer : string -> Answer (list Row);
  Date_now : nat -> Z                       (* the n-th reading of the clock *)
}.

Record SQLExecutorOutput : Type := {
  success : bool;
  result : option (list Row);
  error : option string;
  row_count : option nat;
  execution_time_ms : option Z
}.

(** What the tool asks of the database handle. *)
Inductive Call : Type :=
| all (sql : string)
| close.

Definition install : string := "INSTALL sqlite; LOAD sqlite;".

Definition attach (dbPath : string) : string :=
  "ATTACH '" ++ dbPath ++ "' AS chinook (TYPE SQLITE);".

Definition failure (message : string) (time : option Z) : SQLExecutorOutput :=
  {| success := false; result := None; error := Some message;
     row_count := None; execution_time_ms := time |}.

(** The promise returned by [executeSQL(sql, dbPath)], with the calls made
    on the database handle.  Only [resolve] is ever called; the promise
    stays unsettled when the engine never calls back. *)
Definition executeSQL (w : World) (sql dbPath : string)
  : Answer SQLExecutorOutput * list Call :=
  let startTime := Date_now w 0 in
  let elapsed := Some (Date_now w 1 - startTime)%Z in
  let cleanedSQL := Text.cleanSQL sql in
  match cleanedSQL with
  | EmptyString =>
      (Resolves (failure "Empty SQL query after cleaning" None), [])
  | _ =>
      match install_answer w with
      | Hangs => (Hangs, [all install])
      | Rejects m =>
          (Resolves (failure ("Failed to load SQLite extension: " ++ m) elapsed),
           [all install])
      | Resolves _ =>
          match attach_answer w with
          | Hangs => (Hangs, [all install; all (attach dbPath)])
          | Rejects m =>
              (Resolves (failure ("Failed to attach database: " ++ m) elapsed),
               [all install; all (attach dbPath); close])
          | Resolves _ =>
              let sqlWithSchema := Text.prefixTables cleanedSQL in
              let calls := [all install; all (attach dbPath); all sqlWithSchema] in
              match query_answer w sqlWithSchema with
              | Hangs => (Hangs, calls)
              | Rejects m => (Resolves (failure m elapsed), (calls ++ [close])%list)
              | Resolves rows =>
                  (Resolves {| success := true; result := Some rows;
                               error := None;
                               row_count := Some (List.length rows);
                               execution_time_ms := elapsed |},
                   (calls ++ [close])%list)
              end
          end
      end
  end.

End Executor.

(* ===================================================================== *)
(** ** The command-line pipeline: [sqlOfThought]                          *)
(* ===================================================================== *)

Module Cli.

Record World : Type := {
  DB_PATH : string;
(** [getCompleteSchema(DB_PATH)] *)
schema_answer : Answer Json;
(** [choices[0].message.content] of the n-th completion; [None] is [null] *)
openai_answer : nat -> Answer (option string);
JSON_parse : string -> Json + string;
(** the database behind the n-th call of [executeSQL] *)
executor : nat -> Executor.World
}.

Record State : Type := {
  openai_calls : nat;
  executed : list string          (* the SQL given to [executeSQL] *)
}.

Definition initial : State := {| openai_calls := 0; executed := [] |}.

Definition M (A : Type) : Type := Js.M State A.

Local Open Scope js_scope.

Definition MAX_CORRECTION_ATTEMPTS : nat := 3.

Record Loop : Type := {
  success : bool;
  attempt : nat;
  generatedSQL : string
}.

(** How [sqlOfThought] ends: the closing banner of the [try] block, or
    the [Pipeline error] of its [catch].  The other lines written to the
    console are not modelled. *)
Inductive Verdict : Type :=
| Finished (success : bool) (attempt : nat) (generatedSQL : string)
| PipelineError (message : string).

(** [content || fallback] *)
Definition orElse (content : option string) (fallback : string) : string :=
  match content with
  | None | Some EmptyString => fallback
  | Some text => text
  end.

(** [content?.trim() || ''] *)
Definition trimmed (content : option string) : string :=
  match content with
  | None => EmptyString
  | Some text => Text.trim text
  end.

Section Pipeline.

Variable w : World.

Definition create : M (option string) := fun st =>
  (await (openai_answer w (openai_calls st)),
   {| openai_calls := S (openai_calls st); executed := executed st |}).

Definition parse (text : string) : M Json :=
  lift (match JSON_parse w text with
        | inl v => Return v
        | inr m => Throw m
        end).

(** [JSON.parse(response.choices[0].message.content || '{}')] *)
Definition structured : M Json :=
  content <- create ;;
  parse (orElse content "{}").

Definition schemaLinkingAgent : M Json :=
  result <- structured ;;
  eval (get result "tables") ;;
  ret result.

Definition subproblemAgent (linkedSchema : Json) : M Json :=
  eval (tables_join linkedSchema) ;;
  result <- structured ;;
  eval (get result "clauses") ;;
  ret result.

Definition queryPlanAgent (linkedSchema subproblems : Json) : M Json :=
  eval (tables_join linkedSchema) ;;
  eval (get subproblems "clauses") ;;
  result <- structured ;;
  eval (get result "steps") ;;
  ret result.

Definition sqlGenerationAgent : M string :=
  content <- create ;;
  ret (Text.stripFences (trimmed content)).

Definition correctionPlanAgent : M Json :=
  result <- structured ;;
  eval (get result "error_categories") ;;
  ret result.

Definition correctionSQLAgent : M string :=
  content <- create ;;
  ret (Text.stripFences (trimmed content)).

(** [await executeSQL(generatedSQL, DB_PATH)] *)
Definition executeSQL (sql : string) : M Executor.SQLExecutorOutput :=
  fun st =>
    (await (fst (Executor.executeSQL (executor w (List.length (executed st)))
                   sql (DB_PATH w))),
     {| openai_calls := openai_calls st; executed := executed st ++ [sql] |}).

(** The body of the loop. *)
Definition iteration (v : Loop) : M Loop :=
  result <- executeSQL (generatedSQL v) ;;
  if Executor.success result then
    ret {| success := true; attempt := attempt v;
           generatedSQL := generatedSQL v |}
  else
    sql <- (if attempt v <? MAX_CORRECTION_ATTEMPTS then
              correctionPlanAgent ;;
              correctionSQLAgent
            else ret (generatedSQL v)) ;;
    ret {| success := success v; attempt := attempt v + 1;
           generatedSQL := sql |}.

(** [while (attempt <= MAX_CORRECTION_ATTEMPTS && !success) { ... }] *)
Fixpoint loop (fuel : nat) (v : Loop) : M Loop :=
  if (attempt v <=? MAX_CORRECTION_ATTEMPTS) && negb (success v) then
    match fuel with
    | O => lift NoFuel
    | S fuel' => v' <- iteration v ;; loop fuel' v'
    end
  else ret v.

Definition sqlOfThought : M Verdict :=
  try_catch
    (lift (await (schema_answer w)) ;;
     linkedSchema <- schemaLinkingAgent ;;
     subproblems <- subproblemAgent linkedSchema ;;
     queryPlanAgent linkedSchema subproblems ;;
     generatedSQL <- sqlGenerationAgent ;;
     v <- loop (2 + MAX_CORRECTION_ATTEMPTS)
            {| success := false; attempt := 0; generatedSQL := generatedSQL |} ;;
     ret (Finished (success v) (attempt v) (Cli.generatedSQL v)))
    (fun message => ret (PipelineError message)).

Definition run : Outcome Verdict * State := sqlOfThought initial.

End Pipeline.

End Cli.

(* ===================================================================== *)
(** ** A program logic for [M]                                            *)
(* ===================================================================== *)

Module Hoare.

(** The ways a computation ends without a value. *)
Inductive Abnormal : Type :=
| Thrown (message : string)
| Stalled
| Exhausted.

Section Triples.
Context {T : Type}.

(** [hoare P c Q X]: from a state in [P], [c] returns in [Q], or ends
    abnormally in [X]. *)
Definition hoare {A} (P : T -> Prop) (c : M T A)
    (Q : A -> T -> Prop) (X : Abnormal -> T -> Prop) : Prop :=
  forall st, P st ->
    match c st with
    | (Return a, st') => Q a st'
    | (Throw m, st') => X (Thrown m) st'
    | (Pending, st') => X Stalled st'
    | (NoFuel, st') => X Exhausted st'
    end.

(** [keeps I c]: [I] holds after [c], however it ends. *)
Definition keeps {A} (I : T -> Prop) (c : M T A) : Prop :=
  hoare I c (fun _ => I) (fun _ => I).

(** [c] never runs out of fuel. *)
Definition fuelled {A} (c : M T A) : Prop :=
  forall st, fst (c st) <> NoFuel.

End Triples.

End Hoare.

(* ===================================================================== *)
(** ** Properties of event streams and of SQL text                        *)
(* ===================================================================== *)

Module Spec.
Import Server.

(** The [agent] field of an event, when it has one. *)
Definition agent_of (e : Event) : option string :=
  match e with
  | agent_start a | agent_complete a _ | agent_error a _ | agent_update a _ =>
      Some a
  | complete _ _ _ _ | error _ => None
  end.

Definition about (agent : string) (e : Event) : bool :=
  match agent_of e with
  | Some a => String.eqb a agent
  | None => false
  end.

(** The agent whose stage an event closes. *)
Definition closes (e : Event) : option string :=
  match e with
  | agent_complete a _ | agent_error a _ => Some a
  | _ => None
  end.

(** Every event that closes a stage comes after a start of that stage. *)
Definition starts_first (es : list Event) : Prop :=
  forall i e a,
    nth_error es i = Some e -> closes e = Some a ->
    exists j, j < i /\ nth_error es j = Some (agent_start a).

(** What one iteration of the server's loop does to the loop variables:
    the query succeeds and the variables keep their query and their
    count; or the count grows by one and the query is either replaced by
    the rewritten reply of the correction SQL agent (the last call of the
    model) or, when no attempt is left, kept. *)
Definition Step (w : World) (v : Loop) (st : State) (v' : Loop) (st' : State)
  : Prop :=
  (success v' = true /\ attempt v' = attempt v /\
   sqlWithSchema v' = sqlWithSchema v /\
   exists rows,
     db_answer w (List.length (db_log st)) (sqlWithSchema v) = Resolves rows /\
     results v' = cleanResults rows)
  \/
  (success v' = success v /\ results v' = results v /\
   attempt v' = attempt v + 1 /\
   ((attempt v < maxAttempts - 1 /\
     exists reply,
       openai_answer w (pred (openai_calls st')) = Resolves reply /\
       sqlWithSchema v' = Text.addSchemaPrefix (Text.stripFences reply))
    \/
    (maxAttempts - 1 <= attempt v /\ sqlWithSchema v' = sqlWithSchema v))).

(** The same for the loop of the command-line pipeline. *)
Definition CliStep (w : Cli.World) (v : Cli.Loop) (st : Cli.State)
    (v' : Cli.Loop) (st' : Cli.State) : Prop :=
  (Cli.success v' = true /\ Cli.attempt v' = Cli.attempt v /\
   Cli.generatedSQL v' = Cli.generatedSQL v)
  \/
  (Cli.success v' = Cli.success v /\
   Cli.attempt v' = Cli.attempt v + 1 /\
   ((Cli.attempt v < Cli.MAX_CORRECTION_ATTEMPTS /\
     exists content,
       Cli.openai_answer w (pred (Cli.openai_calls st')) = Resolves content /\
       Cli.generatedSQL v' = Text.stripFences (Cli.trimmed content))
    \/
    (Cli.MAX_CORRECTION_ATTEMPTS <= Cli.attempt v /\
     Cli.generatedSQL v' = Cli.generatedSQL v))).

(** The stream is in order and, while the response is open, the agents
    of [L] have been started. *)
Definition Started (L : list string) (st : State) : Prop :=
  starts_first (events st) /\
  (responseEnded st = false ->
   forall a, In a L -> In (agent_start a) (events st)).

(** The agents known to be started at the head of the loop: the
    correction agent, once an attempt has failed. *)
Definition corrected (v : Loop) : list string :=
  if 1 <=? attempt v then ["correction"] else [].

(** No event of the correction agent has been written. *)
Definition Quiet (st : State) : Prop :=
  forall e, In e (events st) -> about "correction" e = false.

(** The first query of the loop was answered with rows. *)
Definition first_execution_succeeds (w : World) (st : State) : Prop :=
  forall sql, hd_error (db_log st) = Some sql ->
              exists rows, db_answer w 0 sql = Resolves rows.

(** No query has been executed yet, and the correction agent is silent. *)
Definition Fresh (st : State) : Prop := db_log st = [] /\ Quiet st.

(** The first query was not answered with rows. *)
Definition Lost (w : World) (st : State) : Prop :=
  exists sql rest,
    db_log st = sql :: rest /\
    ~ exists rows, db_answer w 0 sql = Resolves rows.

(** The stream is free of correction events, or the first query failed. *)
Definition Calm (w : World) (st : State) : Prop := Quiet st \/ Lost w st.

(** A row set is what the loop makes of an answer of the engine. *)
Definition cleaned (w : World) (results : list Row) : Prop :=
  exists n sql rows,
    db_answer w n sql = Resolves rows /\ results = cleanResults rows.

(** Every successful [complete] event of the stream carries such rows. *)
Definition Clean (w : World) (st : State) : Prop :=
  forall sql results attempts,
    In (complete true sql results attempts) (events st) -> cleaned w results.

Definition is_complete (e : Event) : bool :=
  match e with complete _ _ _ _ => true | _ => false end.

Definition is_error (e : Event) : bool :=
  match e with error _ => true | _ => false end.

(** The two events that end a stream. *)
Definition terminal (e : Event) : bool := is_complete e || is_error e.

(** The rows held by the loop variables once [success] is set. *)
Definition Settled (w : World) (v : Loop) : Prop :=
  success v = true -> cleaned w (results v).

(** The response is open and no terminal event has been written. *)
Definition Open (st : State) : Prop :=
  responseEnded st = false /\
  forall e, In e (events st) -> terminal e = false.

(** [k] calls of the model have been made, none of them the call [n]. *)
Definition Upto (n k : nat) (st : State) : Prop :=
  k <= n /\ openai_calls st = k /\ Open st.

(** The pipeline stopped before the call [n], or the call [n] was the
    last one and [m] was thrown. *)
Definition Aborted (n : nat) (m : string) (x : Hoare.Abnormal) (st : State)
  : Prop :=
Open st /\
(openai_calls st <= n \/ (x = Hoare.Thrown m /\ openai_calls st = S n)).

(** The calls made so far stay below [n], and nothing terminal was
    written. *)
Definition Below (n : nat) (st : State) : Prop :=
Open st /\ openai_calls st <= n.

(** The same for the command-line pipeline, which writes no events. *)
Definition CliUpto (n k : nat) (st : Cli.State) : Prop :=
  k <= n /\ Cli.openai_calls st = k.

Definition CliAborted (n : nat) (m : string) (x : Hoare.Abnormal)
    (st : Cli.State) : Prop :=
  Cli.openai_calls st <= n \/
  (x = Hoare.Thrown m /\ Cli.openai_calls st = S n).

(** The stream ends with the [error] event carrying [m], the first
    terminal event of the stream. *)
Definition ends_with_error (m : string) (es : list Event) : Prop :=
  exists before,
    es = (before ++ [error m])%list /\
    forall e, In e before -> terminal e = false.

(** How a run stands with respect to the call [n]. *)
Definition Verdict (n : nat) (m : string) (st : State) : Prop :=
  openai_calls st <= n \/
  (openai_calls st = S n /\ ends_with_error m (events st)).

(** An SQL text made of white space and comments only: line comments run
    from two dashes to the end of the line, block comments from the
    opening mark to the next closing mark.  The scanner is a small
    automaton over the characters. *)
Inductive Scan : Type :=
| Plain          (* between comments *)
| Dash           (* one dash read *)
| Slash          (* one slash read *)
| Line           (* inside a line comment *)
| Block          (* inside a block comment *)
| BlockStar.     (* inside a block comment, a star read *)

Definition scan_step (q : Scan) (c : ascii) : option Scan :=
  match q with
  | Plain => if Text.is_space c then Some Plain
             else if Ascii.eqb c "-" then Some Dash
             else if Ascii.eqb c "/" then Some Slash
             else None
  | Dash => if Ascii.eqb c "-" then Some Line else None
  | Slash => if Ascii.eqb c "*" then Some Block else None
  | Line => if Text.is_line_terminator c then Some Plain else Some Line
  | Block => if Ascii.eqb c "*" then Some BlockStar else Some Block
  | BlockStar => if Ascii.eqb c "/" then Some Plain
                 else if Ascii.eqb c "*" then Some BlockStar
                 else Some Block
  end.

Fixpoint scan (q : Scan) (s : string) : bool :=
  match s with
  | EmptyString => match q with Plain | Line => true | _ => false end
  | String c t => match scan_step q c with
                  | Some q' => scan q' t
                  | None => false
                  end
  end.

Definition comments_only (sql : string) : bool := scan Plain sql.

End Spec.

(* ===================================================================== *)
(** ** Concrete worlds                                                    *)
(* ===================================================================== *)

Module Scenario.
Import Server.

Definition q (s : string) : string := quote ++ s ++ quote.

(** Replies of the model, as JSON text, and what [JSON.parse] makes of
    them. *)
Definition linked_text : string :=
  "{" ++ q "tables" ++ ":[" ++ q "customers" ++ "]}".
Definition linked_json : Json :=
  JObject [("tables", JArray [JString "customers"])].

Definition clauses_text : string :=
  "{" ++ q "clauses" ++ ":{" ++ q "SELECT" ++ ":" ++ q "all columns" ++ ","
      ++ q "WHERE" ++ ":" ++ q "Country is USA" ++ "}}".
Definition clauses_json : Json :=
  JObject [("clauses", JObject [("SELECT", JString "all columns");
                                ("WHERE", JString "Country is USA")])].

Definition plan_text : string :=
  "{" ++ q "steps" ++ ":[]," ++ q "final_strategy" ++ ":" ++ q "filter" ++ "}".
Definition plan_json : Json :=
  JObject [("steps", JArray []); ("final_strategy", JString "filter")].

Definition fix_text : string :=
  "{" ++ q "error_categories" ++ ":[" ++ q "schema_link.col_missing" ++ "],"
      ++ q "root_cause" ++ ":" ++ q "wrong column" ++ "}".
Definition fix_json : Json :=
  JObject [("error_categories", JArray [JString "schema_link.col_missing"]);
           ("root_cause", JString "wrong column")].

Definition not_json : string := "Sorry, I cannot help with that.".

Definition parse_table : list (string * Json) :=
  [(linked_text, linked_json); (clauses_text, clauses_json);
   (plan_text, plan_json); (fix_text, fix_json)].

Definition parse_known (text : string) : Json + string :=
  match assoc text parse_table with
  | Some v => inl v
  | None => inr "Unexpected token in JSON"
  end.

(** A world from the list of the model's replies and the list of the
    engine's answers to the queries of the loop; the connection stays
    open. *)
Definition world (replies : list string) (answers : list (Answer (list Row)))
  : World :=
  {| schema_answer := Resolves (JObject []);
     openai_answer := fun n => match nth_error replies n with
                               | Some text => Resolves text
                               | None => Rejects "no reply"
                               end;
     JSON_parse := parse_known;
     db_answer := fun n _ => match nth_error answers n with
                             | Some a => a
                             | None => Rejects "no answer"
                             end;
     describe_answer := fun _ => Resolves [];
     write_delivery := fun _ => Sent;
     end_throws := false |}.

Definition request : Request :=
  {| question := "List all customers from USA"; model := "gpt-4o-mini";
     apiKey := "sk-test" |}.

Definition usa : string := "SELECT * FROM customers WHERE Country = 'USA'".
Definition bad : string := "SELECT * FROM customers WHERE Nation = 'USA'".

Definition no_column : Answer (list Row) :=
  Rejects "Binder Error: Referenced column Nation not found".

Definition two_rows : list Row :=
  [[("CustomerId", VBigInt 9007199254740993); ("Country", VString "USA")];
   [("CustomerId", VBigInt 17); ("Country", VString "USA")]].

(** The first query runs. *)
Definition first_try : World :=
  world [linked_text; clauses_text; plan_text; usa] [Resolves two_rows].

(** The first query fails, the corrected one runs. *)
Definition second_try : World :=
  world [linked_text; clauses_text; plan_text; bad; fix_text; usa]
        [no_column; Resolves two_rows].

(** Every query fails. *)
Definition never : World :=
  world [linked_text; clauses_text; plan_text; bad; fix_text; bad; fix_text; bad]
        [no_column; no_column; no_column].

(** The reply of the subproblem stage is not JSON. *)
Definition garbled_subproblem : World :=
  world [linked_text; not_json] [].

(** The connection is closed: every write is swallowed. *)
Definition disconnected : World :=
  {| schema_answer := Resolves (JObject []);
     openai_answer := fun _ => Rejects "no reply";
     JSON_parse := parse_known;
     db_answer := fun _ _ => Rejects "no answer";
     describe_answer := fun _ => Resolves [];
     write_delivery := fun _ => Dropped;
     end_throws := true |}.

(** A database for the executor tool in which every query returns one
    row with a 64-bit total, read at times 100 and 107. *)
Definition big_total : list Row := [[("Total", VBigInt 9007199254740993)]].

Definition engine : Executor.World :=
  {| Executor.install_answer := Resolves tt;
     Executor.attach_answer := Resolves tt;
     Executor.query_answer := fun _ => Resolves big_total;
     Executor.Date_now := fun n => match n with O => 100%Z | _ => 107%Z end |}.

(** The same database, rejecting what is not a statement. *)
Definition strict_engine : Executor.World :=
  {| Executor.install_answer := Resolves tt;
     Executor.attach_answer := Resolves tt;
     Executor.query_answer := fun _ => Rejects "Parser Error: syntax error";
     Executor.Date_now := fun n => match n with O => 100%Z | _ => 107%Z end |}.

Definition path : string := "data/chinook.db".

(** A block comment whose text contains two dashes. *)
Definition dashed_comment : string := "/* totals -- per customer */".

(** The reply of the query plan stage of the command line is not JSON. *)
Definition cli_replies : list string :=
  [linked_text; clauses_text; not_json].

(** A command-line world: the model replies with [replies], every
    database behaves like [db]. *)
Definition cli_world (replies : list string) (db : Executor.World)
  : Cli.World :=
  {| Cli.DB_PATH := path;
     Cli.schema_answer := Resolves (JObject []);
     Cli.openai_answer := fun n => match nth_error replies n with
                                   | Some text => Resolves (Some text)
                                   | None => Rejects "no reply"
                                   end;
     Cli.JSON_parse := parse_known;
     Cli.executor := fun _ => db |}.

End Scenario.

(* ===================================================================== *)
(** ** SQL text that holds comments only                                  *)
(* ===================================================================== *)

Module Comments.

(** An SQL text made of white space, line comments (two dashes up to the
    end of the line) and block comments, in which no block comment holds
    two dashes in a row.  The scanner is an automaton over the
    characters; [BlockDash] is a block comment after a dash. *)
Inductive Scan : Type :=
| Plain
| Dash
| Slash
| Line
| Block
| BlockDash
| BlockStar.

Definition step (q : Scan) (c : ascii) : option Scan :=
  match q with
  | Plain => if Text.is_space c then Some Plain
             else if Ascii.eqb c "-" then Some Dash
             else if Ascii.eqb c "/" then Some Slash
             else None
  | Dash => if Ascii.eqb c "-" then Some Line else None
  | Slash => if Ascii.eqb c "*" then Some Block else None
  | Line => if Text.is_line_terminator c then Some Plain else Some Line
  | Block => if Ascii.eqb c "*" then Some BlockStar
             else if Ascii.eqb c "-" then Some BlockDash
             else Some Block
  | BlockDash => if Ascii.eqb c "-" then None
                 else if Ascii.eqb c "*" then Some BlockStar
                 else Some Block
  | BlockStar => if Ascii.eqb c "/" then Some Plain
                 else if Ascii.eqb c "*" then Some BlockStar
                 else if Ascii.eqb c "-" then Some BlockDash
                 else Some Block
  end.

Fixpoint scan (q : Scan) (s : string) : bool :=
  match s with
  | EmptyString => match q with Plain | Line => true | _ => false end
  | String c t => match step q c with
                  | Some q' => scan q' t
                  | None => false
                  end
  end.

Definition tidy (sql : string) : bool := scan Plain sql.

End Comments.

(* ===================================================================== *)
(** ** The database of the server: [getDB], [initDB], [executeSQL]        *)
(* ===================================================================== *)

Module Database.

Record World : Type := {
  DB_PATH : string;
(** the answer of the engine to the n-th statement it is given *)
all_answer : nat -> string -> Answer (list Row)
}.

(** The module variables [dbInstance] and [dbInitialized]; the database
    objects constructed so far are numbered from 0, and [statements]
    lists the calls of [db.all] with the object they were made on. *)
Record State : Type := {
  dbInstance : option nat;
  dbInitialized : bool;
  opened : nat;
  statements : list (nat * string)
}.

Definition initial : State :=
  {| dbInstance := None; dbInitialized := false; opened := 0; statements := [] |}.

Definition M (A : Type) : Type := Js.M State A.

Local Open Scope js_scope.

(** [/\\/g] replaced by ['/'] *)
Definition backslash : Text.matcher := fun s =>
  match s with
  | String c _ => if Ascii.eqb c "\" then Some ("/", 1) else None
  | EmptyString => None
  end.

(** [DB_PATH.replace(/\\/g, '/')] *)
Definition normalizedPath (path : string) : string :=
  Text.replace_all backslash path.

Definition install : string := "INSTALL sqlite; LOAD sqlite;".

Definition attach (path : string) : string :=
  "ATTACH '" ++ path ++ "' AS chinook (TYPE SQLITE);".

Section Calls.

Variable w : World.

(** [if (!dbInstance) { dbInstance = new Database.Database(':memory:') }
    return dbInstance] *)
Definition getDB : M nat := fun st =>
  match dbInstance st with
  | Some db => (Return db, st)
  | None =>
      (Return (opened st),
       {| dbInstance := Some (opened st); dbInitialized := dbInitialized st;
          opened := S (opened st); statements := statements st |})
  end.

(** [db.all(sql, (err, rows) => err ? reject(err) : resolve(rows))] *)
Definition db_all (db : nat) (sql : string) : M (list Row) := fun st =>
  (await (all_answer w (List.length (statements st)) sql),
   {| dbInstance := dbInstance st; dbInitialized := dbInitialized st;
      opened := opened st;
      statements := statements st ++ [(db, sql)] |}).

Definition set_dbInitialized : M unit := fun st =>
  (Return tt,
   {| dbInstance := dbInstance st; dbInitialized := true;
      opened := opened st; statements := statements st |}).

Definition initDB : M unit := fun st =>
  if dbInitialized st then (Return tt, st)
  else
    (db <- getDB ;;
     db_all db install ;;
     db_all db (attach (normalizedPath (DB_PATH w))) ;;
     set_dbInitialized) st.

Definition executeSQL (sql : string) : M (list Row) :=
  db <- getDB ;;
  db_all db sql.

(** The calls made on this module, one after the other. *)
Inductive Call : Type :=
| CallGetDB
| CallInitDB
| CallExecuteSQL (sql : string).

Definition call (c : Call) : M unit :=
  match c with
  | CallGetDB => getDB ;; ret tt
  | CallInitDB => initDB
  | CallExecuteSQL sql => executeSQL sql ;; ret tt
  end.

(** The state after a series of calls, each awaited (and caught, when
    it rejects) by its caller. *)
Fixpoint calls (cs : list Call) (st : State) : State :=
  match cs with
  | [] => st
  | c :: rest => calls rest (snd (call c st))
  end.

(** The queries that a series of calls gives to [executeSQL]. *)
Definition queries (cs : list Call) : list string :=
  flat_map (fun c => match c with CallExecuteSQL sql => [sql] | _ => [] end) cs.

End Calls.

(** The module variables after any series of calls: one database at
    most, which has been given every statement. *)
Definition Single (st : State) : Prop :=
  opened st <= 1 /\
  (dbInstance st = None -> opened st = 0 /\ statements st = [] /\
                           dbInitialized st = false) /\
  (forall db, dbInstance st = Some db -> db = 0 /\ opened st = 1) /\
  (forall db sql, In (db, sql) (statements st) -> db = 0).

End Database.

(* ===================================================================== *)
(** ** The schema tool: columns and the text of the prompt                *)
(* ===================================================================== *)

Module SchemaTool.

(** A row of [DESCRIBE chinook.<table>]. *)
Record DescribeRow : Type := {
  column_name : string;
  column_type : string;
  null : string
}.

(** [{ name, type, nullable, primary_key }] *)
Record Column : Type := {
  name : string;
  type : string;
  nullable : bool;
  primary_key : bool
}.

(** [{ from, to }] *)
Record ForeignKey : Type := {
  from : string;
  to : string
}.

(** [{ tables: { <name>: { columns } }, foreign_keys }]; the tables are
    in property order. *)
Record Schema : Type := {
  tables : list (string * list Column);
  foreign_keys : list ForeignKey
}.

(** [c.toLowerCase()] on one code unit below 256: the capital letters of
    ASCII and of Latin-1. *)
Definition toLowerCase (c : ascii) : ascii :=
  let n := N_of_ascii c in
  if (((65 <=? n) && (n <=? 90))
      || ((192 <=? n) && (n <=? 222) && negb (n =? 215)))%N
  then ascii_of_N (n + 32) else c.

Fixpoint lowered (s : string) : string :=
  match s with
  | EmptyString => EmptyString
  | String c t => String (toLowerCase c) (lowered t)
  end.

(** [s.includes(part)] *)
Fixpoint includes (part s : string) : bool :=
  match Text.strip_prefix part s with
  | Some _ => true
  | None => match s with
            | EmptyString => false
            | String _ t => includes part t
            end
  end.

(** The object made of the column at index [i] of the rows of
    [DESCRIBE]:
<<
    { name: col.column_name, type: col.column_type,
      nullable: col.null === 'YES',
      primary_key: col.column_name.toLowerCase().includes('id')
                   && columns.indexOf(col) === 0 }
>>
    The rows are distinct objects, so [columns.indexOf(col)] is the index
    of [col]. *)
Definition column (i : nat) (col : DescribeRow) : Column :=
  {| name := column_name col;
     type := column_type col;
     nullable := String.eqb (null col) "YES";
     primary_key := includes "id" (lowered (column_name col)) && (i =? 0) |}.

Fixpoint columns_from (i : nat) (columns : list DescribeRow) : list Column :=
  match columns with
  | [] => []
  | col :: rest => column i col :: columns_from (S i) rest
  end.

(** [columns.map((col) => ({ ... }))] *)
Definition describe (columns : list DescribeRow) : list Column :=
  columns_from 0 columns.

Definition nl : string := String (ascii_of_N 10) EmptyString.

(** [`  - ${col.name}: ${col.type}${pkMarker}${nullMarker}\n`] *)
Definition columnLine (col : Column) : string :=
  "  - " ++ name col ++ ": " ++ type col
    ++ (if primary_key col then " [PRIMARY KEY]" else EmptyString)
    ++ (if nullable col then EmptyString else " NOT NULL") ++ nl.

(** [`  - ${fk.from} -> ${fk.to}\n`] *)
Definition foreignKeyLine (fk : ForeignKey) : string :=
  "  - " ++ from fk ++ " -> " ++ to fk ++ nl.

(** The body of the loop over the tables:
<<
    output += `## Table: ${tableName}\n`;
    output += 'Columns:\n';
    for (const col of tableInfo.columns) { output += <the line of col> }
    output += '\n';
>> *)
Definition addTable (output : string) (table : string * list Column) : string :=
  let output := output ++ "## Table: " ++ fst table ++ nl in
  let output := output ++ "Columns:" ++ nl in
  let output := fold_left (fun output col => output ++ columnLine col)
                  (snd table) output in
  output ++ nl.

(** [formatSchemaForPrompt(schema)] *)
Definition formatSchemaForPrompt (schema : Schema) : string :=
  let output := "# Database Schema" ++ nl ++ nl in
  let output := fold_left addTable (tables schema) output in
  if 0 <? List.length (foreign_keys schema) then
    fold_left (fun output fk => output ++ foreignKeyLine fk)
      (foreign_keys schema)
      (output ++ "## Foreign Key Relationships" ++ nl)
  else output.

End SchemaTool.

(* ===================================================================== *)
(** ** The rows shown on the command line                                 *)
(* ===================================================================== *)

Module Display.

(** [result.result?.slice(0, 5).map(row => { ... converted[key] = typeof
    value === 'bigint' ? value.toString() : value ... })] *)
Definition resultsToShow (result : option (list Row)) : option (list Row) :=
  option_map (fun rows => Server.cleanResults (firstn 5 rows)) result.

Definition is_bigint (value : Value) : bool :=
  match value with VBigInt _ => true | _ => false end.

End Display.

(* ===================================================================== *)
(** ** The page: reading the event stream                                 *)
(* ===================================================================== *)

Module Client.

Definition nl : string := String (ascii_of_N 10) EmptyString.

(** What the server writes for one message:
    [`data: ${JSON.stringify(message)}\n\n`]. *)
Definition frame (json : string) : string := "data: " ++ json ++ nl ++ nl.

(** The character [c] in front of the first piece of a split text. *)
Definition push (c : ascii) (pieces : list string) : list string :=
  match pieces with
  | piece :: rest => String c piece :: rest
  | [] => [String c EmptyString]
  end.

Definition is_nl (c : ascii) : bool := Ascii.eqb c (ascii_of_N 10).

(** [s.split('\n\n')]: the pieces between the occurrences of the
    separator, taken from left to right. *)
Fixpoint split (s : string) : list string :=
  match s with
  | EmptyString => [EmptyString]
  | String c t =>
      match t with
      | String d t' =>
          if is_nl c && is_nl d then EmptyString :: split t'
          else push c (split t)
      | EmptyString => push c (split t)
      end
  end.

(** [lines.pop() || '']: the lines that are left, and the last one. *)
Definition pop (lines : list string) : list string * string :=
  (removelast lines, last lines EmptyString).

(** [line.substring(n)] *)
Fixpoint substring_from (n : nat) (line : string) : string :=
  match n, line with
  | O, _ => line
  | S n', String _ t => substring_from n' t
  | S _, EmptyString => EmptyString
  end.

(** [line.startsWith(lit)] *)
Definition startsWith (lit line : string) : bool :=
  match Text.strip_prefix lit line with
  | Some _ => true
  | None => false
  end.

(** [if (!line.trim() || !line.startsWith('data: ')) continue;] and then
    [line.substring(6)], the text given to [JSON.parse]. *)
Definition payload (line : string) : option string :=
  if String.eqb (Text.trim line) EmptyString || negb (startsWith "data: " line)
  then None
  else Some (substring_from 6 line).

(** The state of the loop that reads the response: the texts handled so
    far and the buffer; or the texts handled before one of them made the
    loop throw, which ends the reading in the [catch] block. *)
Inductive Reading : Type :=
| Listening (handled : list string) (buffer : string)
| Stopped (handled : list string) (message : string).

Section Reader.

(** What [JSON.parse] and the update of the page make of a text:
    [None] when it is handled, the message of the error when they
    throw (a text that is not JSON, an event of type [error]). *)
Variable dispatch : string -> option string.

(** [for (const line of lines) { ... }] *)
Fixpoint deliver (lines : list string) (handled : list string)
  : list string * option string :=
  match lines with
  | [] => (handled, None)
  | line :: rest =>
      match payload line with
      | None => deliver rest handled
      | Some text =>
          match dispatch text with
          | Some message => (handled, Some message)
          | None => deliver rest (handled ++ [text])
          end
      end
  end.

(** [while (true) { const { done, value } = await reader.read(); if
    (done) break; buffer += decoder.decode(value, { stream: true });
    const lines = buffer.split('\n\n'); buffer = lines.pop() || '';
    ... }] over the decoded chunks of the response. *)
Fixpoint read (chunks : list string) (handled : list string) (buffer : string)
  : Reading :=
  match chunks with
  | [] => Listening handled buffer
  | value :: rest =>
      let (lines, buffer') := pop (split (buffer ++ value)) in
      match deliver lines handled with
      | (handled', None) => read rest handled' buffer'
      | (handled', Some message) => Stopped handled' message
      end
  end.

(** The same texts handled one by one. *)
Fixpoint handle (texts : list string) (handled : list string) : Reading :=
  match texts with
  | [] => Listening handled EmptyString
  | text :: rest =>
      match dispatch text with
      | Some message => Stopped handled message
      | None => handle rest (handled ++ [text])
      end
  end.

End Reader.

End Client.

(* ===================================================================== *)
(** ** What a run of the server has done                                  *)
(* ===================================================================== *)

Module Run.
Import Server.

(** The request has not been answered: the response is open, nothing
    terminal has been written, and no listener waits for the client to
    go away. *)
Definition Running (st : State) : Prop :=
  responseEnded st = false /\ end_calls st = 0 /\ status400 st = None /\
  close_listener st = false /\
  forall e, In e (events st) -> Spec.terminal e = false.

(** The same after [k] calls of the model and the queries [log]. *)
Definition Frame (k : nat) (log : list string) (st : State) : Prop :=
  Running st /\ openai_calls st = k /\ db_log st = log.

(** A run that stopped on the way. *)
Definition Interrupted (st : State) : Prop :=
  Running st /\ openai_calls st <= 8 /\ List.length (db_log st) <= 3.

Definition Broken (x : Hoare.Abnormal) (st : State) : Prop :=
  x <> Hoare.Exhausted /\ Interrupted st.

(** The loop variables at the head of the loop of step 5. *)
Definition Looping (w : World) (generatedSQL : string) (v : Loop) (st : State)
  : Prop :=
  Running st /\
  openai_calls st = 4 + 2 * Nat.min (attempt v) 2 /\
  List.length (db_log st) = attempt v + (if success v then 1 else 0) /\
  List.length (db_log st) <= 3 /\
  (db_log st = [] -> sqlWithSchema v = Text.addSchemaPrefix generatedSQL) /\
  (db_log st <> [] ->
   hd_error (db_log st) = Some (Text.addSchemaPrefix generatedSQL)) /\
  if success v then
    exists rows,
      nth_error (db_log st) (attempt v) = Some (sqlWithSchema v) /\
      db_answer w (attempt v) (sqlWithSchema v) = Resolves rows /\
      results v = cleanResults rows
  else results v = [].

(** What the event that ends the stream says of the run. *)
Definition Reported (w : World) (st : State) (e : Event) : Prop :=
  match e with
  | complete success sql results attempts =>
      attempts = List.length (db_log st) + (if success then 0 else 1) /\
      1 <= List.length (db_log st) <= 3 /\
      (success = false -> List.length (db_log st) = 3) /\
      hd_error (db_log st) = Some (Text.addSchemaPrefix sql) /\
      if success then
        exists query rows,
          nth_error (db_log st) (attempts - 1) = Some query /\
          db_answer w (attempts - 1) query = Resolves rows /\
          results = cleanResults rows
      else results = []
  | error _ => True
  | _ => False
  end.

(** The stream holds one terminal event, the last one. *)
Definition Told (w : World) (st : State) : Prop :=
  openai_calls st <= 8 /\ List.length (db_log st) <= 3 /\
  status400 st = None /\
  exists before last,
    events st = (before ++ [last])%list /\
    (forall e, In e before -> Spec.terminal e = false) /\
    Reported w st last.

(** The terminal event is written and the response is still open. *)
Definition Closing (w : World) (st : State) : Prop :=
  responseEnded st = false /\ end_calls st = 0 /\ close_listener st = false /\
  Told w st.

(** The response has been ended, once. *)
Definition Answered (w : World) (st : State) : Prop :=
  responseEnded st = true /\ end_calls st = 1 /\ Told w st.

(** The answer [400] a request gets, if any. *)
Definition refusal (req : Request) : option string :=
  if String.eqb (apiKey req) EmptyString then Some "API key is required"
  else if String.eqb (question req) EmptyString then Some "Question is required"
  else None.

End Run.

(* ===================================================================== *)
(** ** More concrete worlds                                               *)
(* ===================================================================== *)

Module Cases.
Import Server.

(** The model never answers the second call. *)
Definition waiting : World :=
  {| schema_answer := Resolves (JObject []);
     openai_answer := fun n => match n with
                               | O => Resolves Scenario.linked_text
                               | _ => Hangs
                               end;
     JSON_parse := Scenario.parse_known;
     db_answer := fun _ _ => Rejects "no answer";
     describe_answer := fun _ => Resolves [];
     write_delivery := fun _ => Sent;
     end_throws := false |}.

Definition no_key : Request :=
  {| question := "List all customers from USA"; model := "gpt-4o-mini";
     apiKey := EmptyString |}.

(** The command line with a database that rejects every query. *)
Definition cli_never : Cli.World :=
  Scenario.cli_world
    [Scenario.linked_text; Scenario.clauses_text; Scenario.plan_text;
     Scenario.bad; Scenario.fix_text; Scenario.bad; Scenario.fix_text;
     Scenario.bad; Scenario.fix_text; Scenario.bad]
    Scenario.strict_engine.

(** A database whose extension cannot be loaded. *)
Definition no_extension : Executor.World :=
  {| Executor.install_answer := Rejects "IO Error: extension not found";
     Executor.attach_answer := Resolves tt;
     Executor.query_answer := fun _ => Resolves [];
     Executor.Date_now := fun n => match n with O => 100%Z | _ => 107%Z end |}.

End Cases.

(* ===================================================================== *)
(** ** What a run of the command line has done                            *)
(* ===================================================================== *)

Module CliRun.
Import Cli.

(** [k] calls of the model and the executions [log]. *)
Definition Frame (k : nat) (log : list string) (st : State) : Prop :=
  openai_calls st = k /\ executed st = log.

(** A run that stopped on the way. *)
Definition Broken (x : Hoare.Abnormal) (st : State) : Prop :=
  x <> Hoare.Exhausted /\ openai_calls st <= 10 /\ List.length (executed st) <= 4.

(** The tool ran [sql] as execution [n] and reported a success. *)
Definition ran (w : World) (n : nat) (sql : string) : Prop :=
  exists out,
    fst (Executor.executeSQL (executor w n) sql (DB_PATH w)) = Resolves out /\
    Executor.success out = true.

(** The loop variables at the head of the loop of step 6. *)
Definition Looping (w : World) (v : Loop) (st : State) : Prop :=
  openai_calls st = 4 + 2 * Nat.min (attempt v) MAX_CORRECTION_ATTEMPTS /\
  List.length (executed st) = attempt v + (if success v then 1 else 0) /\
  List.length (executed st) <= 4 /\
  if success v then
    nth_error (executed st) (attempt v) = Some (generatedSQL v) /\
    ran w (attempt v) (generatedSQL v)
  else
    MAX_CORRECTION_ATTEMPTS < attempt v ->
    nth_error (executed st) MAX_CORRECTION_ATTEMPTS = Some (generatedSQL v).

(** What the verdict says of the run. *)
Definition Reported (w : World) (st : State) (verdict : Verdict) : Prop :=
  openai_calls st <= 10 /\ List.length (executed st) <= 4 /\
  match verdict with
  | Finished success attempt sql =>
      List.length (executed st) = attempt + (if success then 1 else 0) /\
      (if success then attempt <= MAX_CORRECTION_ATTEMPTS
       else attempt = MAX_CORRECTION_ATTEMPTS + 1) /\
      nth_error (executed st) (List.length (executed st) - 1) = Some sql /\
      (success = true -> ran w (List.length (executed st) - 1) sql)
  | PipelineError _ => True
  end.

End CliRun.

(* ===================================================================== *)
(** ** The rewrites and the conversions on examples                       *)
(* ===================================================================== *)

Example addSchemaPrefix_ex1 :
  Text.addSchemaPrefix "SELECT * FROM customers WHERE Country = 'USA'"
  = "SELECT * FROM chinook.customers WHERE Country = 'USA'".
Proof. reflexivity. Qed.

Example addSchemaPrefix_ex2 :
  Text.addSchemaPrefix "select a from chinook.chinook.t x join  u on 1"
  = "select a from chinook.t x JOIN chinook.u on 1".
Proof. reflexivity. Qed.

Example string_of_nat_0 : string_of_nat 0 = "0".
Proof. reflexivity. Qed.

Example BigInt_toString_2_53 :
  BigInt_toString 9007199254740993 = "9007199254740993"
  /\ BigInt_toString (-12) = "-12" /\ BigInt_toString 0 = "0".
Proof. repeat split. Qed.

(* ===================================================================== *)
(** ** Rules of the program logic                                         *)
(* ===================================================================== *)

Section Rules.
Import Hoare.
Context {T : Type}.
Implicit Types (P I : T -> Prop) (X : Abnormal -> T -> Prop).

Lemma hoare_ret {A} P (a : A) (Q : A -> T -> Prop) X :
  (forall st, P st -> Q a st) -> hoare P (ret a) Q X.
Proof. intros H st HP. cbn. auto. Qed.

Lemma hoare_bind {A B} P (c : M T A) (k : A -> M T B) Q1 (Q : B -> T -> Prop) X :
  hoare P c Q1 X ->
  (forall a, hoare (Q1 a) (k a) Q X) ->
  hoare P (bind c k) Q X.
Proof.
  intros Hc Hk st HP. specialize (Hc st HP). unfold bind.
  destruct (c st) as [[a| m | |] st']; auto.
  apply Hk. exact Hc.
Qed.

Lemma hoare_try_catch {A} P (body : M T A) handler Q X1 X :
  hoare P body Q X1 ->
  (forall m, hoare (X1 (Thrown m)) (handler m) Q X) ->
  (forall st, X1 Stalled st -> X Stalled st) ->
  (forall st, X1 Exhausted st -> X Exhausted st) ->
  hoare P (try_catch body handler) Q X.
Proof.
  intros Hb Hh Hs He st HP. specialize (Hb st HP). unfold try_catch.
  destruct (body st) as [[a| m | |] st']; auto.
  apply Hh. exact Hb.
Qed.

Lemma hoare_weaken {A} P P' (c : M T A) (Q Q' : A -> T -> Prop) X X' :
  hoare P' c Q' X' ->
  (forall st, P st -> P' st) ->
  (forall a st, Q' a st -> Q a st) ->
  (forall x st, X' x st -> X x st) ->
  hoare P c Q X.
Proof.
  intros H HP HQ HX st Hst. specialize (H st (HP st Hst)).
  destruct (c st) as [[a| m | |] st']; auto.
Qed.

Lemma hoare_lift {A} P (o : Outcome A) (Q : A -> T -> Prop) X :
  (forall st, P st ->
     match o with
     | Return a => Q a st
     | Throw m => X (Thrown m) st
     | Pending => X Stalled st
     | NoFuel => X Exhausted st
     end) ->
  hoare P (lift o) Q X.
Proof. intros H st HP. cbn. specialize (H st HP). destruct o; auto. Qed.

Lemma keeps_ret {A} I (a : A) : keeps I (ret a).
Proof. apply hoare_ret. auto. Qed.

Lemma keeps_lift {A} I (o : Outcome A) : keeps I (lift o).
Proof. apply hoare_lift. intros. destruct o; auto. Qed.

Lemma keeps_eval {A} I (t : Try A) : keeps I (eval t).
Proof. apply keeps_lift. Qed.

Lemma keeps_bind {A B} I (c : M T A) (k : A -> M T B) :
  keeps I c -> (forall a, keeps I (k a)) -> keeps I (bind c k).
Proof. intros. eapply hoare_bind; eauto. Qed.

Lemma keeps_try_catch {A} I (body : M T A) handler :
  keeps I body -> (forall m, keeps I (handler m)) ->
  keeps I (try_catch body handler).
Proof. intros. eapply hoare_try_catch; eauto. Qed.

Lemma keeps_state {A} I (c : M T A) st : keeps I c -> I st -> I (snd (c st)).
Proof.
  intros H HI. specialize (H st HI).
  destruct (c st) as [[a| m | |] st']; auto.
Qed.

(** A computation whose final state is given by a function of the
    initial one keeps every invariant that function keeps. *)
Lemma keeps_step {A} I (c : M T A) (f : T -> T) :
  (forall st, snd (c st) = f st) -> (forall st, I st -> I (f st)) -> keeps I c.
Proof.
  intros Hc Hf st HI. specialize (Hc st). specialize (Hf st HI).
  destruct (c st) as [[a| m | |] st']; cbn in Hc; subst; auto.
Qed.

End Rules.

(* ===================================================================== *)
(** ** Where the rewrites and the cleaning do what is meant               *)
(* ===================================================================== *)


Section Patterns.
Import Text.

Lemma replace_unmatched m s : nowhere m s = true -> replace_all m s = s.
Proof.
  unfold replace_all. induction s as [|c t IH]; cbn; [reflexivity|].
  destruct (m (String c t)); [discriminate|].
  intros H. now rewrite IH.
Qed.

Lemma replace_from_skip m s : forall k rest,
  replace_from m (String.length s + k) (s ++ rest) = replace_from m k rest.
Proof.
  induction s as [|c t IH]; intros k rest; cbn; [reflexivity|apply IH].
Qed.

Lemma replace_from_end m s : replace_from m (String.length s) s = EmptyString.
Proof.
  induction s as [|c t IH]; cbn; [reflexivity|exact IH].
Qed.

Lemma fold_case_word c : is_word (fold_case c) = is_word c.
Proof. destruct c as [[] [] [] [] [] [] [] []]; lazy; reflexivity. Qed.

Lemma eqb_ci_refl c : eqb_ci c c = true.
Proof. unfold eqb_ci. apply Ascii.eqb_refl. Qed.

Lemma strip_prefix_ci_app lit r : strip_prefix_ci lit (lit ++ r) = Some r.
Proof.
  induction lit as [|a lit IH]; cbn [strip_prefix_ci append];
    [reflexivity|].
  now rewrite eqb_ci_refl.
Qed.

Lemma append_empty s : s ++ EmptyString = s.
Proof. induction s as [|c s IH]; cbn; [reflexivity|now rewrite IH]. Qed.

Lemma replace_keep m c s :
  m (String c s) = None ->
  replace_from m 0 (String c s) = String c (replace_from m 0 s).
Proof. cbn. now intros ->. Qed.

Lemma replace_hit m c s r n :
  m (String c s) = Some (r, n) ->
  replace_from m 0 (String c s) = r ++ replace_from m (pred n) s.
Proof. cbn. now intros ->. Qed.

Lemma eqb_ci_word a b : eqb_ci a b = true -> is_word a = is_word b.
Proof.
  unfold eqb_ci. intros H. apply Ascii.eqb_eq in H.
  rewrite <- (fold_case_word a), <- (fold_case_word b). now rewrite H.
Qed.

Lemma word_not_space c : is_word c = true -> is_space c = false.
Proof. destruct c as [[] [] [] [] [] [] [] []]; lazy; congruence. Qed.

Lemma space_not_dash c :
  is_space c = true -> Ascii.eqb "-" c = false /\ Ascii.eqb "/" c = false.
Proof.
  destruct c as [[] [] [] [] [] [] [] []]; lazy; intros;
    try discriminate; auto.
Qed.

(** A literal found at the head of a word is made of word characters. *)
Lemma strip_prefix_ci_word lit : forall s r,
  all is_word s = true -> strip_prefix_ci lit s = Some r ->
  all is_word lit = true /\ all is_word r = true.
Proof.
  induction lit as [|a lit IH]; intros s r Hs H; cbn in *.
  - injection H as <-. auto.
  - destruct s as [|b s]; [discriminate|].
    destruct (eqb_ci a b) eqn:E; [|discriminate].
    cbn in Hs. apply andb_prop in Hs. destruct Hs as [Hb Hs].
    destruct (IH s r Hs H) as [Hl Hr].
    rewrite (eqb_ci_word a b E), Hb. auto.
Qed.

Lemma span_space_word s : all is_word s = true -> span is_space s = (EmptyString, s).
Proof.
  destruct s as [|c t]; cbn; [reflexivity|].
  intros [Hc _]%andb_prop. now rewrite (word_not_space c Hc).
Qed.

Lemma span_word_all s : all is_word s = true -> span is_word s = (s, EmptyString).
Proof.
  induction s as [|c t IH]; cbn; [reflexivity|].
  intros [Hc Ht]%andb_prop. rewrite Hc, (IH Ht). reflexivity.
Qed.

Lemma all_word_tail c t : all is_word (String c t) = true -> all is_word t = true.
Proof. cbn. now intros [_ H]%andb_prop. Qed.

(** Inside a word, none of the patterns of the server's rewrite matches. *)
Lemma double_prefix_word s : all is_word s = true -> double_prefix s = None.
Proof.
  intros Hs. unfold double_prefix.
  destruct (strip_prefix_ci _ s) as [r|] eqn:E; [|reflexivity].
  destruct (strip_prefix_ci_word _ _ _ Hs E) as [Hl _]. discriminate Hl.
Qed.

Lemma qualified_word s : all is_word s = true -> strip_prefix_ci "chinook." s = None.
Proof.
  intros Hs.
  destruct (strip_prefix_ci _ s) as [r|] eqn:E; [|reflexivity].
  destruct (strip_prefix_ci_word _ _ _ Hs E) as [Hl _]. discriminate Hl.
Qed.

Lemma unqualified_word kw s : all is_word s = true -> unqualified kw s = None.
Proof.
  intros Hs. unfold unqualified.
  destruct (strip_prefix_ci kw s) as [r|] eqn:E; [|reflexivity].
  destruct (strip_prefix_ci_word _ _ _ Hs E) as [_ Hr].
  now rewrite (span_space_word r Hr).
Qed.

Lemma nowhere_word m s :
  (forall u, all is_word u = true -> m u = None) ->
  all is_word s = true -> nowhere m s = true.
Proof.
  intros Hm. induction s as [|c t IH]; intros Hs; cbn.
  - now rewrite (Hm EmptyString).
  - rewrite (Hm _ Hs). apply IH. now apply all_word_tail in Hs.
Qed.

(** The pattern of an unqualified reference at a keyword followed by a
    name. *)
Lemma unqualified_hit kw t :
  t <> EmptyString -> all is_word t = true ->
  unqualified kw (kw ++ " " ++ t)
  = Some (kw ++ " chinook." ++ t, String.length kw + 1 + String.length t).
Proof.
  intros Hne Ht. unfold unqualified.
  rewrite strip_prefix_ci_app.
  change (span is_space (" " ++ t))
    with (let (a, b) := span is_space t in (String " " a, b)).
  rewrite (span_space_word t Ht), (qualified_word t Ht), (span_word_all t Ht).
  destruct t; [contradiction|reflexivity].
Qed.

Lemma strip_miss a lit b s :
  eqb_ci a b = false -> strip_prefix_ci (String a lit) (String b s) = None.
Proof. cbn [strip_prefix_ci]. now intros ->. Qed.

Lemma strip_step a lit b s :
  eqb_ci a b = true ->
  strip_prefix_ci (String a lit) (String b s) = strip_prefix_ci lit s.
Proof. cbn [strip_prefix_ci]. now intros ->. Qed.

Lemma nowhere_cons m c s :
  m (String c s) = None -> nowhere m s = true -> nowhere m (String c s) = true.
Proof. cbn [nowhere]. now intros ->. Qed.

Lemma double_prefix_none s :
  strip_prefix_ci "chinook.chinook." s = None -> double_prefix s = None.
Proof. unfold double_prefix. now intros ->. Qed.

Lemma unqualified_none kw s :
  strip_prefix_ci kw s = None -> unqualified kw s = None.
Proof. unfold unqualified. now intros ->. Qed.

(** The negative look-ahead: a reference that carries the prefix already
    is not matched. *)
Lemma unqualified_qualified kw t : unqualified kw (kw ++ " chinook." ++ t) = None.
Proof.
  unfold unqualified. rewrite strip_prefix_ci_app.
  change (span is_space (" chinook." ++ t)) with (" ", "chinook." ++ t).
  cbv beta iota.
  now rewrite (strip_prefix_ci_app "chinook." t).
Qed.

(** Comparing a literal with a text whose first characters are known. *)
Ltac strip :=
  repeat first [ rewrite strip_miss by (vm_compute; reflexivity)
               | rewrite strip_step by (vm_compute; reflexivity) ].

Ltac miss t :=
  first [ apply double_prefix_none; strip; first [reflexivity | assumption]
        | apply unqualified_none; strip; reflexivity
        | exact (unqualified_qualified "FROM" t) ].

Ltac scan t :=
  cbn [append]; repeat (apply nowhere_cons; [miss t|]); assumption.

(** X1.  For a table name [t], the rewrite of the server qualifies the
    reference of [SELECT * FROM t] once, and leaves the qualified query
    as it is. *)
Lemma addSchemaPrefix_simple_query t :
  t <> EmptyString -> all is_word t = true ->
  addSchemaPrefix ("SELECT * FROM " ++ t) = "SELECT * FROM chinook." ++ t /\
  addSchemaPrefix ("SELECT * FROM chinook." ++ t) = "SELECT * FROM chinook." ++ t.
Proof.
  intros Hne Ht.
  assert (nowhere double_prefix t = true) as N1
      by (apply nowhere_word; auto using double_prefix_word).
  assert (forall kw, nowhere (unqualified kw) t = true) as N2
      by (intros kw; apply nowhere_word; auto using unqualified_word).
  assert (strip_prefix_ci "chinook." t = None) as Q by now apply qualified_word.
  pose proof (N2 "FROM") as NF. pose proof (N2 "JOIN") as NJ.
  assert (addSchemaPrefix ("SELECT * FROM chinook." ++ t)
          = "SELECT * FROM chinook." ++ t) as Stable.
  { unfold addSchemaPrefix.
    rewrite (replace_unmatched double_prefix) by scan t.
    rewrite (replace_unmatched (unqualified "FROM")) by scan t.
    apply replace_unmatched. scan t. }
  split; [|exact Stable].
  unfold addSchemaPrefix.
  rewrite (replace_unmatched double_prefix) by scan t.
  assert (replace_all (unqualified "FROM") ("SELECT * FROM " ++ t)
          = "SELECT * FROM chinook." ++ t) as ->.
  { unfold replace_all.
    cbn [append].
    do 9 (rewrite replace_keep by miss t).
    change (String "F" (String "R" (String "O" (String "M" (String " " t)))))
      with (String "F" ("ROM " ++ t)).
    rewrite (replace_hit (unqualified "FROM") "F" ("ROM " ++ t) _ _
               (unqualified_hit "FROM" t Hne Ht)).
    change (pred (String.length "FROM" + 1 + String.length t))
      with (String.length "ROM " + String.length t).
    rewrite replace_from_skip, replace_from_end, append_empty.
    reflexivity. }
  apply replace_unmatched. scan t.
Qed.
End Patterns.

(* ===================================================================== *)
(** ** What [trim] and the removal of code fences leave                   *)
(* ===================================================================== *)

Section Trimming.
Import Text.

Lemma all_app p a b : all p (a ++ b) = all p a && all p b.
Proof.
  induction a as [|c a IH]; cbn; [reflexivity|].
  now rewrite IH, andb_assoc.
Qed.

Lemma append_assoc (a b c : string) : (a ++ b) ++ c = a ++ b ++ c.
Proof. induction a as [|x a IH]; cbn; [reflexivity|now rewrite IH]. Qed.

Lemma trim_start_split s :
  exists a, s = a ++ trim_start s /\ all is_space a = true.
Proof.
  induction s as [|c t (a & Ha & Hs)]; cbn.
  - exists EmptyString. auto.
  - destruct (is_space c) eqn:E.
    + exists (String c a). cbn. rewrite E, Hs. split; [now rewrite <- Ha|reflexivity].
    + exists EmptyString. auto.
Qed.

Lemma trim_end_split s :
  exists b, s = trim_end s ++ b /\ all is_space b = true.
Proof.
  induction s as [|c t (b & Hb & Hs)]; cbn.
  - exists EmptyString. auto.
  - destruct (trim_end t) as [|d u] eqn:E.
    + cbn in Hb. subst t. destruct (is_space c) eqn:Ec.
      * exists (String c b). cbn. rewrite Ec, Hs. auto.
      * exists b. auto.
    + exists b. split; [cbn; f_equal; exact Hb|exact Hs].
Qed.

Lemma trim_start_head s c x : trim_start s = String c x -> is_space c = false.
Proof.
  induction s as [|d t IH]; cbn; [discriminate|].
  destruct (is_space d) eqn:E; [exact IH|].
  intros [= <- _]. exact E.
Qed.

Lemma trim_end_head c t :
  is_space c = false -> exists x, trim_end (String c t) = String c x.
Proof.
  intros E. cbn. destruct (trim_end t); rewrite ?E; eauto.
Qed.

Lemma trim_end_last s x c : trim_end s = x ++ String c EmptyString -> is_space c = false.
Proof.
  revert x. induction s as [|d t IH]; intros x; cbn.
  - destruct x; discriminate.
  - destruct (trim_end t) as [|e u] eqn:E.
    + destruct (is_space d) eqn:Ed.
      * destruct x; discriminate.
      * destruct x as [|y x]; cbn; [intros [= <-]; exact Ed|].
        destruct x; discriminate.
    + destruct x as [|y x]; cbn; [discriminate|].
      intros [= _ H]. now apply (IH x).
Qed.

Lemma trim_start_fixed s :
  (forall c x, s = String c x -> is_space c = false) -> trim_start s = s.
Proof.
  destruct s as [|c x]; cbn; [reflexivity|].
  intros H. now rewrite (H c x eq_refl).
Qed.

Lemma trim_end_idempotent s : trim_end (trim_end s) = trim_end s.
Proof.
  induction s as [|c t IH]; cbn; [reflexivity|].
  destruct (trim_end t) as [|d u] eqn:E.
  - destruct (is_space c) eqn:Ec; cbn; [reflexivity|now rewrite Ec].
  - cbn [trim_end] in *. now rewrite IH.
Qed.

Lemma trim_head s c x : trim s = String c x -> is_space c = false.
Proof.
  unfold trim. destruct (trim_start s) as [|d t] eqn:E; [cbn; discriminate|].
  pose proof (trim_start_head _ _ _ E) as Hd.
  destruct (trim_end_head d t Hd) as [y Hy]. rewrite Hy.
  intros [= <- _]. exact Hd.
Qed.

Lemma trim_split s :
  exists a b, s = a ++ trim s ++ b /\ all is_space a = true /\ all is_space b = true.
Proof.
  destruct (trim_start_split s) as (a & Ha & Hsa).
  destruct (trim_end_split (trim_start s)) as (b & Hb & Hsb).
  exists a, b. unfold trim. now rewrite <- Hb, <- Ha.
Qed.

(** X2.  [s.trim()] takes white space away at both ends and nothing
    else: the text is the trimmed text between two runs of white space,
    the trimmed text neither starts nor ends with a white-space
    character, and trimming it again changes nothing. *)
Theorem trim_removes_surrounding_white_space :
  forall s,
    (exists a b, s = a ++ trim s ++ b /\
                 all is_space a = true /\ all is_space b = true) /\
    (forall c x, trim s = String c x -> is_space c = false) /\
    (forall x c, trim s = x ++ String c EmptyString -> is_space c = false) /\
    trim (trim s) = trim s.
Proof.
  intros s. split; [apply trim_split|]. split; [apply trim_head|].
  split; [intros x c; apply trim_end_last|].
  unfold trim at 1.
  rewrite (trim_start_fixed (trim s)) by apply trim_head.
  unfold trim. apply trim_end_idempotent.
Qed.

End Trimming.

Section Fences.
Import Text.

Lemma strip_prefix_spec lit : forall s r, strip_prefix lit s = Some r -> s = lit ++ r.
Proof.
  induction lit as [|a lit IH]; intros s r; cbn.
  - now intros [= ->].
  - destruct s as [|b s]; [discriminate|].
    destruct (Ascii.eqb_spec a b) as [->|]; [|discriminate].
    intros H. now rewrite (IH _ _ H).
Qed.

Lemma strip_prefix_app lit r : strip_prefix lit (lit ++ r) = Some r.
Proof.
  induction lit as [|a lit IH]; cbn; [reflexivity|].
  now rewrite Ascii.eqb_refl.
Qed.

Lemma nowhere_inside m a x : nowhere m (a ++ x) = true -> m x = None.
Proof.
  induction a as [|c a IH]; cbn [append].
  - destruct x; cbn; destruct (m _); congruence.
  - cbn [nowhere]. destruct (m (String c (a ++ x))); [discriminate|exact IH].
Qed.

(** The pattern of a code fence matches the texts that start with it. *)
Lemma fence_matches lit r : fence lit (lit ++ r) <> None.
Proof.
  unfold fence. rewrite strip_prefix_app.
  destruct (strip_prefix _ r); discriminate.
Qed.

Lemma fence_misses lit s : (forall r, s <> lit ++ r) -> fence lit s = None.
Proof.
  intros H. unfold fence.
  destruct (strip_prefix lit s) as [r|] eqn:E; [|reflexivity].
  now apply strip_prefix_spec, H in E.
Qed.

Lemma fence_decided lit s : {r | s = lit ++ r} + {fence lit s = None}.
Proof.
  unfold fence. destruct (strip_prefix lit s) as [r|] eqn:E; [left|right; reflexivity].
  exists r. now apply strip_prefix_spec.
Qed.

Let F := fence "```".
Let R := replace_from F 0.

(** Where the pattern does not match, the character is kept, and the
    text that follows it in the result starts with no more back quotes
    than the text that followed it before. *)
Lemma fence_kept s :
  F s = None ->
  (forall r, R s = "`" ++ r -> exists r', s = "`" ++ r') /\
  (forall r, R s = "``" ++ r -> exists r', s = "``" ++ r') /\
  (forall r, R s <> "```" ++ r).
Proof.
  induction s as [|c t IH]; intros Hs.
  - repeat split; intros r; cbn; discriminate.
  - assert (R (String c t) = String c (R t)) as ->
        by (unfold R; now apply replace_keep).
    assert (forall r, R t = "`" ++ r -> exists r', t = "`" ++ r') as H1.
    { intros r Hr. destruct (fence_decided "```" t) as [[r' ->]|Ht].
      - now exists ("``" ++ r').
      - now apply (proj1 (IH Ht) r). }
    repeat split.
    + intros r [= -> _]. now exists t.
    + intros r [= -> Hr]. destruct (H1 _ Hr) as [r' ->]. now exists r'.
    + intros r [= -> Hr].
      destruct (fence_decided "```" t) as [[r' ->]|Ht].
      * now apply (fence_matches "```" ("`" ++ r')) in Hs.
      * destruct (proj1 (proj2 (IH Ht)) r Hr) as [r' ->].
        now apply (fence_matches "```" r') in Hs.
Qed.

Lemma fence_removed n : forall s, String.length s <= n -> nowhere F (R s) = true.
Proof.
  induction n as [|n IH]; intros s Hn.
  - destruct s; [reflexivity|cbn in Hn; lia].
  - destruct s as [|c t]; [reflexivity|].
    destruct (F (String c t)) as [[r k]|] eqn:E.
    + unfold R. rewrite (replace_hit _ _ _ _ _ E).
      unfold F, fence in E.
      destruct (strip_prefix "```" (String c t)) as [r0|] eqn:E0; [|discriminate].
      apply strip_prefix_spec in E0. injection E0 as -> ->.
      destruct (strip_prefix _ r0) as [r1|] eqn:E1.
      * apply strip_prefix_spec in E1. subst r0. injection E as <- <-.
        change (replace_from F (pred 4) _)
          with (replace_from F
                  (String.length ("``" ++ String (ascii_of_N 10) EmptyString) + 0)
                  (("``" ++ String (ascii_of_N 10) EmptyString) ++ r1)).
        rewrite replace_from_skip. apply IH. cbn in Hn. lia.
      * injection E as <- <-.
        change (replace_from F (pred 3) _)
          with (replace_from F (String.length "``" + 0) ("``" ++ r0)).
        rewrite replace_from_skip. apply IH. cbn in Hn. lia.
    + assert (R (String c t) = String c (R t)) as Hk
          by (unfold R; now apply replace_keep).
      rewrite Hk. cbn [nowhere].
      assert (F (String c (R t)) = None) as ->.
      { apply fence_misses. intros r. rewrite <- Hk. apply (fence_kept _ E). }
      apply IH. cbn in Hn. lia.
Qed.

(** X3.  The SQL text taken from the reply of the model,
    [response.replace(/```sql\n?/g, '').replace(/```\n?/g, '').trim()],
    holds no fence of three back quotes, wherever the reply had them. *)
Theorem stripFences_leaves_no_fence :
  forall response before after,
    stripFences response <> before ++ "```" ++ after.
Proof.
  intros response p q H. unfold stripFences, replace_all in H.
  set (y := replace_from (fence "```") 0 _) in H.
  assert (nowhere F y = true) as Hy by (apply (fence_removed _ _ (le_n _))).
  destruct (trim_split y) as (a & b & Hab & _).
  rewrite H, !append_assoc, <- (append_assoc a p) in Hab.
  rewrite Hab in Hy. apply nowhere_inside in Hy.
  now apply (fence_matches "```" (q ++ b)) in Hy.
Qed.

End Fences.

(* ===================================================================== *)
(** ** The schema prefix, whatever the case of the keyword                *)
(* ===================================================================== *)

Section Keywords.
Import Text.

Lemma all_impl (p q : ascii -> bool) s :
  (forall c, p c = true -> q c = true) -> all p s = true -> all q s = true.
Proof.
  intros H. induction s as [|c t IH]; cbn; [reflexivity|].
  intros [Hc Ht]%andb_prop. now rewrite (H c Hc), IH.
Qed.

Lemma eqb_ci_sym a b : eqb_ci a b = eqb_ci b a.
Proof. unfold eqb_ci. apply Ascii.eqb_sym. Qed.

Lemma eqb_ci_other a b c : eqb_ci a b = true -> eqb_ci c b = eqb_ci c a.
Proof. unfold eqb_ci. intros H%Ascii.eqb_eq. now rewrite H. Qed.

(** A text that is [lit] up to the case of its letters. *)
Lemma same_letters_length lit : forall k,
  strip_prefix_ci lit k = Some EmptyString -> String.length k = String.length lit.
Proof.
  induction lit as [|a lit IH]; intros k; cbn.
  - now intros [= ->].
  - destruct k as [|b k]; [discriminate|].
    destruct (eqb_ci a b); [|discriminate]. intros H. cbn. now rewrite (IH k H).
Qed.

Lemma same_letters_app lit : forall k r,
  strip_prefix_ci lit k = Some EmptyString -> strip_prefix_ci lit (k ++ r) = Some r.
Proof.
  induction lit as [|a lit IH]; intros k r; cbn.
  - now intros [= ->].
  - destruct k as [|b k]; [discriminate|]. cbn.
    destruct (eqb_ci a b); [|discriminate]. apply IH.
Qed.

Lemma same_letters_avoid x lit : forall k,
  strip_prefix_ci lit k = Some EmptyString ->
  all (fun c => negb (eqb_ci x c)) lit = true ->
  all (fun c => negb (eqb_ci x c)) k = true.
Proof.
  induction lit as [|a lit IH]; intros k; cbn.
  - now intros [= ->].
  - destruct k as [|b k]; [discriminate|].
    destruct (eqb_ci a b) eqn:E; [|discriminate].
    intros H [Ha Hl]%andb_prop. cbn.
    now rewrite (eqb_ci_other _ _ x E), Ha, (IH k H Hl).
Qed.

Lemma space_avoids x s :
  is_word x = true -> all is_space s = true ->
  all (fun c => negb (eqb_ci x c)) s = true.
Proof.
  intros Hx. apply all_impl. intros c Hc.
  destruct (eqb_ci x c) eqn:E; [|reflexivity].
  apply eqb_ci_word in E. rewrite Hx in E. symmetry in E.
  apply word_not_space in E. congruence.
Qed.

(** A pattern that starts with the letter [x] matches nowhere in a run
    of other characters. *)
Lemma nowhere_run m x a rest :
  (forall c u, eqb_ci x c = false -> m (String c u) = None) ->
  all (fun c => negb (eqb_ci x c)) a = true ->
  nowhere m rest = true -> nowhere m (a ++ rest) = true.
Proof.
  intros Hm. induction a as [|c a IH]; cbn [append all]; [auto|].
  intros [Hc Ha]%andb_prop Hr. cbn [nowhere].
  rewrite Hm by now apply negb_true_iff. auto.
Qed.

Lemma double_prefix_first c u : eqb_ci "c" c = false -> double_prefix (String c u) = None.
Proof. intros H. apply double_prefix_none. now apply strip_miss. Qed.

Lemma unqualified_first x kw c u :
  eqb_ci x c = false -> unqualified (String x kw) (String c u) = None.
Proof. intros H. apply unqualified_none. now apply strip_miss. Qed.

Lemma span_run p a rest :
  all p a = true -> (forall c u, rest = String c u -> p c = false) ->
  span p (a ++ rest) = (a, rest).
Proof.
  intros Ha Hr. induction a as [|c a IH]; cbn [append].
  - destruct rest as [|c u]; [reflexivity|]. cbn. now rewrite (Hr c u eq_refl).
  - cbn in Ha. apply andb_prop in Ha. destruct Ha as [Hc Ha].
    cbn [span]. now rewrite Hc, (IH Ha).
Qed.

(** The pattern of an unqualified reference at the keyword in any case,
    followed by white space and a name. *)
Lemma unqualified_reference kw k ws t :
  strip_prefix_ci kw k = Some EmptyString ->
  ws <> EmptyString -> all is_space ws = true ->
  t <> EmptyString -> all is_word t = true ->
  unqualified kw (k ++ ws ++ t)
  = Some (kw ++ " chinook." ++ t,
          String.length kw + String.length ws + String.length t).
Proof.
  intros Hk Hne Hws Hnt Ht. unfold unqualified.
  rewrite (same_letters_app _ _ _ Hk).
  rewrite (span_run is_space ws t Hws).
  2:{ intros c u ->. cbn in Ht. apply andb_prop in Ht.
      now apply word_not_space. }
  rewrite (qualified_word t Ht), (span_word_all t Ht).
  destruct ws; [contradiction|]. destruct t; [contradiction|reflexivity].
Qed.

Lemma append_length (a b : string) :
  String.length (a ++ b) = String.length a + String.length b.
Proof. induction a as [|c a IH]; cbn; [reflexivity|now rewrite IH]. Qed.

(** A replacement whose match takes the whole text. *)
Lemma replace_whole m s r :
  s <> EmptyString -> m s = Some (r, String.length s) -> replace_all m s = r.
Proof.
  intros Hs Hm. destruct s as [|c u]; [contradiction|].
  unfold replace_all. rewrite (replace_hit _ _ _ _ _ Hm). cbn [String.length pred].
  now rewrite replace_from_end, append_empty.
Qed.

Lemma nowhere_reference m x k ws t :
  is_word x = true ->
  (forall c u, eqb_ci x c = false -> m (String c u) = None) ->
  all (fun c => negb (eqb_ci x c)) k = true ->
  all is_space ws = true -> nowhere m t = true ->
  nowhere m (k ++ ws ++ t) = true.
Proof.
  intros Hx Hm Hk Hws Ht.
  apply (nowhere_run m x); [exact Hm|exact Hk|].
  apply (nowhere_run m x); [exact Hm|now apply space_avoids|exact Ht].
Qed.

(** X4.  The rewrite of the server qualifies a reference whatever the
    case of the keyword and the white space after it: [from  Album],
    [From Album] and [FROM<tab>Album] all become [FROM chinook.Album],
    with the keyword in capitals and one space; the same for [JOIN]. *)
Theorem reference_is_qualified_whatever_the_case :
  forall kw k ws t,
    kw = "FROM" \/ kw = "JOIN" ->
    strip_prefix_ci kw k = Some EmptyString ->
    ws <> EmptyString -> all is_space ws = true ->
    t <> EmptyString -> all is_word t = true ->
    addSchemaPrefix (k ++ ws ++ t) = kw ++ " chinook." ++ t.
Proof.
  intros kw k ws t Hkw Hk Hne Hws Hnt Ht.
  assert (nowhere double_prefix t = true) as N1
      by (apply nowhere_word; auto using double_prefix_word).
  assert (forall kw, nowhere (unqualified kw) t = true) as N2
      by (intros kw'; apply nowhere_word; auto using unqualified_word).
  assert (k ++ ws ++ t <> EmptyString) as Hs.
  { apply same_letters_length in Hk.
    destruct k; [destruct Hkw; subst kw; discriminate|discriminate]. }
  assert (String.length kw + String.length ws + String.length t
          = String.length (k ++ ws ++ t)) as Hl.
  { rewrite !append_length, (same_letters_length _ _ Hk). lia. }
  pose proof (unqualified_reference kw k ws t Hk Hne Hws Hnt Ht) as Hit.
  rewrite Hl in Hit.
  unfold addSchemaPrefix.
  rewrite (replace_unmatched double_prefix).
  2:{ apply (nowhere_reference _ "c"); auto using double_prefix_first.
      apply (same_letters_avoid _ kw); [exact Hk|].
      destruct Hkw; subst kw; reflexivity. }
  destruct Hkw; subst kw.
  - rewrite (replace_whole _ _ _ Hs Hit).
    apply replace_unmatched.
    apply (nowhere_run _ "J" "FROM chinook." t);
      [intros; now apply unqualified_first|reflexivity|apply N2].
  - rewrite (replace_unmatched (unqualified "FROM")).
    2:{ apply (nowhere_reference _ "F"); auto.
        - intros; now apply unqualified_first.
        - apply (same_letters_avoid _ "JOIN"); [exact Hk|reflexivity]. }
    apply (replace_whole _ _ _ Hs Hit).
Qed.

Lemma reference_is_qualified_whatever_the_case_witness :
  ("FROM" = "FROM" \/ "FROM" = "JOIN") /\
  strip_prefix_ci "FROM" "fRoM" = Some EmptyString /\
  all is_space "  " = true /\ all is_word "Album" = true /\
  addSchemaPrefix ("fRoM" ++ "  " ++ "Album") = "FROM" ++ " chinook." ++ "Album".
Proof.
  split; [left; reflexivity|]. split; [reflexivity|].
  split; [reflexivity|]. split; [reflexivity|].
  apply (reference_is_qualified_whatever_the_case "FROM" "fRoM" "  " "Album");
    first [left; reflexivity | reflexivity | discriminate].
Defined.

Lemma addSchemaPrefix_simple_query_witness :
  "Album" <> EmptyString /\ all is_word "Album" = true /\
  addSchemaPrefix ("SELECT * FROM " ++ "Album") = "SELECT * FROM chinook." ++ "Album" /\
  addSchemaPrefix ("SELECT * FROM chinook." ++ "Album")
  = "SELECT * FROM chinook." ++ "Album".
Proof.
  split; [discriminate|]. split; [reflexivity|].
  apply (addSchemaPrefix_simple_query "Album"); [discriminate|reflexivity].
Defined.

End Keywords.

(* ===================================================================== *)
(** ** The table named by an error of the engine                          *)
(* ===================================================================== *)

Section TableOfTheError.
Import Text Server.

Lemma span_spec p s : forall a b,
  span p s = (a, b) -> s = a ++ b /\ all p a = true.
Proof.
  induction s as [|c t IH]; intros a b; cbn.
  - intros [= <- <-]. auto.
  - destruct (p c) eqn:E.
    + destruct (span p t) as [a' b'] eqn:Es. intros [= <- <-].
      destruct (IH _ _ eq_refl) as [-> Ha]. cbn. now rewrite E, Ha.
    + intros [= <- <-]. auto.
Qed.

Lemma table_named_at_spec s t :
  table_named_at s = Some t ->
  t <> EmptyString /\ all is_word t = true /\
  exists after,
    s = "Table " ++ quote ++ t ++ quote ++ " does not have" ++ after.
Proof.
  unfold table_named_at.
  destruct (strip_prefix _ s) as [r|] eqn:E; [|discriminate].
  apply strip_prefix_spec in E.
  destruct (span is_word r) as [w r1] eqn:Es.
  apply span_spec in Es. destruct Es as [-> Hw].
  destruct w as [|c w]; [discriminate|].
  destruct (strip_prefix _ r1) as [after|] eqn:E1; [|discriminate].
  apply strip_prefix_spec in E1. intros [= <-].
  split; [discriminate|]. split; [exact Hw|].
  exists after. rewrite E, E1. now rewrite !append_assoc.
Qed.

(** X5.  The table name the correction plan agent takes from the error
    message, [error.match(/Table "(\w+)" does not have/)], is a
    non-empty run of letters, digits and underscores, and it is the name
    the message quotes; so the statement [DESCRIBE chinook.<name>;] built
    from it holds nothing else of the message. *)
Theorem tableMatch_names_a_word :
  forall message t,
    tableMatch message = Some t ->
    t <> EmptyString /\ all is_word t = true /\
    exists before after,
      message = before ++ "Table " ++ quote ++ t ++ quote
                ++ " does not have" ++ after.
Proof.
  induction message as [|c rest IH]; intros t; cbn [tableMatch].
  - destruct (table_named_at EmptyString) eqn:E; [|discriminate].
    intros [= ->]. destruct (table_named_at_spec _ _ E) as (H1 & H2 & after & H3).
    split; [exact H1|]. split; [exact H2|]. now exists EmptyString, after.
  - destruct (table_named_at (String c rest)) eqn:E.
    + intros [= ->]. destruct (table_named_at_spec _ _ E) as (H1 & H2 & after & H3).
      split; [exact H1|]. split; [exact H2|]. now exists EmptyString, after.
    + intros H. destruct (IH t H) as (H1 & H2 & before & after & H3).
      split; [exact H1|]. split; [exact H2|].
      exists (String c before), after. cbn. now rewrite H3.
Qed.

Lemma tableMatch_names_a_word_witness :
  let message := "Binder Error: Table " ++ quote ++ "invoices" ++ quote
               ++ " does not have a column named " ++ quote ++ "Amount" ++ quote in
  tableMatch message = Some "invoices" /\
  ("invoices" <> EmptyString /\ all is_word "invoices" = true /\
   exists before after,
     message = before ++ "Table " ++ quote ++ "invoices" ++ quote
               ++ " does not have" ++ after).
Proof.
  split; [reflexivity|].
  apply (tableMatch_names_a_word _ "invoices"). reflexivity.
Defined.

End TableOfTheError.

(* ===================================================================== *)
(** ** Comments and white space are cleaned away                          *)
(* ===================================================================== *)

Section Cleaning.
Import Text Comments.

Let notLT := fun c => negb (is_line_terminator c).
Let L := replace_from line_comment 0.
Let B := replace_from block_comment 0.

Lemma span_rest p s : forall a b c u,
  span p s = (a, b) -> b = String c u -> p c = false.
Proof.
  induction s as [|d t IH]; intros a b c u; cbn.
  - intros [= <- <-]. discriminate.
  - destruct (p d) eqn:E.
    + destruct (span p t) as [a' b'] eqn:Es. intros [= <- <-].
      now apply (IH _ _ _ _ eq_refl).
    + intros [= <- <-] [= <- _]. exact E.
Qed.

Lemma replace_from_past m s rest :
  replace_from m (String.length s) (s ++ rest) = replace_from m 0 rest.
Proof.
  rewrite <- (Nat.add_0_r (String.length s)). apply replace_from_skip.
Qed.

Lemma nowhere_tail m c s : nowhere m (String c s) = true -> nowhere m s = true.
Proof. cbn [nowhere]. destruct (m (String c s)); [discriminate|auto]. Qed.

Lemma nowhere_suffix m a s : nowhere m (a ++ s) = true -> nowhere m s = true.
Proof.
  induction a as [|c a IH]; cbn [append]; [auto|].
  intros H. now apply IH, (nowhere_tail m c).
Qed.

Lemma line_terminator_space c : is_line_terminator c = true -> is_space c = true.
Proof. destruct c as [[] [] [] [] [] [] [] []]; lazy; congruence. Qed.

Lemma all_space_trim s : all is_space s = true -> trim s = EmptyString.
Proof.
  intros H. unfold trim.
  assert (trim_start s = EmptyString) as ->; [|reflexivity].
  induction s as [|c t IH]; cbn in *; [reflexivity|].
  apply andb_prop in H. destruct H as [-> H]. auto.
Qed.

(** *** The first replacement: line comments *)

Lemma line_comment_decided s :
  {r | s = "--" ++ r} + {line_comment s = None}.
Proof.
  unfold line_comment. destruct (strip_prefix "--" s) as [r|] eqn:E.
  - left. exists r. now apply strip_prefix_spec.
  - now right.
Qed.

Lemma line_comment_matches r : line_comment ("--" ++ r) <> None.
Proof.
  unfold line_comment. rewrite strip_prefix_app.
  destruct (span _ r). discriminate.
Qed.

Lemma line_comment_misses s : (forall r, s <> "--" ++ r) -> line_comment s = None.
Proof.
  intros H. destruct (line_comment_decided s) as [[r ->]|E]; [|exact E].
  now destruct (H r).
Qed.

(** What follows a line comment that was taken away: nothing, or a line
    terminator. *)
Lemma line_comment_taken r :
  exists body rest,
    r = body ++ rest /\ all notLT body = true /\
    (forall c u, rest = String c u -> is_line_terminator c = true) /\
    L ("--" ++ r) = L rest.
Proof.
  destruct (span notLT r) as [body rest] eqn:Es.
  exists body, rest.
  destruct (span_spec _ _ _ _ Es) as [Hr Hb].
  split; [exact Hr|]. split; [exact Hb|]. split.
  - intros c u Hc. pose proof (span_rest _ _ _ _ _ _ Es Hc) as H.
    unfold notLT in H. now apply negb_false_iff in H.
  - unfold L.
    assert (line_comment ("--" ++ r) = Some (EmptyString, 2 + String.length body)) as E.
    { unfold line_comment. rewrite strip_prefix_app. fold notLT. now rewrite Es. }
    cbn [append] in *. rewrite (replace_hit _ _ _ _ _ E). subst r.
    change (replace_from line_comment (pred (2 + String.length body)) _)
      with (replace_from line_comment (String.length ("-" ++ body))
              (("-" ++ body) ++ rest)).
    now rewrite replace_from_past.
Qed.

Lemma line_comment_kept s :
  line_comment s = None ->
  (forall r, L s = "-" ++ r -> exists r', s = "-" ++ r') /\
  (forall r, L s <> "--" ++ r).
Proof.
  induction s as [|c t IH]; intros Hs.
  - split; intros r; cbn; discriminate.
  - assert (L (String c t) = String c (L t)) as ->
        by (unfold L; now apply replace_keep).
    split.
    + intros r [= -> _]. now exists t.
    + intros r [= -> Hr].
      destruct (line_comment_decided t) as [[r' ->]|Ht].
      * now apply (line_comment_matches ("-" ++ r')) in Hs.
      * destruct (proj1 (IH Ht) r Hr) as [r' ->].
        now apply (line_comment_matches r') in Hs.
Qed.

Lemma line_comments_removed n :
  forall s, String.length s <= n -> nowhere line_comment (L s) = true.
Proof.
  induction n as [|n IH]; intros s Hn.
  - destruct s; [reflexivity|cbn in Hn; lia].
  - destruct (line_comment_decided s) as [[r ->]|E].
    + destruct (line_comment_taken r) as (body & rest & -> & _ & _ & ->).
      apply IH. cbn [append String.length] in Hn.
      rewrite append_length in Hn. lia.
    + destruct s as [|c t]; [reflexivity|].
      assert (L (String c t) = String c (L t)) as Hk
          by (unfold L; now apply replace_keep).
      rewrite Hk. cbn [nowhere].
      assert (line_comment (String c (L t)) = None) as ->.
      { apply line_comment_misses. intros r. rewrite <- Hk.
        apply (line_comment_kept _ E). }
      apply IH. cbn in Hn. lia.
Qed.

(** The scanner inside a line comment. *)
Lemma scan_line body rest :
  all notLT body = true -> scan Line (body ++ rest) = scan Line rest.
Proof.
  induction body as [|c body IH]; cbn [append all]; [reflexivity|].
  intros [Hc Hb]%andb_prop. cbn [scan step].
  unfold notLT in Hc. apply negb_true_iff in Hc. rewrite Hc. auto.
Qed.

(** The first replacement keeps a tidy text tidy. *)
Lemma line_pass_tidy n :
  forall s q, String.length s <= n -> q <> Dash -> q <> Line ->
              scan q s = true -> scan q (L s) = true.
Proof.
  induction n as [|n IH]; intros s q Hn Hd Hl Hs.
  - destruct s; [exact Hs|cbn in Hn; lia].
  - destruct s as [|c t]; [exact Hs|].
    cbn in Hn. cbn [scan] in Hs.
    destruct (step q c) as [q'|] eqn:Eq; [|discriminate].
    destruct (Ascii.eqb_spec c "-") as [->|Hc].
    + (* a dash *)
      destruct q; cbn in Eq; try congruence; injection Eq as <-.
      * (* the start of a line comment *)
        destruct t as [|d t]; [discriminate|]. cbn [scan step] in Hs.
        destruct (Ascii.eqb_spec d "-") as [->|]; [|discriminate].
        destruct (line_comment_taken t) as (body & rest & -> & Hb & Hr & E).
        change (L ("--" ++ body ++ rest) = L rest) in E. 
        change (String "-" (String "-" (body ++ rest))) with ("--" ++ body ++ rest).
        rewrite E. rewrite (scan_line _ _ Hb) in Hs.
        destruct rest as [|e rest]; [reflexivity|].
        pose proof (Hr e rest eq_refl) as He.
        cbn [scan step] in Hs. rewrite He in Hs.
        assert (L (String e rest) = String e (L rest)) as ->.
        { unfold L. apply replace_keep. apply line_comment_misses.
          intros r [= -> _]. discriminate He. }
        cbn [scan step]. rewrite (line_terminator_space _ He).
        apply IH; [|discriminate|discriminate|exact Hs].
        cbn [String.length] in Hn. rewrite !append_length in Hn.
        cbn [String.length] in Hn. lia.
      * (* inside a block comment: no second dash follows *)
        assert (L (String "-" t) = String "-" (L t)) as ->.
        { unfold L. apply replace_keep. apply line_comment_misses.
          intros r [= ->]. cbn in Hs. discriminate. }
        cbn [scan step]. cbn. apply IH; [lia|discriminate|discriminate|exact Hs].
      * assert (L (String "-" t) = String "-" (L t)) as ->.
        { unfold L. apply replace_keep. apply line_comment_misses.
          intros r [= ->]. cbn in Hs. discriminate. }
        cbn [scan step]. cbn. apply IH; [lia|discriminate|discriminate|exact Hs].
    + assert (L (String c t) = String c (L t)) as ->.
      { unfold L. apply replace_keep. apply line_comment_misses.
        intros r [= -> _]. now apply Hc. }
      cbn [scan]. rewrite Eq.
      apply IH; [lia| | |exact Hs].
      * destruct q; cbn in Eq; intros ->;
          repeat match type of Eq with
            | (if ?b then _ else _) = _ => destruct b eqn:?
            end; try discriminate.
        apply Ascii.eqb_eq in Heqb0. contradiction.
      * destruct q; cbn in Eq; intros ->;
          repeat match type of Eq with
            | (if ?b then _ else _) = _ => destruct b eqn:?
            end; try discriminate; congruence.
Qed.

(** *** The second replacement: block comments *)

(** The scanner inside a block comment finds the closing mark the
    pattern finds. *)
Lemma until_close_next c t :
  strip_prefix "*/" (String c t) = None ->
  until_close (String c t) = option_map S (until_close t).
Proof. cbn [until_close]. now intros ->. Qed.

Lemma close_not_here c t : c <> "*"%char -> strip_prefix "*/" (String c t) = None.
Proof.
  intros H. cbn [strip_prefix].
  destruct (Ascii.eqb_spec "*" c) as [<-|_]; [contradiction|reflexivity].
Qed.

Lemma close_not_yet c t :
  c <> "/"%char -> strip_prefix "*/" (String "*" (String c t)) = None.
Proof.
  intros H. cbn [strip_prefix]. rewrite Ascii.eqb_refl.
  destruct (Ascii.eqb_spec "/" c) as [<-|_]; [contradiction|reflexivity].
Qed.

Lemma block_scan u :
  (scan Block u = true \/ scan BlockDash u = true ->
   exists pre rest,
     u = pre ++ "*/" ++ rest /\ until_close u = Some (String.length pre) /\
     scan Plain rest = true) /\
  (scan BlockStar u = true ->
   exists pre rest,
     "*" ++ u = pre ++ "*/" ++ rest /\
     until_close ("*" ++ u) = Some (String.length pre) /\
     scan Plain rest = true).
Proof.
  induction u as [|c t [IHb IHs]].
  - split; [intros [H|H]; discriminate|discriminate].
  - split.
    + intros H.
      destruct (Ascii.eqb_spec c "*") as [->|Hc].
      * assert (scan BlockStar t = true) as Hs by (destruct H as [H|H]; exact H).
        exact (IHs Hs).
      * assert (scan Block t = true \/ scan BlockDash t = true) as Ht.
        { destruct H as [H|H]; cbn [scan step] in H;
            destruct (Ascii.eqb_spec c "*"); try contradiction;
            destruct (Ascii.eqb c "-"); try discriminate; auto. }
        destruct (IHb Ht) as (pre & rest & -> & Hu & Hr).
        exists (String c pre), rest. split; [reflexivity|]. split; [|exact Hr].
        rewrite until_close_next by now apply close_not_here.
        now rewrite Hu.
    + intros H. cbn [scan step] in H.
      destruct (Ascii.eqb_spec c "/") as [->|Hc].
      * exists EmptyString, t. auto.
      * destruct (Ascii.eqb_spec c "*") as [->|Hc'].
        -- destruct (IHs H) as (pre & rest & E & Hu & Hr).
           exists (String "*" pre), rest.
           split; [cbn [append] in *; now rewrite E|]. split; [|exact Hr].
           cbn [append] in *.
           rewrite until_close_next by (apply close_not_yet; discriminate).
           now rewrite Hu.
        -- assert (scan Block t = true \/ scan BlockDash t = true) as Ht
               by (destruct (Ascii.eqb c "-"); auto).
           destruct (IHb Ht) as (pre & rest & -> & Hu & Hr).
           exists (String "*" (String c pre)), rest.
           split; [reflexivity|]. split; [|exact Hr].
           cbn [append] in *.
           rewrite until_close_next by now apply close_not_yet.
           rewrite until_close_next by now apply close_not_here.
           now rewrite Hu.
Qed.

Lemma block_pass_blank n :
  forall x, String.length x <= n -> scan Plain x = true ->
            nowhere line_comment x = true -> all is_space (B x) = true.
Proof.
  induction n as [|n IH]; intros x Hn Hs Hx.
  - destruct x; [reflexivity|cbn in Hn; lia].
  - destruct x as [|c t]; [reflexivity|].
    cbn [String.length] in Hn. cbn [scan step] in Hs.
    destruct (is_space c) eqn:Ec.
    + assert (B (String c t) = String c (B t)) as ->.
      { unfold B. apply replace_keep. unfold block_comment. cbn [strip_prefix].
        now rewrite (proj2 (space_not_dash c Ec)). }
      cbn [all]. rewrite Ec. apply IH; [lia|exact Hs|].
      now apply nowhere_tail in Hx.
    + destruct (Ascii.eqb_spec c "-") as [->|_].
      * destruct t as [|d t]; [discriminate|]. cbn [scan step] in Hs.
        destruct (Ascii.eqb_spec d "-") as [->|]; [|discriminate].
        apply (nowhere_inside _ EmptyString) in Hx.
        now apply (line_comment_matches t) in Hx.
      * destruct (Ascii.eqb_spec c "/") as [->|_]; [|discriminate].
        destruct t as [|d u]; [discriminate|]. cbn [scan step] in Hs.
        destruct (Ascii.eqb_spec d "*") as [->|]; [|discriminate].
        destruct (proj1 (block_scan u) (or_introl Hs))
          as (pre & rest & -> & Hu & Hr).
        assert (block_comment ("/*" ++ pre ++ "*/" ++ rest)
                = Some (EmptyString, 2 + String.length pre + 2)) as E.
        { unfold block_comment. rewrite strip_prefix_app. now rewrite Hu. }
        unfold B. cbn [append] in *. rewrite (replace_hit _ _ _ _ _ E).
        assert (pred (2 + String.length pre + 2)
                = String.length ("*" ++ pre ++ "*/")) as ->.
        { rewrite !append_length. cbn. lia. }
        change (String "*" (pre ++ String "*" (String "/" rest)))
          with ("*" ++ pre ++ "*/" ++ rest).
        rewrite <- !append_assoc, (append_assoc "*" pre "*/").
        rewrite replace_from_past. cbn [append].
        apply IH; [|exact Hr|].
        -- cbn [String.length] in Hn. rewrite append_length in Hn.
           cbn [String.length] in Hn. lia.
        -- apply (nowhere_suffix _ ("/*" ++ pre ++ "*/")).
           now rewrite !append_assoc.
Qed.

(** A tidy text is cleaned to nothing. *)
Lemma tidy_cleaned sql : tidy sql = true -> cleanSQL sql = EmptyString.
Proof.
  intros H. unfold cleanSQL, replace_all. apply all_space_trim.
  apply (block_pass_blank _ _ (le_n _)).
  - apply (line_pass_tidy _ _ _ (le_n _)); [discriminate|discriminate|exact H].
  - apply (line_comments_removed _ _ (le_n _)).
Qed.

End Cleaning.

(** X6.  An SQL text made of white space, line comments and block
    comments without two dashes in a row is answered by the executor tool
    with [success: false] and the error [Empty SQL query after cleaning],
    and no statement is given to the database. *)
Theorem comments_are_refused_without_a_query :
  forall w sql dbPath,
    Comments.tidy sql = true ->
    Executor.executeSQL w sql dbPath
    = (Resolves (Executor.failure "Empty SQL query after cleaning" None), []).
Proof.
  intros w sql dbPath H. unfold Executor.executeSQL.
  now rewrite (tidy_cleaned sql H).
Qed.

Lemma comments_are_refused_without_a_query_witness :
  let sql := "-- totals /* of all */" ++ String (ascii_of_N 10) EmptyString
             ++ "  /* per customer - and country */ -- end" in
  Comments.tidy sql = true /\
  forall w dbPath,
    Executor.executeSQL w sql dbPath
    = (Resolves (Executor.failure "Empty SQL query after cleaning" None), []).
Proof.
  split; [reflexivity|].
  intros w dbPath. apply comments_are_refused_without_a_query. reflexivity.
Defined.

(* ===================================================================== *)
(** ** The database of the server                                         *)
(* ===================================================================== *)

Section ServerDatabase.
Import Text Database.

Let plain := fun c => negb (Ascii.eqb c "\").

Lemma normalizedPath_cons c p :
  normalizedPath (String c p)
  = String (if Ascii.eqb c "\" then "/"%char else c) (normalizedPath p).
Proof.
  unfold normalizedPath, replace_all. cbn [replace_from backslash].
  destruct (Ascii.eqb c "\"); reflexivity.
Qed.

(** X7.  The path given to [ATTACH] has every backslash of [DB_PATH]
    turned into a slash and is otherwise the same: same length, no
    backslash left, a path without backslashes unchanged, and a second
    pass changes nothing. *)
Theorem normalizedPath_has_no_backslash :
  forall path,
    String.length (normalizedPath path) = String.length path /\
    all (fun c => negb (Ascii.eqb c "\")) (normalizedPath path) = true /\
    (all (fun c => negb (Ascii.eqb c "\")) path = true ->
     normalizedPath path = path) /\
    normalizedPath (normalizedPath path) = normalizedPath path.
Proof.
  induction path as [|c p (Hl & Ha & Hp & Hi)].
  - repeat split.
  - rewrite normalizedPath_cons.
    destruct (Ascii.eqb c "\") eqn:E.
    + repeat split.
      * cbn. now rewrite Hl.
      * cbn [all]. now rewrite Ha.
      * cbn [all]. rewrite E. discriminate.
      * rewrite normalizedPath_cons. cbn. now rewrite Hi.
    + repeat split.
      * cbn. now rewrite Hl.
      * cbn [all]. now rewrite E, Ha.
      * cbn [all]. rewrite E. cbn. intros H. now rewrite (Hp H).
      * rewrite normalizedPath_cons, E. now rewrite Hi.
Qed.

Variable w : World.

Lemma Single_initial : Single initial.
Proof.
  repeat split; cbn; auto; try discriminate. intros ? ? [].
Qed.

Lemma Single_getDB st :
  Single st ->
  exists st', getDB st = (Return 0, st') /\ Single st' /\
              dbInstance st' = Some 0 /\
              statements st' = statements st /\
              dbInitialized st' = dbInitialized st.
Proof.
  intros H. pose proof H as (Ho & Hn & Hs & Hl). unfold getDB.
  destruct (dbInstance st) as [db|] eqn:E.
  - destruct (Hs db eq_refl) as [-> H1].
    exists st. split; [reflexivity|]. split; [exact H|]. auto.
  - destruct (Hn eq_refl) as (H0 & Hst & Hi). rewrite H0.
    eexists. split; [reflexivity|]. split; [|cbn; auto].
    unfold Single; cbn. split; [lia|]. split; [discriminate|].
    split; [intros db [= <-]; auto|]. rewrite Hst. intros ? ? [].
Qed.

Lemma Single_db_all sql st :
  Single st -> dbInstance st = Some 0 -> Single (snd (db_all w 0 sql st)).
Proof.
  intros (Ho & Hn & Hs & Hl) Hd. unfold Single, db_all; cbn.
  split; [exact Ho|]. split; [intros E; congruence|]. split; [exact Hs|].
  intros db q Hin. apply in_app_or in Hin.
  destruct Hin as [Hin|[[= <- _]|[]]]; [now apply (Hl db q)|reflexivity].
Qed.

Lemma Single_call c st : Single st -> Single (snd (call w c st)).
Proof.
  intros H. destruct c as [| |sql]; cbn [call].
  - unfold bind, ret. destruct (Single_getDB st H) as (st' & -> & H' & _).
    exact H'.
  - unfold initDB. destruct (dbInitialized st); [exact H|].
    unfold bind.
    destruct (Single_getDB st H) as (st' & -> & H' & Hd & _).
    pose proof (Single_db_all install st' H' Hd) as H1.
    assert (dbInstance (snd (db_all w 0 install st')) = Some 0) as Hd1 by exact Hd.
    destruct (db_all w 0 install st') as [[rows|m| |] st1];
      cbn [snd] in *; try exact H1.
    pose proof (Single_db_all (attach (normalizedPath (DB_PATH w))) st1 H1 Hd1) as H2.
    assert (dbInstance (snd (db_all w 0 (attach (normalizedPath (DB_PATH w))) st1))
            = Some 0) as Hd2 by exact Hd1.
    destruct (db_all w 0 _ st1) as [[rows'|m| |] st2];
      cbn [snd] in *; try exact H2.
    unfold set_dbInitialized, Single; cbn. destruct H2 as (Ho & Hn & Hs & Hl).
    split; [exact Ho|]. split; [intros E; congruence|]. split; [exact Hs|exact Hl].
  - unfold executeSQL, bind, ret.
    destruct (Single_getDB st H) as (st' & -> & H' & Hd & _).
    pose proof (Single_db_all sql st' H' Hd) as H1.
    destruct (db_all w 0 sql st') as [[rows|m| |] st1]; exact H1.
Qed.

Lemma Single_calls cs : forall st, Single st -> Single (calls w cs st).
Proof.
  induction cs as [|c cs IH]; intros st H; cbn; [exact H|].
  apply IH. now apply Single_call.
Qed.

Lemma calls_app cs1 cs2 st : calls w (cs1 ++ cs2) st = calls w cs2 (calls w cs1 st).
Proof. revert st. induction cs1 as [|c cs1 IH]; intros st; cbn; auto. Qed.

(** Once initialised, the module gives the engine the queries of
    [executeSQL] and nothing else. *)
Lemma initialised_calls cs :
  forall st, Single st -> dbInitialized st = true ->
    dbInitialized (calls w cs st) = true /\
    statements (calls w cs st)
    = (statements st ++ map (pair 0) (queries cs))%list.
Proof.
  induction cs as [|c cs IH]; intros st H Hi; cbn [calls queries flat_map map].
  - now rewrite app_nil_r.
  - assert (dbInstance st = Some 0) as Hd.
    { destruct H as (_ & Hn & Hs & _).
      destruct (dbInstance st) as [db|] eqn:E.
      - now destruct (Hs db eq_refl) as [-> _].
      - destruct (Hn eq_refl) as (_ & _ & Hf). congruence. }
    pose proof (Single_call c st H) as H1.
    assert (dbInitialized (snd (call w c st)) = true /\
            statements (snd (call w c st))
            = (statements st
               ++ map (pair 0) (match c with CallExecuteSQL sql => [sql] | _ => [] end))%list)
      as [Hi1 Hs1].
    { destruct c as [| |sql]; cbn [call].
      - unfold bind, ret, getDB. rewrite Hd. cbn. now rewrite app_nil_r.
      - unfold initDB. rewrite Hi. cbn. now rewrite app_nil_r.
      - unfold executeSQL, bind, ret, getDB, db_all. rewrite Hd. cbn.
        destruct (await _); cbn; auto. }
    destruct (IH _ H1 Hi1) as [Hi2 Hs2]. split; [exact Hi2|].
    rewrite Hs2, Hs1. fold (queries cs). now rewrite map_app, app_assoc.
Qed.

End ServerDatabase.

(** X8.  Whatever is called on the database module of the server, and in
    whatever order, one in-memory database is constructed at most, and
    every statement is given to that one. *)
Theorem one_database_is_opened :
  forall w cs,
    Database.opened (Database.calls w cs Database.initial) <= 1 /\
    forall db sql,
      In (db, sql) (Database.statements (Database.calls w cs Database.initial)) ->
      db = 0.
Proof.
  intros w cs.
  destruct (Single_calls w cs _ Single_initial) as (Ho & _ & _ & Hl).
  split; [exact Ho|exact Hl].
Qed.

(** X9.  Once [initDB] has succeeded, the extension is never installed and
    the file never attached again: the statements given to the engine
    afterwards are the queries of [executeSQL], in order. *)
Theorem database_is_attached_once :
  forall w before after,
    Database.dbInitialized (Database.calls w before Database.initial) = true ->
    Database.statements (Database.calls w (before ++ after) Database.initial)
    = (Database.statements (Database.calls w before Database.initial)
       ++ map (pair 0) (Database.queries after))%list.
Proof.
  intros w before after H. rewrite calls_app.
  apply initialised_calls; [|exact H].
  apply Single_calls, Single_initial.
Qed.

Lemma database_is_attached_once_witness :
  let w := {| Database.DB_PATH := "C:\demo\data\chinook.db";
              Database.all_answer := fun _ _ => Resolves [] |} in
  let before := [Database.CallInitDB] in
  let after := [Database.CallExecuteSQL "SELECT 1"; Database.CallInitDB;
                Database.CallGetDB; Database.CallExecuteSQL "SELECT 2"] in
  Database.dbInitialized (Database.calls w before Database.initial) = true /\
  Database.statements (Database.calls w (before ++ after) Database.initial)
  = (Database.statements (Database.calls w before Database.initial)
     ++ map (pair 0) (Database.queries after))%list.
Proof.
  split; [reflexivity|].
  apply database_is_attached_once. reflexivity.
Defined.

(* ===================================================================== *)
(** ** The schema tool                                                    *)
(* ===================================================================== *)

Section Columns.
Import SchemaTool.

Lemma columns_from_nth columns : forall i k col,
  nth_error (columns_from i columns) k = Some col ->
  exists row, nth_error columns k = Some row /\ col = column (i + k) row.
Proof.
  induction columns as [|row rest IH]; intros i k col; cbn.
  - destruct k; discriminate.
  - destruct k as [|k]; cbn.
    + intros [= <-]. exists row. now rewrite Nat.add_0_r.
    + intros H. destruct (IH _ _ _ H) as (r & Hr & ->).
      exists r. split; [exact Hr|]. f_equal. lia.
Qed.

Lemma columns_from_names columns : forall i,
  map name (columns_from i columns) = map column_name columns.
Proof.
  induction columns as [|row rest IH]; intros i; cbn; [reflexivity|].
  now rewrite IH.
Qed.

(** X10.  The columns the schema tool makes of the rows of [DESCRIBE]
    keep the names and the order of the rows, and the heuristic for
    primary keys marks the first column at most: a key in another
    position, or a second column of a composite key, is never marked. *)
Theorem describe_marks_the_first_column_only :
  forall columns,
    map name (describe columns) = map column_name columns /\
    forall i col,
      nth_error (describe columns) i = Some col ->
      primary_key col = true -> i = 0.
Proof.
  intros columns. split; [apply columns_from_names|].
  intros i col H Hp.
  destruct (columns_from_nth _ _ _ _ H) as (row & _ & ->).
  cbn in Hp. apply andb_prop in Hp. destruct Hp as [_ Hp].
  now apply Nat.eqb_eq in Hp.
Qed.

Lemma fold_left_lines {A} (f : A -> string) l : forall output,
  exists text,
    fold_left (fun output x => output ++ f x) l output = output ++ text /\
    forall x, In x l -> exists b c, text = b ++ f x ++ c.
Proof.
  induction l as [|y l IH]; intros output; cbn.
  - exists EmptyString. split; [now rewrite append_empty|intros ? []].
  - destruct (IH (output ++ f y)) as (text & -> & Hin).
    exists (f y ++ text). split; [now rewrite append_assoc|].
    intros x [<-|Hx].
    + now exists EmptyString, text.
    + destruct (Hin x Hx) as (b & c & ->).
      exists (f y ++ b), c. now rewrite append_assoc.
Qed.

Lemma addTable_text output table :
  exists text,
    addTable output table = output ++ text /\
    forall col, In col (snd table) ->
      exists b c,
        text = ("## Table: " ++ fst table ++ nl) ++ b ++ columnLine col ++ c.
Proof.
  unfold addTable.
  destruct (fold_left_lines columnLine (snd table)
              ((output ++ "## Table: " ++ fst table ++ nl) ++ "Columns:" ++ nl))
    as (text & -> & Hin).
  exists (("## Table: " ++ fst table ++ nl) ++ ("Columns:" ++ nl) ++ text ++ nl).
  split; [now rewrite !append_assoc|].
  intros col Hc. destruct (Hin col Hc) as (b & c & ->).
  exists (("Columns:" ++ nl) ++ b), (c ++ nl). now rewrite !append_assoc.
Qed.

Lemma fold_left_tables l : forall output,
  exists text,
    fold_left addTable l output = output ++ text /\
    forall table col, In table l -> In col (snd table) ->
      exists a b c,
        text = a ++ ("## Table: " ++ fst table ++ nl) ++ b ++ columnLine col ++ c.
Proof.
  induction l as [|t l IH]; intros output; cbn [fold_left].
  - exists EmptyString. split; [now rewrite append_empty|intros ? ? []].
  - destruct (addTable_text output t) as (x & -> & Hx).
    destruct (IH (output ++ x)) as (text & -> & Hin).
    exists (x ++ text). split; [now rewrite append_assoc|].
    intros table col [<-|Ht] Hc.
    + destruct (Hx col Hc) as (b & c & ->).
      exists EmptyString, b, (c ++ text). cbn [append]. now rewrite !append_assoc.
    + destruct (Hin table col Ht Hc) as (a & b & c & ->).
      exists (x ++ a), b, c. now rewrite !append_assoc.
Qed.

(** X11.  The text of the schema made for the prompt starts with its
    title and leaves nothing out: every column of every table has its
    line, after the heading of its table. *)
Theorem formatSchemaForPrompt_lists_every_column :
  forall schema,
    exists text,
      formatSchemaForPrompt schema = "# Database Schema" ++ nl ++ nl ++ text /\
      forall table col,
        In table (tables schema) -> In col (snd table) ->
        exists a b c,
          text = a ++ ("## Table: " ++ fst table ++ nl) ++ b
                   ++ columnLine col ++ c.
Proof.
  intros schema. unfold formatSchemaForPrompt.
  destruct (fold_left_tables (tables schema) ("# Database Schema" ++ nl ++ nl))
    as (text & -> & Hin).
  destruct (0 <? List.length (foreign_keys schema)).
  - destruct (fold_left_lines foreignKeyLine (foreign_keys schema)
                ((("# Database Schema" ++ nl ++ nl) ++ text)
                   ++ "## Foreign Key Relationships" ++ nl))
      as (fks & -> & _).
    exists (text ++ ("## Foreign Key Relationships" ++ nl) ++ fks).
    split; [now rewrite !append_assoc|].
    intros table col Ht Hc. destruct (Hin table col Ht Hc) as (a & b & c & ->).
    exists a, b, (c ++ ("## Foreign Key Relationships" ++ nl) ++ fks).
    now rewrite !append_assoc.
  - exists text. split; [now rewrite !append_assoc|exact Hin].
Qed.

End Columns.

(* ===================================================================== *)
(** ** The rows shown on the command line                                 *)
(* ===================================================================== *)

Section Shown.
Import Display.

Lemma convert_not_bigint value : is_bigint (Server.convert value) = false.
Proof. destruct value; reflexivity. Qed.

(** X12.  The rows the command line prints after a success are five at
    most, and none of their values is a bigint, so that
    [JSON.stringify] does not throw on them. *)
Theorem resultsToShow_is_short_and_printable :
  forall result shown,
    resultsToShow result = Some shown ->
    List.length shown <= 5 /\
    forall row key value,
      In row shown -> In (key, value) row -> is_bigint value = false.
Proof.
  intros [rows|] shown; unfold resultsToShow; cbn [option_map]; [|discriminate].
  intros H.
  assert (shown = Server.cleanResults (firstn 5 rows)) as -> by congruence.
  clear H. split.
  - unfold Server.cleanResults. rewrite length_map. apply firstn_le_length.
  - intros row key value Hr Hv. unfold Server.cleanResults in Hr.
    apply in_map_iff in Hr. destruct Hr as (row0 & <- & _).
    apply in_map_iff in Hv. destruct Hv as ([k v] & [= <- <-] & _).
    apply convert_not_bigint.
Qed.

Lemma resultsToShow_is_short_and_printable_witness :
  let rows := map (fun n => [("InvoiceId", VBigInt (Z.of_nat n));
                             ("Total", VNumber "13.86")]) (seq 1 7) in
  resultsToShow (Some rows)
  = Some (Server.cleanResults (firstn 5 rows)) /\
  (List.length (Server.cleanResults (firstn 5 rows)) <= 5 /\
   forall row key value,
     In row (Server.cleanResults (firstn 5 rows)) ->
     In (key, value) row -> is_bigint value = false).
Proof.
  intros rows. split; [reflexivity|].
  apply (resultsToShow_is_short_and_printable (Some rows)
           (Server.cleanResults (firstn 5 rows))).
  reflexivity.
Defined.

End Shown.

(* ===================================================================== *)
(** ** The page: reading the event stream                                 *)
(* ===================================================================== *)

Section Stream.
Import Text Client.

Lemma push_filled c pieces : push c pieces <> [].
Proof. destruct pieces; discriminate. Qed.

Lemma split_filled s : split s <> [].
Proof.
  destruct s as [|c [|d t]]; cbn [split]; [discriminate|apply push_filled|].
  destruct (is_nl c && is_nl d); [discriminate|apply push_filled].
Qed.

Lemma split_two c d t :
  split (String c (String d t))
  = if is_nl c && is_nl d then EmptyString :: split t
    else push c (split (String d t)).
Proof. reflexivity. Qed.

Lemma split_cons c t :
  (forall d t', t = String d t' -> is_nl c && is_nl d = false) ->
  split (String c t) = push c (split t).
Proof.
  intros H. destruct t as [|d t']; [reflexivity|].
  cbn [split]. now rewrite (H d t' eq_refl).
Qed.

Lemma removelast_cons {A} (x : A) l : l <> [] -> removelast (x :: l) = x :: removelast l.
Proof. destruct l; [contradiction|reflexivity]. Qed.

Lemma last_cons {A} (x d : A) l : l <> [] -> last (x :: l) d = last l d.
Proof. destruct l; [contradiction|reflexivity]. Qed.

Lemma last_append {A} (l l' : list A) d :
  l' <> [] -> last (l ++ l') d = last l' d.
Proof.
  intros H. induction l as [|x l IH]; [reflexivity|].
  cbn [app]. rewrite last_cons; [exact IH|].
  destruct l; [exact H|discriminate].
Qed.

Lemma concat_cons sep x l :
  l <> [] -> String.concat sep (x :: l) = x ++ sep ++ String.concat sep l.
Proof. destruct l; [contradiction|reflexivity]. Qed.

Lemma concat_empty_cons x l :
  String.concat EmptyString (x :: l) = x ++ String.concat EmptyString l.
Proof. destruct l; cbn; [now rewrite append_empty|reflexivity]. Qed.

Lemma concat_push sep c l :
  l <> [] -> String.concat sep (push c l) = String c (String.concat sep l).
Proof.
  destruct l as [|p [|q l]]; [contradiction|reflexivity|reflexivity].
Qed.

(** The pieces of a text put together again give the text. *)
Lemma split_joined n :
  forall s, String.length s <= n -> String.concat (nl ++ nl) (split s) = s.
Proof.
  induction n as [|n IH]; intros s Hn.
  - destruct s; [reflexivity|cbn in Hn; lia].
  - destruct s as [|c [|d t]]; [reflexivity|reflexivity|].
    cbn [String.length] in Hn. rewrite split_two.
    destruct (is_nl c && is_nl d) eqn:E.
    + apply andb_prop in E. destruct E as [Hc Hd].
      apply Ascii.eqb_eq in Hc, Hd. subst c d.
      rewrite concat_cons by apply split_filled.
      rewrite (IH t) by lia. reflexivity.
    + rewrite concat_push by apply split_filled.
      rewrite (IH (String d t)) by (cbn; lia). reflexivity.
Qed.

Lemma split_single s p : split s = [p] -> p = s.
Proof.
  intros H. rewrite <- (split_joined _ s (le_n _)), H. reflexivity.
Qed.

(** Splitting a text that goes on: the pieces that are complete stay,
    and the last one goes on. *)
Lemma split_app n :
  forall x y, String.length x <= n ->
    split (x ++ y)
    = (removelast (split x) ++ split (last (split x) EmptyString ++ y))%list.
Proof.
  induction n as [|n IH]; intros x y Hn.
  - destruct x; [reflexivity|cbn in Hn; lia].
  - destruct x as [|c [|d t]]; [reflexivity|reflexivity|].
    cbn [String.length] in Hn. cbn [append]. rewrite !split_two.
    destruct (is_nl c && is_nl d) eqn:E.
    + rewrite (IH t y) by lia.
      rewrite removelast_cons, last_cons by apply split_filled. reflexivity.
    + change (String d (t ++ y)) with (String d t ++ y).
      rewrite (IH (String d t) y) by (cbn; lia).
      pose proof (split_filled (String d t)) as Hf.
      destruct (split (String d t)) as [|p ps] eqn:Es; [contradiction|].
      destruct ps as [|q ps].
      * apply split_single in Es. subst p.
        cbn [push removelast last app append]. now rewrite split_two, E.
      * cbn [push]. rewrite !removelast_cons, !last_cons by discriminate.
        reflexivity.
Qed.

(** The last piece holds no separator. *)
Lemma split_last s :
  split (last (split s) EmptyString) = [last (split s) EmptyString].
Proof.
  pose proof (split_app _ s EmptyString (le_n _)) as H.
  rewrite !append_empty in H.
  rewrite (app_removelast_last EmptyString (split_filled s)) in H at 1.
  now apply app_inv_head in H.
Qed.

Variable dispatch : string -> option string.

Lemma deliver_app l1 : forall l2 handled,
  deliver dispatch (l1 ++ l2) handled
  = match deliver dispatch l1 handled with
    | (handled', None) => deliver dispatch l2 handled'
    | stopped => stopped
    end.
Proof.
  induction l1 as [|line l1 IH]; intros l2 handled; cbn; [reflexivity|].
  destruct (payload line) as [text|]; [|apply IH].
  destruct (dispatch text); [reflexivity|apply IH].
Qed.

(** Reading the chunks one by one is reading them at once. *)
Lemma read_at_once chunks : forall handled buffer,
  split buffer = [buffer] ->
  read dispatch chunks handled buffer
  = read dispatch [String.concat EmptyString chunks] handled buffer.
Proof.
  induction chunks as [|value rest IH]; intros handled buffer Hb.
  - cbn. now rewrite append_empty, Hb.
  - rewrite concat_empty_cons. cbn [read]. unfold pop.
    rewrite <- append_assoc, (split_app _ (buffer ++ value) _ (le_n _)).
    set (lines := removelast (split (buffer ++ value))).
    set (buffer' := last (split (buffer ++ value)) EmptyString).
    rewrite removelast_app, last_append by apply split_filled.
    rewrite deliver_app.
    destruct (deliver dispatch lines handled) as [handled' [message|]];
      [reflexivity|].
    rewrite (IH handled' buffer') by apply split_last.
    reflexivity.
Qed.

(** X13.  The page handles the same texts, in the same order, however
    the response is cut into chunks: reading the chunks one by one comes
    to the state that reading their concatenation at once comes to. *)
Theorem reading_does_not_depend_on_the_chunks :
  forall chunks,
    read dispatch chunks [] EmptyString
    = read dispatch [String.concat EmptyString chunks] [] EmptyString.
Proof. intros chunks. now apply read_at_once. Qed.

(** *** What the server writes is what the page handles *)

Let quiet := fun c => negb (is_nl c).

Lemma split_piece p rest :
  all quiet p = true -> split (p ++ nl ++ nl ++ rest) = p :: split rest.
Proof.
  induction p as [|c p IH]; [reflexivity|].
  cbn [all]. intros [Hc Hp]%andb_prop.
  unfold quiet in Hc. apply negb_true_iff in Hc.
  cbn [append]. rewrite split_cons.
  - change (p ++ String (ascii_of_N 10) (String (ascii_of_N 10) rest))
      with (p ++ nl ++ nl ++ rest).
    now rewrite (IH Hp).
  - intros d t' _. now rewrite Hc.
Qed.

Lemma split_frames texts :
  Forall (fun text => all quiet text = true) texts ->
  split (String.concat EmptyString (map frame texts))
  = (map (append "data: ") texts ++ [EmptyString])%list.
Proof.
  induction 1 as [|text texts Ht _ IH]; [reflexivity|].
  cbn [map]. rewrite concat_empty_cons.
  assert (frame text ++ String.concat EmptyString (map frame texts)
          = ("data: " ++ text) ++ nl ++ nl
              ++ String.concat EmptyString (map frame texts)) as ->
      by (unfold frame; now rewrite !append_assoc).
  rewrite split_piece, IH; [reflexivity|].
  cbn [append all]. now rewrite Ht.
Qed.

Lemma payload_framed text : payload ("data: " ++ text) = Some text.
Proof.
  unfold payload, startsWith. rewrite strip_prefix_app.
  destruct (trim_end_head "d" ("ata: " ++ text) eq_refl) as [x Hx].
  unfold trim. cbn [append trim_start].
  change (is_space "d") with false. cbv iota.
  cbn [append] in Hx. now rewrite Hx.
Qed.

Lemma deliver_frames texts : forall handled,
  match deliver dispatch (map (append "data: ") texts) handled with
  | (handled', None) => handle dispatch texts handled = Listening handled' EmptyString
  | (handled', Some message) => handle dispatch texts handled = Stopped handled' message
  end.
Proof.
  induction texts as [|text texts IH]; intros handled; cbn [map deliver handle];
    [reflexivity|].
  rewrite payload_framed.
  destruct (dispatch text); [reflexivity|apply IH].
Qed.

(** X14.  The frames the server writes, [data: <json>] and an empty
    line, come out of the reading loop of the page as the same texts in
    the same order, however the network cuts the stream, as long as no
    text holds a line feed ([JSON.stringify] writes none); the loop
    stops at the first text whose handling throws. *)
Theorem frames_are_read_back :
  forall texts chunks,
    Forall (fun text => all (fun c => negb (is_nl c)) text = true) texts ->
    String.concat EmptyString chunks = String.concat EmptyString (map frame texts) ->
    read dispatch chunks [] EmptyString = handle dispatch texts [].
Proof.
  intros texts chunks Ht Hc.
  rewrite read_at_once by reflexivity. rewrite Hc.
  cbn [read append]. unfold pop. rewrite (split_frames texts Ht).
  rewrite removelast_last, last_last.
  pose proof (deliver_frames texts []) as H.
  destruct (deliver dispatch _ []) as [handled' [message|]]; now rewrite H.
Qed.

End Stream.

Lemma frames_are_read_back_witness :
  let dispatch := fun text => if String.eqb text "{2}" then Some "boom" else None in
  let texts := ["{0}"; "{1}"; "{2}"; "{3}"] in
  let chunks := ["da"; "ta: {0}" ++ Client.nl; Client.nl ++ "data: {1}" ++ Client.nl
                 ++ Client.nl ++ "data: {2}"; Client.nl ++ Client.nl ++ "data: {3}"
                 ++ Client.nl ++ Client.nl] in
  Forall (fun text => Text.all (fun c => negb (Client.is_nl c)) text = true) texts /\
  String.concat EmptyString chunks
  = String.concat EmptyString (map Client.frame texts) /\
  Client.read dispatch chunks [] EmptyString = Client.Stopped ["{0}"; "{1}"] "boom" /\
  Client.read dispatch chunks [] EmptyString = Client.handle dispatch texts [].
Proof.
  intros dispatch texts chunks.
  assert (Forall (fun text => Text.all (fun c => negb (Client.is_nl c)) text = true)
            texts) as Ht by (repeat constructor).
  assert (String.concat EmptyString chunks
          = String.concat EmptyString (map Client.frame texts)) as Hc by reflexivity.
  split; [exact Ht|]. split; [exact Hc|]. split; [reflexivity|].
  exact (frames_are_read_back dispatch texts chunks Ht Hc).
Defined.

(* ===================================================================== *)
(** ** The response: [emit] and [safeEnd]                                 *)
(* ===================================================================== *)

Section Response.
Import Server.
Variable w : World.

Lemma emit_spec e st : emit w e st = (Return tt, emit_state w e st).
Proof.
  unfold emit, emit_state, try_catch, res_write, console, ret.
  destruct (responseEnded st); [reflexivity|].
  destruct (write_delivery w _); reflexivity.
Qed.

Lemma safeEnd_spec st : safeEnd w st = (Return tt, end_state st).
Proof.
  unfold safeEnd, end_state, try_catch, res_end, console, ret.
  destruct (responseEnded st); [reflexivity|].
  destruct (end_throws w); reflexivity.
Qed.

Lemma emit_state_db_log e st : db_log (emit_state w e st) = db_log st.
Proof. unfold Server.emit_state. destruct (responseEnded st); reflexivity. Qed.

Lemma emit_state_openai_calls e st :
  openai_calls (emit_state w e st) = openai_calls st.
Proof. unfold Server.emit_state. destruct (responseEnded st); reflexivity. Qed.

Lemma emit_state_responseEnded e st :
  responseEnded (emit_state w e st) = responseEnded st.
Proof. unfold Server.emit_state. destruct (responseEnded st) eqn:E; cbn; now rewrite ?E. Qed.

Lemma emit_state_wire e st :
  responseEnded st = false ->
  map fst (wire (emit_state w e st)) = (map fst (wire st) ++ [e])%list.
Proof.
  unfold Server.emit_state. intros ->. cbn. now rewrite map_app.
Qed.

Lemma delivered_push e d st :
  delivered (push_wire e d st)
  = (delivered st ++ match d with Sent => [e] | _ => [] end)%list.
Proof.
  unfold delivered, push_wire; cbn.
  rewrite filter_app, map_app. cbn. destruct d; reflexivity.
Qed.

End Response.

Lemma await_Return {A} (x : Answer A) (a : A) :
  await x = Return a -> x = Resolves a.
Proof. destruct x; cbn; congruence. Qed.

Create Rewrite HintDb state.
#[local] Hint Rewrite emit_state_db_log emit_state_openai_calls
  emit_state_responseEnded : state.

(** C9.  [emit] and [safeEnd] never throw, whatever the connection does.
    Once the response has ended (after [safeEnd], or after the [close]
    listener has fired) both leave the state as it is; a write that a
    closed connection swallows, or that throws, delivers nothing and is
    absorbed; a second [safeEnd] does nothing. *)
Theorem emit_and_end_tolerate_closed_transport :
  forall (w : Server.World) (e : Server.Event) (st : Server.State),
    fst (Server.emit w e st) = Return tt /\
    fst (Server.safeEnd w st) = Return tt /\
    (Server.responseEnded st = true ->
       Server.emit w e st = (Return tt, st) /\
       Server.safeEnd w st = (Return tt, st)) /\
    (Server.write_delivery w (List.length (Server.wire st)) <> Server.Sent ->
       Server.delivered (snd (Server.emit w e st)) = Server.delivered st /\
       Server.responseEnded (snd (Server.emit w e st)) = Server.responseEnded st) /\
    Server.safeEnd w (snd (Server.safeEnd w st))
      = (Return tt, snd (Server.safeEnd w st)) /\
    (Server.close_listener st = true ->
       Server.emit w e (Server.on_close st) = (Return tt, Server.on_close st) /\
       Server.safeEnd w (Server.on_close st) = (Return tt, Server.on_close st)).
Proof.
  intros w e st.
  rewrite !emit_spec, !safeEnd_spec. cbn [fst snd].
  split; [reflexivity|]. split; [reflexivity|].
  split; [|split; [|split]].
  - unfold Server.emit_state, Server.end_state. intros ->. split; reflexivity.
  - intros Hd. unfold Server.emit_state.
    destruct (Server.responseEnded st) eqn:E; [split; [reflexivity|now rewrite E]|].
    rewrite delivered_push. split; [|cbn; now rewrite E].
    destruct (Server.write_delivery w _); try contradiction;
      now rewrite app_nil_r.
  - f_equal. unfold Server.end_state.
    destruct (Server.responseEnded st) eqn:E; cbn; now rewrite ?E.
  - intros Hl. rewrite ?emit_spec, ?safeEnd_spec.
    unfold Server.emit_state, Server.end_state, Server.on_close. rewrite Hl. cbn.
    split; reflexivity.
Qed.

Lemma emit_and_end_tolerate_closed_transport_witness :
  let w := Scenario.disconnected in
  let ended := Server.set_responseEnded true Server.initial in
  let listening := Server.set_close_listener Server.initial in
(* the response has ended *)
(Server.responseEnded ended = true /\
 Server.emit w (Server.error "late") ended = (Return tt, ended) /\
 Server.safeEnd w ended = (Return tt, ended)) /\
(* the connection swallows the write *)
(Server.write_delivery w (List.length (Server.wire Server.initial))
 <> Server.Sent /\
 Server.delivered (snd (Server.emit w (Server.error "late") Server.initial))
 = Server.delivered Server.initial) /\
(* the close listener has fired *)
(Server.close_listener listening = true /\
 Server.emit w (Server.error "late") (Server.on_close listening)
 = (Return tt, Server.on_close listening)).
Proof.
  intros w ended listening.
  assert (Server.write_delivery w (List.length (Server.wire Server.initial))
          <> Server.Sent) as Hd by discriminate.
  destruct (emit_and_end_tolerate_closed_transport w (Server.error "late") ended)
    as (_ & _ & H1 & _).
  destruct (emit_and_end_tolerate_closed_transport w (Server.error "late")
              Server.initial) as (_ & _ & _ & H2 & _).
  destruct (emit_and_end_tolerate_closed_transport w (Server.error "late")
              listening) as (_ & _ & _ & _ & _ & H3).
  split; [|split].
  - split; [reflexivity|]. exact (H1 eq_refl).
  - split; [exact Hd|]. exact (proj1 (H2 Hd)).
  - split; [reflexivity|]. exact (proj1 (H3 eq_refl)).
Defined.

(* ===================================================================== *)
(** ** One iteration of the execute loop                                  *)
(* ===================================================================== *)

#[local] Arguments Server.emit : simpl never.
#[local] Arguments Server.safeEnd : simpl never.
#[local] Arguments Text.addSchemaPrefix : simpl never.
#[local] Arguments Text.stripFences : simpl never.
#[local] Arguments string_of_nat : simpl never.
#[local] Arguments Server.tableMatch : simpl never.
#[local] Arguments Server.cleanResults : simpl never.
#[local] Arguments Server.correctionOutput : simpl never.
#[local] Arguments append : simpl never.
#[local] Arguments Nat.ltb : simpl never.
#[local] Arguments Nat.leb : simpl never.

(** Case analysis on the innermost blocked [match] of the goal. *)
Ltac split_match :=
  match goal with
  | |- context [match ?x with _ => _ end] =>
      lazymatch x with
      | context [match _ with _ => _ end] => fail
      | _ => destruct x eqn:?
      end
  end.

Ltac exec w :=
  repeat first
    [ rewrite (emit_spec w)
    | rewrite (safeEnd_spec w)
    | progress cbn
    | split_match ].

Section Iteration.
Import Server.
Variable w : World.

Lemma iteration_step v st :
  match iteration w v st with
  | (Return v', st') => Spec.Step w v st v' st'
  | _ => True
  end.
Proof.
  unfold iteration, execute, recover, correctionPlanAgent, correctionSQLAgent,
    callOpenAI, parse, db_all, eval, bind, try_catch, lift, ret, console.
  exec w; auto.
  all: unfold Spec.Step; repeat (progress (cbn in *; autorewrite with state in * )).
  all: repeat match goal with
         | H : await _ = Return _ |- _ => apply await_Return in H
         | H : (_ <? _) = true |- _ => apply Nat.ltb_lt in H
         | H : (_ <? _) = false |- _ => apply Nat.ltb_ge in H
         end.
  all: first
         [ solve [left; repeat split; eexists; split; [eassumption|reflexivity]]
         | right; repeat split;
           first [ solve [left; split; [assumption|];
                          eexists; split; [eassumption|reflexivity]]
                 | solve [right; split; [assumption|reflexivity]] ] ].
Qed.
End Iteration.

(* ===================================================================== *)
(** ** The loop: exit, progress and termination                           *)
(* ===================================================================== *)

Section Loop.
Import Server.
Variable w : World.

Lemma loop_done fuel v st :
  success v = true -> loop w fuel v st = (Return v, st).
Proof.
  intros H. destruct fuel; cbn; rewrite H, andb_false_r; reflexivity.
Qed.

Lemma loop_exhausted_attempts fuel v st :
  maxAttempts <= attempt v -> loop w fuel v st = (Return v, st).
Proof.
  intros H. apply Nat.ltb_ge in H.
  destruct fuel; cbn [loop]; rewrite H; reflexivity.
Qed.

Lemma loop_unfold fuel v :
  loop w (S fuel) v =
  if (attempt v <? maxAttempts) && negb (success v)
  then bind (iteration w v) (loop w fuel)
  else ret v.
Proof. reflexivity. Qed.

Lemma iteration_fuelled v st : fst (iteration w v st) <> NoFuel.
Proof.
  unfold iteration, execute, recover, correctionPlanAgent, correctionSQLAgent,
    callOpenAI, parse, db_all, eval, bind, try_catch, lift, ret, console.
  exec w; try discriminate.
  all: repeat match goal with
         | H : await ?x = NoFuel |- _ => destruct x; discriminate H
         | H : thrown ?x = NoFuel |- _ => destruct x; discriminate H
         end.
Qed.

Lemma loop_fuelled fuel :
  forall v st, maxAttempts - attempt v <= fuel -> fst (loop w fuel v st) <> NoFuel.
Proof.
  induction fuel as [|fuel IH]; intros v st Hf.
  - rewrite loop_exhausted_attempts by (unfold maxAttempts in *; lia).
    discriminate.
  - rewrite loop_unfold.
    destruct ((attempt v <? maxAttempts) && negb (success v)) eqn:C;
      [|discriminate].
    apply andb_prop in C. destruct C as [Ha Hs]. apply Nat.ltb_lt in Ha.
    unfold bind.
    pose proof (iteration_step w v st) as Hstep.
    pose proof (iteration_fuelled v st) as Hfu.
    destruct (iteration w v st) as [[v' | m | |] st']; cbn [fst] in *;
      try discriminate; try congruence.
    destruct Hstep as [(Hs' & _) | (_ & _ & Ha' & _)].
    + rewrite loop_done by exact Hs'. discriminate.
    + apply IH. unfold maxAttempts in *. lia.
Qed.

End Loop.

Section CliLoop.
Import Cli.
Variable w : World.

Lemma cli_iteration_step v st :
  match iteration w v st with
  | (Return v', st') => Spec.CliStep w v st v' st'
  | (NoFuel, _) => False
  | _ => True
  end.
Proof.
  unfold iteration, executeSQL, correctionPlanAgent, correctionSQLAgent,
    structured, create, parse, eval, bind, lift, ret.
  repeat first [progress cbn | split_match]; auto.
  all: unfold Spec.CliStep; cbn in *.
  all: repeat match goal with
         | H : await _ = Return _ |- _ => apply await_Return in H
         | H : await ?x = NoFuel |- _ => destruct x; discriminate H
         | H : thrown ?x = NoFuel |- _ => destruct x; discriminate H
         | H : (_ <? _) = true |- _ => apply Nat.ltb_lt in H
         | H : (_ <? _) = false |- _ => apply Nat.ltb_ge in H
         end.
  all: first
         [ solve [left; repeat split; reflexivity]
         | right; repeat split;
           first [ solve [left; split; [assumption|];
                          eexists; split; [eassumption|reflexivity]]
                 | solve [right; split; [assumption|reflexivity]] ] ].
Qed.

Lemma cli_loop_done fuel v st :
  success v = true -> loop w fuel v st = (Return v, st).
Proof.
  intros H. destruct fuel; cbn; rewrite H, andb_false_r; reflexivity.
Qed.

Lemma cli_loop_fuelled fuel :
  forall v st,
    S MAX_CORRECTION_ATTEMPTS - attempt v <= fuel ->
    fst (loop w fuel v st) <> NoFuel.
Proof.
  induction fuel as [|fuel IH]; intros v st Hf; cbn [loop].
  - destruct (Nat.leb_spec (attempt v) MAX_CORRECTION_ATTEMPTS);
      [unfold MAX_CORRECTION_ATTEMPTS in *; lia|].
    cbn. discriminate.
  - destruct ((attempt v <=? MAX_CORRECTION_ATTEMPTS) && negb (success v))
      eqn:C; [|discriminate].
    apply andb_prop in C. destruct C as [Ha Hs]. apply Nat.leb_le in Ha.
    unfold bind.
    pose proof (cli_iteration_step v st) as Hstep.
    destruct (iteration w v st) as [[v' | m | |] st']; cbn [fst];
      try discriminate; try contradiction.
    destruct Hstep as [(Hs' & _) | (_ & Ha' & _)].
    + rewrite cli_loop_done by exact Hs'. discriminate.
    + apply IH. unfold MAX_CORRECTION_ATTEMPTS in *. lia.
Qed.

End CliLoop.

(** C8.  The loop variables hold one query; a correction cycle replaces it
    by the rewritten reply of the correction SQL agent and adds one to the
    attempt counter; once [success] is set the loop leaves the state alone
    (no further query, no further correction); and the loop ends within
    its budget of iterations.  This holds for the loop of the server and
    for the loop of the command-line pipeline. *)
Theorem loop_state_invariants :
  (forall (w : Server.World) (v : Server.Loop) (st : Server.State),
      (forall v' st',
          Server.iteration w v st = (Return v', st') ->
          Spec.Step w v st v' st' /\
          (Server.success v' = false -> Server.attempt v < Server.attempt v')) /\
      (forall fuel,
          Server.success v = true ->
          Server.loop w fuel v st = (Return v, st)) /\
      (forall fuel,
          Server.maxAttempts - Server.attempt v <= fuel ->
          fst (Server.loop w fuel v st) <> NoFuel)) /\
  (forall (w : Cli.World) (v : Cli.Loop) (st : Cli.State),
      (forall v' st',
          Cli.iteration w v st = (Return v', st') ->
          Spec.CliStep w v st v' st' /\
          (Cli.success v' = false -> Cli.attempt v < Cli.attempt v')) /\
      (forall fuel,
          Cli.success v = true ->
          Cli.loop w fuel v st = (Return v, st)) /\
      (forall fuel,
          S Cli.MAX_CORRECTION_ATTEMPTS - Cli.attempt v <= fuel ->
          fst (Cli.loop w fuel v st) <> NoFuel)).
Proof.
  split.
  - intros w v st. split; [|split].
    + intros v' st' H. pose proof (iteration_step w v st) as Hs.
      rewrite H in Hs. split; [exact Hs|].
      intros Hf. destruct Hs as [(Ht & _)|(_ & _ & Ha & _)];
        [congruence|lia].
    + intros fuel. apply loop_done.
    + intros fuel. apply loop_fuelled.
  - intros w v st. split; [|split].
    + intros v' st' H. pose proof (cli_iteration_step w v st) as Hs.
      rewrite H in Hs. split; [exact Hs|].
      intros Hf. destruct Hs as [(Ht & _)|(_ & Ha & _)];
        [congruence|lia].
    + intros fuel. apply cli_loop_done.
    + intros fuel. apply cli_loop_fuelled.
Qed.


Lemma loop_state_invariants_witness :
  let w := Scenario.second_try in
  let v := Server.entry Scenario.bad in
  let v1 := Server.set_attempt 1
              (Server.set_sqlWithSchema (Text.addSchemaPrefix Scenario.usa) v) in
  let st1 := snd (Server.iteration w v (Server.count_openai (Server.count_openai
               (Server.count_openai (Server.count_openai Server.initial))))) in
  let done := Server.succeeded [] v in
  let c := Scenario.cli_world [Scenario.fix_text; Scenario.usa]
             Scenario.strict_engine in
  let u := {| Cli.success := false; Cli.attempt := 0;
              Cli.generatedSQL := Scenario.bad |} in
  let u1 := {| Cli.success := false; Cli.attempt := 1;
               Cli.generatedSQL := Scenario.usa |} in
  let t1 := snd (Cli.iteration c u Cli.initial) in
(* the server: a failed attempt, corrected *)
(Server.iteration w v (Server.count_openai (Server.count_openai
   (Server.count_openai (Server.count_openai Server.initial))))
 = (Return v1, st1) /\
 Spec.Step w v (Server.count_openai (Server.count_openai
   (Server.count_openai (Server.count_openai Server.initial)))) v1 st1 /\
 Server.attempt v < Server.attempt v1) /\
(Server.success done = true /\
 Server.loop w 4 done Server.initial = (Return done, Server.initial)) /\
(Server.maxAttempts - Server.attempt v <= 4 /\
 fst (Server.loop w 4 v Server.initial) <> NoFuel) /\
(* the command line: a failed attempt, corrected *)
(Cli.iteration c u Cli.initial = (Return u1, t1) /\
 Spec.CliStep c u Cli.initial u1 t1 /\
 Cli.attempt u < Cli.attempt u1) /\
(S Cli.MAX_CORRECTION_ATTEMPTS - Cli.attempt u <= 5 /\
 fst (Cli.loop c 5 u Cli.initial) <> NoFuel).
Proof.
  intros w v v1 st1 done c u u1 t1.
  destruct loop_state_invariants as [Hserver Hcli].
  assert (Server.iteration w v (Server.count_openai (Server.count_openai
            (Server.count_openai (Server.count_openai Server.initial))))
          = (Return v1, st1)) as E1 by (vm_compute; reflexivity).
  assert (Cli.iteration c u Cli.initial = (Return u1, t1)) as E2
      by (vm_compute; reflexivity).
  assert (Server.maxAttempts - Server.attempt v <= 4) as Hf by (vm_compute; lia).
  assert (S Cli.MAX_CORRECTION_ATTEMPTS - Cli.attempt u <= 5) as Kf
      by (vm_compute; lia).
  destruct (Hserver w v (Server.count_openai (Server.count_openai
              (Server.count_openai (Server.count_openai Server.initial)))))
    as (H1 & _ & _).
  destruct (Hserver w v Server.initial) as (_ & _ & H3).
  destruct (Hserver w done Server.initial) as (_ & H2 & _).
  destruct (Hcli c u Cli.initial) as (K1 & _ & K3).
  split; [|split; [|split; [|split]]].
  - split; [exact E1|]. destruct (H1 v1 st1 E1) as [S1 S2].
    split; [exact S1|]. exact (S2 eq_refl).
  - split; [reflexivity|]. exact (H2 4 eq_refl).
  - split; [exact Hf|]. exact (H3 4 Hf).
  - split; [exact E2|]. destruct (K1 u1 t1 E2) as [S1 S2].
    split; [exact S1|]. exact (S2 eq_refl).
  - split; [exact Kf|]. exact (K3 5 Kf).
Defined.

(* ===================================================================== *)
(** ** Rules for the primitives of the server                             *)
(* ===================================================================== *)

Section ServerRules.
Import Server Hoare.
Variable w : World.
Implicit Types (P I : State -> Prop) (X : Abnormal -> State -> Prop).

Lemma hoare_emit P e (Q : unit -> State -> Prop) X :
  (forall st, P st -> Q tt (emit_state w e st)) -> hoare P (emit w e) Q X.
Proof. intros H st HP. rewrite emit_spec. auto. Qed.

Lemma hoare_safeEnd P (Q : unit -> State -> Prop) X :
  (forall st, P st -> Q tt (end_state st)) -> hoare P (safeEnd w) Q X.
Proof. intros H st HP. rewrite safeEnd_spec. auto. Qed.

Lemma keeps_emit I e :
  (forall st, I st -> I (emit_state w e st)) -> keeps I (emit w e).
Proof. intros H. apply hoare_emit. exact H. Qed.

Lemma keeps_safeEnd I :
  (forall st, I st -> I (end_state st)) -> keeps I (safeEnd w).
Proof. intros H. apply hoare_safeEnd. exact H. Qed.

Lemma keeps_callOpenAI I :
  (forall st, I st -> I (count_openai st)) -> keeps I (callOpenAI w).
Proof.
  intros H st HI. unfold callOpenAI.
  destruct (await _); auto.
Qed.

Lemma keeps_db_all I sql :
  (forall st, I st -> I (push_db sql st)) -> keeps I (db_all w sql).
Proof.
  intros H st HI. unfold db_all.
  destruct (await _); auto.
Qed.

Lemma keeps_console I : keeps I console.
Proof. apply keeps_ret. Qed.

Lemma keeps_parse I text : keeps I (parse w text).
Proof. apply keeps_lift. Qed.

(** The agents only count their calls of the model. *)
Section Agents.
Variable I : State -> Prop.
Hypothesis I_count : forall st, I st -> I (count_openai st).

Lemma keeps_schemaLinkingAgent : keeps I (schemaLinkingAgent w).
Proof.
  apply keeps_bind; [now apply keeps_callOpenAI|intros; apply keeps_parse].
Qed.

Lemma keeps_subproblemAgent x : keeps I (subproblemAgent w x).
Proof.
  apply keeps_bind; [apply keeps_eval|intros _].
  apply keeps_bind; [now apply keeps_callOpenAI|intros; apply keeps_parse].
Qed.

Lemma keeps_queryPlanAgent x : keeps I (queryPlanAgent w x).
Proof.
  apply keeps_bind; [apply keeps_eval|intros _].
  apply keeps_bind; [now apply keeps_callOpenAI|intros; apply keeps_parse].
Qed.

Lemma keeps_sqlGenerationAgent : keeps I (sqlGenerationAgent w).
Proof.
  apply keeps_bind; [now apply keeps_callOpenAI|intros; apply keeps_ret].
Qed.

Lemma keeps_correctionPlanAgent m : keeps I (correctionPlanAgent w m).
Proof.
  apply keeps_bind.
  - destruct (tableMatch m); [apply keeps_lift|apply keeps_ret].
  - intros _.
    apply keeps_bind; [now apply keeps_callOpenAI|intros; apply keeps_parse].
Qed.

Lemma keeps_correctionSQLAgent : keeps I (correctionSQLAgent w).
Proof.
  apply keeps_bind; [now apply keeps_callOpenAI|intros; apply keeps_ret].
Qed.
End Agents.

(** The first statement of the [catch] block is an [emit] of the
    [error] event. *)
Lemma fatal_emits m :
  fatal w m = bind (emit w (error m)) (fun _ => bind (safeEnd w) (fun _ => ret false)).
Proof. reflexivity. Qed.

End ServerRules.

(* ===================================================================== *)
(** ** Order of the events                                                *)
(* ===================================================================== *)

Section Order.
Import Server Spec Hoare.
Variable w : World.

Lemma starts_first_nil : starts_first [].
Proof. intros [|i] e a H; discriminate. Qed.

Lemma starts_first_snoc es e :
  starts_first es ->
  (forall a, closes e = Some a -> In (agent_start a) es) ->
  starts_first (es ++ [e]).
Proof.
  intros Hes He i e' a Hi Hc.
  destruct (Nat.lt_ge_cases i (List.length es)) as [Hlt|Hge].
  - rewrite nth_error_app1 in Hi by exact Hlt.
    destruct (Hes i e' a Hi Hc) as (j & Hj & Hn).
    exists j. split; [exact Hj|].
    rewrite nth_error_app1 by lia. exact Hn.
  - rewrite nth_error_app2 in Hi by exact Hge.
    destruct (i - List.length es) as [|k] eqn:Ek; cbn in Hi;
      [|destruct k; discriminate].
    injection Hi as Heq. subst e'.
    destruct (In_nth_error _ _ (He a Hc)) as (j & Hn).
    assert (j < List.length es) by (apply nth_error_Some; congruence).
    exists j. split; [lia|].
    rewrite nth_error_app1 by assumption. exact Hn.
Qed.

Lemma Started_weaken L L' st : incl L' L -> Started L st -> Started L' st.
Proof. intros Hi [Ho Hs]. split; [exact Ho|]. intros He a Ha. auto. Qed.

(** [Started] looks at the stream and at the flag only. *)
Lemma Started_same L st st' :
  wire st' = wire st -> responseEnded st' = responseEnded st ->
  Started L st -> Started L st'.
Proof.
  unfold Started, events. intros -> ->. auto.
Qed.

Lemma Started_count L st : Started L st -> Started L (count_openai st).
Proof. apply Started_same; reflexivity. Qed.

Lemma Started_db L sql st : Started L st -> Started L (push_db sql st).
Proof. apply Started_same; reflexivity. Qed.

Lemma Started_end L st : Started L st -> Started L (end_state st).
Proof.
  unfold end_state. destruct (responseEnded st) eqn:E; [auto|].
  intros [Ho _]. split; [exact Ho|]. cbn. discriminate.
Qed.

Lemma Started_emit_start L a st :
  Started L st -> Started (a :: L) (emit_state w (agent_start a) st).
Proof.
  intros [Ho Hs]. unfold emit_state.
  destruct (responseEnded st) eqn:E.
  - split; [exact Ho|]. rewrite E. discriminate.
  - split.
    + unfold events. cbn. rewrite map_app. cbn.
      apply starts_first_snoc; [exact Ho|]. discriminate.
    + intros _ b [<-|Hb]; unfold events; cbn; rewrite map_app; cbn;
        apply in_or_app; [right; left; reflexivity|left; auto].
Qed.

Lemma Started_emit L e st :
  (forall a, closes e = Some a -> In a L) ->
  Started L st -> Started L (emit_state w e st).
Proof.
  intros Hc [Ho Hs]. unfold emit_state.
  destruct (responseEnded st) eqn:E.
  - split; [exact Ho|]. rewrite E. discriminate.
  - split.
    + unfold events. cbn. rewrite map_app. cbn.
      apply starts_first_snoc; [exact Ho|]. intros a Ha. apply Hs; auto.
    + intros _ b Hb; unfold events; cbn; rewrite map_app; cbn;
        apply in_or_app; left; auto.
Qed.

(** Steps that keep the list of started agents. *)
Lemma Started_keeps {A} L L0 (c : M A) :
  incl L0 L -> keeps (Started L) c ->
  hoare (Started L) c (fun _ => Started L) (fun _ => Started L0).
Proof.
  intros Hi Hk. eapply hoare_weaken; [exact Hk|auto|auto|].
  intros x st. now apply Started_weaken.
Qed.

Lemma Started_closing L L0 e :
  (forall a, closes e = Some a -> In a L) ->
  hoare (Started L) (emit w e) (fun _ => Started L) (fun _ => Started L0).
Proof. intros H. apply hoare_emit. intros st. now apply Started_emit. Qed.

Lemma Started_starting L L0 a :
  hoare (Started L) (emit w (agent_start a))
    (fun _ => Started (a :: L)) (fun _ => Started L0).
Proof. apply hoare_emit. intros st. apply Started_emit_start. Qed.

End Order.

Create HintDb started.
#[local] Hint Resolve Started_count Started_db Started_end : started.
#[local] Hint Resolve keeps_schemaLinkingAgent keeps_subproblemAgent
  keeps_queryPlanAgent keeps_sqlGenerationAgent keeps_correctionPlanAgent
  keeps_correctionSQLAgent keeps_eval keeps_lift keeps_ret keeps_db_all
  keeps_console keeps_safeEnd
  incl_nil_l incl_refl : started.

(** One statement of a sequence, for the invariant [Started]. *)
Ltac in_list := cbn; repeat first [left; reflexivity | right].

Ltac started_step :=
  eapply hoare_bind;
  [ first
      [ apply Started_starting
      | apply Started_closing;
        let a := fresh in let H := fresh in
        intros a H; cbn in H;
        first [discriminate H | injection H as H; subst a; in_list]
      | apply Started_keeps; solve [auto with started] ]
  | intros ? ].

Section OrderOfTheRun.
Import Server Spec Hoare.
Variable w : World.

Lemma generate_started :
  hoare (Started []) (generate w) (fun _ => Started []) (fun _ => Started []).
Proof.
  unfold generate.
  do 16 started_step.
  apply hoare_ret. intros st. apply Started_weaken. auto with started.
Qed.

Lemma execute_started v L :
  In "execute" L ->
  hoare (Started L) (execute w v)
    (fun v' st => attempt v' = attempt v /\ Started L st) (fun _ => Started L).
Proof.
  intros Hin. unfold execute.
  started_step.
  eapply hoare_bind; [apply Started_closing|intros ?].
  { intros b Hb. injection Hb as Hb. subst b. exact Hin. }
  apply hoare_ret. auto.
Qed.

Lemma corrected_next v v' :
  attempt v' = attempt v + 1 -> corrected v' = ["correction"].
Proof.
  unfold corrected. intros ->.
  destruct (Nat.leb_spec 1 (attempt v + 1)); [reflexivity|lia].
Qed.

Lemma recover_started v m :
  hoare (Started ("execute" :: corrected v)) (recover w v m)
    (fun v' => Started (corrected v')) (fun _ => Started []).
Proof.
  unfold recover.
  started_step.
  eapply hoare_bind with (Q1 := fun _ => Started ["correction"]).
  - destruct (attempt v <? maxAttempts - 1) eqn:E.
    + do 7 started_step.
      apply hoare_ret. intros st. apply Started_weaken.
      intros b [<-|[]]. left. reflexivity.
    + apply Nat.ltb_ge in E.
      assert (corrected v = ["correction"]) as ->.
      { unfold corrected. unfold maxAttempts in E.
        destruct (Nat.leb_spec 1 (attempt v)); [reflexivity|lia]. }
      started_step.
      apply hoare_ret. intros st. apply Started_weaken.
      intros b [<-|[]]. right. left. reflexivity.
  - intros v'. apply hoare_ret. intros st H.
    rewrite (corrected_next v) by reflexivity. exact H.
Qed.

Lemma iteration_started v :
  hoare (Started (corrected v)) (iteration w v)
    (fun v' => Started (corrected v')) (fun _ => Started []).
Proof.
  unfold iteration.
  eapply hoare_bind; [apply Started_starting with (L0 := [])|intros ?].
  eapply hoare_try_catch with (X1 := fun _ => Started ("execute" :: corrected v)).
  - eapply hoare_weaken;
      [apply (execute_started v ("execute" :: corrected v)); now left
      | auto | | auto].
    intros v' st [Ha H]. unfold corrected. rewrite Ha.
    revert H. apply Started_weaken. apply incl_tl, incl_refl.
  - intros m. apply recover_started.
  - intros st. apply Started_weaken. auto with started.
  - intros st. apply Started_weaken. auto with started.
Qed.

Lemma loop_started fuel :
  forall v,
    hoare (Started (corrected v)) (loop w fuel v)
      (fun _ => Started []) (fun _ => Started []).
Proof.
  induction fuel as [|fuel IH]; intros v; cbn [loop].
  - destruct (_ && _).
    + apply hoare_lift. intros st. apply Started_weaken. auto with started.
    + apply hoare_ret. intros st. apply Started_weaken. auto with started.
  - destruct (_ && _).
    + eapply hoare_bind; [apply iteration_started|exact IH].
    + apply hoare_ret. intros st. apply Started_weaken. auto with started.
Qed.

Lemma conclude_started sql :
  hoare (Started []) (conclude w sql) (fun _ => Started []) (fun _ => Started []).
Proof.
  unfold conclude.
  eapply hoare_bind; [apply (loop_started _ (entry sql))|intros v].
  started_step. started_step.
  apply hoare_ret. auto.
Qed.

Lemma pipeline_started req :
  hoare (Started []) (pipeline w req) (fun _ => Started []) (fun _ => Started []).
Proof.
  unfold pipeline.
  destruct (String.eqb (apiKey req) _);
    [intros st H; cbn; revert H; apply Started_same; reflexivity|].
  destruct (String.eqb (question req) _);
    [intros st H; cbn; revert H; apply Started_same; reflexivity|].
  eapply hoare_bind; [apply generate_started|intros sql].
  apply conclude_started.
Qed.

Lemma handler_started req :
  hoare (Started []) (handler w req) (fun _ => Started []) (fun _ => Started []).
Proof.
  unfold handler.
  eapply hoare_bind with (Q1 := fun _ => Started []).
  - eapply hoare_try_catch; [apply pipeline_started| |auto|auto].
    intros m. rewrite fatal_emits.
    started_step. started_step.
    apply hoare_ret. auto.
  - intros [|]; [apply hoare_ret; auto|].
    intros st H; cbn; revert H; apply Started_same; reflexivity.
Qed.

End OrderOfTheRun.

(** C7.  In every run, an event that closes a stage ([agent_complete] or
    [agent_error] of agent X) comes after an [agent_start] of X: the events
    handed to the stream keep the order start, then completion. *)
Theorem start_precedes_completion :
  forall (w : Server.World) (req : Server.Request),
    Spec.starts_first (Server.emitted w req).
Proof.
  intros w req. unfold Server.emitted, Server.run.
  pose proof (handler_started w req Server.initial) as H.
  assert (Spec.Started [] Server.initial) as H0.
  { split; [apply starts_first_nil|]. intros _ a []. }
  specialize (H H0).
  destruct (Server.handler w req Server.initial) as [[u | m | |] st];
    exact (proj1 H).
Qed.


(* ===================================================================== *)
(** ** Success at the first attempt                                       *)
(* ===================================================================== *)

(** The structure of a computation, for an invariant kept by every
    statement. *)
Ltac keeps_auto :=
  repeat lazymatch goal with
    | |- Hoare.keeps _ (bind _ _) => apply keeps_bind; [|intros ?]
    | |- Hoare.keeps _ (try_catch _ _) => apply keeps_try_catch; [|intros ?]
    | |- Hoare.keeps _ (if ?b then _ else _) => destruct b
    | |- Hoare.keeps _ (ret _) => apply keeps_ret
    | |- Hoare.keeps _ (lift _) => apply keeps_lift
    | |- Hoare.keeps _ (eval _) => apply keeps_eval
    | |- Hoare.keeps _ Server.console => apply keeps_console
    | |- Hoare.keeps _ (Server.emit _ _) => apply keeps_emit
    | |- Hoare.keeps _ (Server.safeEnd _) => apply keeps_safeEnd
    | |- Hoare.keeps _ (Server.db_all _ _) => apply keeps_db_all
    | |- Hoare.keeps _ (Server.schemaLinkingAgent _) =>
        apply keeps_schemaLinkingAgent
    | |- Hoare.keeps _ (Server.subproblemAgent _ _) =>
        apply keeps_subproblemAgent
    | |- Hoare.keeps _ (Server.queryPlanAgent _ _) =>
        apply keeps_queryPlanAgent
    | |- Hoare.keeps _ (Server.sqlGenerationAgent _) =>
        apply keeps_sqlGenerationAgent
    | |- Hoare.keeps _ (Server.correctionPlanAgent _ _) =>
        apply keeps_correctionPlanAgent
    | |- Hoare.keeps _ (Server.correctionSQLAgent _) =>
        apply keeps_correctionSQLAgent
    end.

Section FirstAttempt.
Import Server Spec Hoare.
Variable w : World.

(** [Lost] survives every statement: the log of queries only grows. *)
Lemma Lost_emit e st : Lost w st -> Lost w (emit_state w e st).
Proof. unfold Lost. now rewrite emit_state_db_log. Qed.

Lemma Lost_count st : Lost w st -> Lost w (count_openai st).
Proof. auto. Qed.

Lemma Lost_end st : Lost w st -> Lost w (end_state st).
Proof. unfold end_state. destruct (responseEnded st); auto. Qed.

Lemma Lost_db sql st : Lost w st -> Lost w (push_db sql st).
Proof.
  intros (q & rest & Hl & Hn). exists q, (rest ++ [sql])%list.
  split; [cbn; now rewrite Hl|exact Hn].
Qed.

Lemma recover_Lost v m : keeps (Lost w) (recover w v m).
Proof.
  unfold recover.
  keeps_auto; auto using Lost_emit, Lost_count, Lost_db.
Qed.

Lemma iteration_Lost v : keeps (Lost w) (iteration w v).
Proof.
  unfold iteration, execute.
  keeps_auto; auto using Lost_emit, Lost_count, Lost_db.
  apply recover_Lost.
Qed.

Lemma loop_Lost fuel : forall v, keeps (Lost w) (loop w fuel v).
Proof.
  induction fuel as [|fuel IH]; intros v; cbn [loop]; keeps_auto; auto.
  apply iteration_Lost.
Qed.

(** [Quiet] survives the events of the other agents. *)
Lemma Quiet_emit e st :
  about "correction" e = false -> Quiet st -> Quiet (emit_state w e st).
Proof.
  intros He Hq. unfold emit_state. destruct (responseEnded st); [exact Hq|].
  intros e'. unfold events. cbn. rewrite map_app. cbn.
  intros [H|[<-|[]]]%in_app_or; auto.
Qed.

Lemma Quiet_end st : Quiet st -> Quiet (end_state st).
Proof. unfold end_state. destruct (responseEnded st); auto. Qed.

Lemma Fresh_emit e st :
  about "correction" e = false -> Fresh st -> Fresh (emit_state w e st).
Proof.
  intros He [Hl Hq]. split; [now rewrite emit_state_db_log|].
  now apply Quiet_emit.
Qed.

Lemma Fresh_count st : Fresh st -> Fresh (count_openai st).
Proof. auto. Qed.

Lemma generate_Fresh : keeps Fresh (generate w).
Proof.
  unfold generate.
  keeps_auto; auto using Fresh_count; intros; now apply Fresh_emit.
Qed.

Lemma Calm_emit e st :
  about "correction" e = false -> Calm w st -> Calm w (emit_state w e st).
Proof.
  intros He [H|H]; [left; now apply Quiet_emit|right; now apply Lost_emit].
Qed.

Lemma Calm_end st : Calm w st -> Calm w (end_state st).
Proof. intros [H|H]; [left; now apply Quiet_end|right; now apply Lost_end]. Qed.

(** The first query: answered with rows, or [Lost]. *)
Lemma first_query sql :
  hoare Fresh (db_all w sql) (fun _ => Quiet) (fun _ => Lost w).
Proof.
  intros st [Hl Hq]. unfold db_all. rewrite Hl. cbn.
  destruct (db_answer w 0 sql) as [rows|m|] eqn:E; cbn.
  - exact Hq.
  - exists sql, []. split; [cbn; now rewrite Hl|]. intros [r Hr]. congruence.
  - exists sql, []. split; [cbn; now rewrite Hl|]. intros [r Hr]. congruence.
Qed.

Lemma first_iteration v :
  hoare Fresh (iteration w v)
    (fun v' st => (success v' = true /\ Quiet st) \/ Lost w st)
    (fun _ => Lost w).
Proof.
  unfold iteration.
  eapply hoare_bind with (Q1 := fun _ => Fresh).
  { apply hoare_emit. intros st. now apply Fresh_emit. }
  intros _.
  eapply hoare_try_catch with (X1 := fun _ => Lost w); [| |auto|auto].
  - unfold execute.
    eapply hoare_bind; [apply first_query|intros rows].
    eapply hoare_bind with (Q1 := fun _ => Quiet).
    { apply hoare_emit. intros st. now apply Quiet_emit. }
    intros _. apply hoare_ret. intros st H. left. split; [reflexivity|exact H].
  - intros m.
    eapply hoare_weaken with (Q' := fun _ => Lost w);
      [apply recover_Lost| | |]; auto.
Qed.

Lemma rest_of_loop fuel v :
  hoare (fun st => (success v = true /\ Quiet st) \/ Lost w st)
    (loop w fuel v) (fun _ => Calm w) (fun _ => Calm w).
Proof.
  intros st [[Hs Hq]|Hl].
  - rewrite loop_done by exact Hs. left. exact Hq.
  - pose proof (loop_Lost fuel v st Hl) as H.
    destruct (loop w fuel v st) as [[v'| m | |] st']; right; exact H.
Qed.

Lemma conclude_Calm sql :
  hoare Fresh (conclude w sql) (fun _ => Calm w) (fun _ => Calm w).
Proof.
  unfold conclude. cbn [loop entry attempt success negb Nat.ltb andb].
  eapply hoare_bind with (Q1 := fun _ => Calm w).
  - change (loop w (S maxAttempts) (entry sql))
      with (bind (iteration w (entry sql)) (loop w maxAttempts)).
    eapply hoare_bind; [|intros v'; apply rest_of_loop].
    eapply hoare_weaken; [apply first_iteration|auto|auto|].
    intros x st H. right. exact H.
  - intros v.
    eapply hoare_bind with (Q1 := fun _ => Calm w).
    { apply hoare_emit. intros st. now apply Calm_emit. }
    intros _.
    eapply hoare_bind with (Q1 := fun _ => Calm w).
    { apply hoare_safeEnd. intros st. now apply Calm_end. }
    intros _. apply hoare_ret. auto.
Qed.

Lemma pipeline_Calm req :
  hoare Fresh (pipeline w req) (fun _ => Calm w) (fun _ => Calm w).
Proof.
  unfold pipeline.
  destruct (String.eqb (apiKey req) _);
    [intros st [_ H]; left; exact H|].
  destruct (String.eqb (question req) _);
    [intros st [_ H]; left; exact H|].
  eapply hoare_bind with (Q1 := fun _ => Fresh).
  - eapply hoare_weaken; [apply generate_Fresh|auto|auto|].
    intros x st [_ H]. left. exact H.
  - intros sql. apply conclude_Calm.
Qed.

Lemma handler_Calm req :
  hoare Fresh (handler w req) (fun _ => Calm w) (fun _ => Calm w).
Proof.
  unfold handler.
  eapply hoare_bind with (Q1 := fun _ => Calm w).
  - eapply hoare_try_catch; [apply pipeline_Calm| |auto|auto].
    intros m. rewrite fatal_emits.
    eapply hoare_bind with (Q1 := fun _ => Calm w).
    { apply hoare_emit. intros st. now apply Calm_emit. }
    intros _.
    eapply hoare_bind with (Q1 := fun _ => Calm w).
    { apply hoare_safeEnd. intros st. now apply Calm_end. }
    intros _. apply hoare_ret. auto.
  - intros [|]; [apply hoare_ret; auto|].
    intros st H. exact H.
Qed.

End FirstAttempt.

(** C6.  When the first query of the loop is answered with rows, no event
    of the correction agent, of any type, is written during the run. *)
Theorem no_correction_after_first_success :
  forall (w : Server.World) (req : Server.Request),
    Spec.first_execution_succeeds w (snd (Server.run w req)) ->
    forall e, In e (Server.emitted w req) -> Spec.about "correction" e = false.
Proof.
  intros w req Hfirst. unfold Server.emitted. unfold Server.run in *.
  pose proof (handler_Calm w req Server.initial) as H.
  assert (Spec.Fresh Server.initial) as H0.
  { split; [reflexivity|]. intros e []. }
  specialize (H H0).
  assert (Spec.Calm w (snd (Server.handler w req Server.initial))) as [Hq|Hl].
  { destruct (Server.handler w req Server.initial) as [[u | m | |] st];
      exact H. }
  - exact Hq.
  - destruct Hl as (sql & rest & Hlog & Hno).
    exfalso. apply Hno. apply Hfirst. rewrite Hlog. reflexivity.
Qed.

Lemma no_correction_after_first_success_witness :
  Spec.first_execution_succeeds Scenario.first_try
    (snd (Server.run Scenario.first_try Scenario.request)) /\
  Forall (fun e => Spec.about "correction" e = false)
    (Server.emitted Scenario.first_try Scenario.request).
Proof.
  assert (Spec.first_execution_succeeds Scenario.first_try
            (snd (Server.run Scenario.first_try Scenario.request))) as H.
  { intros sql H. vm_compute in H. injection H as <-.
    eexists. reflexivity. }
  split; [exact H|].
  apply Forall_forall.
  exact (no_correction_after_first_success
           Scenario.first_try Scenario.request H).
Defined.


(* ===================================================================== *)
(** ** The rows of the final result                                       *)
(* ===================================================================== *)

Section Rows.
Import Server Spec Hoare.

Lemma BigInt_round_trip z : BigInt_parse (BigInt_toString z) = Some z.
Proof.
  unfold BigInt_parse, BigInt_toString.
  rewrite NilZero.isi.
  - cbn. now rewrite DecimalZ.of_to.
  - destruct z; cbn; try discriminate.
    intros [= H]. now apply DecimalPos.Unsigned.to_uint_nonnil in H.
  - destruct z; cbn; try discriminate.
    intros [= H]. now apply DecimalPos.Unsigned.to_uint_nonnil in H.
Qed.

Lemma cleanResults_entry rows i row j key value :
  nth_error rows i = Some row ->
  nth_error row j = Some (key, value) ->
  exists row',
    nth_error (cleanResults rows) i = Some row' /\
    nth_error row' j = Some (key, convert value).
Proof.
  intros Hi Hj. unfold cleanResults.
  eexists. split.
  - rewrite nth_error_map, Hi. reflexivity.
  - rewrite nth_error_map, Hj. reflexivity.
Qed.

Lemma cleanResults_length rows :
  List.length (cleanResults rows) = List.length rows.
Proof. unfold cleanResults. apply length_map. Qed.

Variable w : World.

Lemma loop_Settled fuel :
  forall v st, Settled w v ->
    match loop w fuel v st with
    | (Return v', _) => Settled w v'
    | _ => True
    end.
Proof.
  induction fuel as [|fuel IH]; intros v st Hv; cbn [loop].
  - destruct (_ && _); cbn; auto.
  - destruct (_ && _); cbn; auto.
    unfold bind.
    pose proof (iteration_step w v st) as Hstep.
    destruct (iteration w v st) as [[v' | m | |] st']; auto.
    apply IH.
    destruct Hstep as [(_ & _ & _ & rows & Hr & He)
                      |(Hs & Hr & _)].
    + intros _. rewrite He. do 3 eexists. split; [exact Hr|reflexivity].
    + unfold Settled. rewrite Hs, Hr. exact Hv.
Qed.

Lemma Clean_emit e st :
  (forall sql results attempts,
      e = complete true sql results attempts -> cleaned w results) ->
  Clean w st -> Clean w (emit_state w e st).
Proof.
  intros He Hc. unfold emit_state. destruct (responseEnded st); [exact Hc|].
  intros sql results attempts. unfold events. cbn. rewrite map_app. cbn.
  intros [H|[H|[]]]%in_app_or; eauto.
Qed.

Lemma Clean_same st st' : wire st' = wire st -> Clean w st -> Clean w st'.
Proof. unfold Clean, events. now intros ->. Qed.

Lemma Clean_end st : Clean w st -> Clean w (end_state st).
Proof. unfold end_state. destruct (responseEnded st); auto. Qed.

Lemma Clean_other e st :
  is_complete e = false -> Clean w st -> Clean w (emit_state w e st).
Proof.
  intros He. apply Clean_emit. intros sql results attempts ->. discriminate.
Qed.

Lemma iteration_Clean v : keeps (Clean w) (iteration w v).
Proof.
  unfold iteration, execute, recover.
  keeps_auto; intros st; first [now apply Clean_other | now apply Clean_same].
Qed.

Lemma loop_Clean fuel : forall v, keeps (Clean w) (loop w fuel v).
Proof.
  induction fuel as [|fuel IH]; intros v; cbn [loop]; keeps_auto; auto.
  apply iteration_Clean.
Qed.

Lemma generate_Clean : keeps (Clean w) (generate w).
Proof.
  unfold generate.
  keeps_auto; intros st; first [now apply Clean_other | now apply Clean_same].
Qed.

Lemma conclude_Clean sql : keeps (Clean w) (conclude w sql).
Proof.
  unfold conclude. intros st Hst.
  unfold bind at 1.
  pose proof (loop_Clean (S maxAttempts) (entry sql) st Hst) as Hc.
  pose proof (loop_Settled (S maxAttempts) (entry sql) st) as Hs.
  destruct (loop w (S maxAttempts) (entry sql) st) as [[v | m | |] st'];
    auto.
  assert (Settled w v) as Hv by (apply Hs; intros H; discriminate H).
  assert (keeps (Clean w)
            (bind (emit w (complete (success v) sql (results v) (attempt v + 1)))
                  (fun _ => bind (safeEnd w) (fun _ => ret false)))) as Hk.
  { keeps_auto; intros st0; [|apply Clean_end].
    apply Clean_emit. intros q r a [= Hsucc _ Hres _]. subst r.
    apply Hv. exact Hsucc. }
  exact (Hk st' Hc).
Qed.

Lemma handler_Clean req : keeps (Clean w) (handler w req).
Proof.
  unfold handler, pipeline.
  apply keeps_bind.
  - apply keeps_try_catch.
    + destruct (String.eqb (apiKey req) _);
        [intros st H; exact H|].
      destruct (String.eqb (question req) _);
        [intros st H; exact H|].
      apply keeps_bind; [apply generate_Clean|intros sql; apply conclude_Clean].
    + intros m. rewrite fatal_emits.
      keeps_auto; intros st; [now apply Clean_other|apply Clean_end].
  - intros [|]; [apply keeps_ret|]. intros st H. exact H.
Qed.

Lemma run_Clean req : Clean w (snd (run w req)).
Proof.
  unfold run. apply keeps_state; [apply handler_Clean|]. intros sql r a [].
Qed.

End Rows.

(* ===================================================================== *)
(** ** A reply that is not JSON                                           *)
(* ===================================================================== *)

Section Malformed.
Import Server Spec Hoare.
Variable w : World.
Variables (n : nat) (text m : string).
Hypothesis stage : In n [1; 2; 4; 6].
Hypothesis reply : openai_answer w n = Resolves text.
Hypothesis malformed : JSON_parse w text = inr m.

Lemma Open_emit e st :
  terminal e = false -> Open st -> Open (emit_state w e st).
Proof.
  intros He [Hr Ht]. unfold emit_state. rewrite Hr.
  split; [exact Hr|].
  intros e'. unfold events. cbn. rewrite map_app. cbn.
  intros [H|[<-|[]]]%in_app_or; auto.
Qed.

Lemma Upto_emit k e st :
  terminal e = false -> Upto n k st -> Upto n k (emit_state w e st).
Proof.
  intros He (Hk & Hc & Ho). repeat split; auto.
  - now rewrite emit_state_openai_calls.
  - now apply Open_emit.
  - now apply Open_emit.
Qed.

Lemma Upto_Aborted k x st : Upto n k st -> Aborted n m x st.
Proof. intros (Hk & Hc & Ho). split; [exact Ho|]. left. lia. Qed.

(** Statements that neither write nor call the model. *)
Lemma Upto_still {A} k (c : M A) :
  (forall st, snd (c st) = st) ->
  hoare (Upto n k) c (fun _ => Upto n k) (Aborted n m).
Proof.
  intros Hc st Hst. specialize (Hc st).
  destruct (c st) as [[a | m' | |] st']; cbn in Hc; subst st';
    first [exact Hst | exact (Upto_Aborted _ _ _ Hst)].
Qed.

Lemma Upto_lift {A} k (o : Outcome A) :
  hoare (Upto n k) (lift o) (fun _ => Upto n k) (Aborted n m).
Proof. now apply Upto_still. Qed.

Lemma Upto_writes k e :
  terminal e = false ->
  hoare (Upto n k) (emit w e) (fun _ => Upto n k) (Aborted n m).
Proof. intros He. apply hoare_emit. intros st. now apply Upto_emit. Qed.

Lemma Upto_db k sql :
  hoare (Upto n k) (db_all w sql) (fun _ => Upto n k) (fun _ => Upto n k).
Proof.
  intros st Hst. unfold db_all.
  destruct (await _); exact Hst.
Qed.

(** A call whose reply is parsed: the call [n] throws [m]. *)
Lemma Upto_json k :
  hoare (Upto n k) (bind (callOpenAI w) (parse w))
    (fun _ => Upto n (S k)) (Aborted n m).
Proof.
  intros st (Hk & Hc & Ho). unfold bind, callOpenAI, parse, lift.
  rewrite Hc.
  destruct (Nat.eq_dec k n) as [->|Hne].
  - rewrite reply. cbn. rewrite malformed.
    split; [exact Ho|]. right. split; [reflexivity|cbn; now rewrite Hc].
  - assert (S k <= n) by lia.
    destruct (openai_answer w k) as [t|m'|]; cbn.
    + destruct (JSON_parse w t) as [j|m'].
      * repeat split; auto; try apply Ho. cbn. now rewrite Hc.
      * split; [exact Ho|]. left. cbn. lia.
    + split; [exact Ho|]. left. cbn. lia.
    + split; [exact Ho|]. left. cbn. lia.
Qed.

(** A call whose reply is taken as text; it is not the call [n]. *)
Lemma Upto_text k :
  k <> n ->
  hoare (Upto n k)
    (bind (callOpenAI w) (fun response => ret (Text.stripFences response)))
    (fun _ => Upto n (S k)) (Aborted n m).
Proof.
  intros Hne st (Hk & Hc & Ho). unfold bind, callOpenAI, ret.
  rewrite Hc. assert (S k <= n) by lia.
  destruct (openai_answer w k) as [t|m'|]; cbn.
  - repeat split; auto; try apply Ho. cbn. now rewrite Hc.
  - split; [exact Ho|]. left. cbn. lia.
  - split; [exact Ho|]. left. cbn. lia.
Qed.

Lemma stage_bound : 1 <= n <= 6.
Proof. cbn in stage. lia. Qed.

Lemma stage_even_or_low k : k = 3 \/ k = 5 \/ k = 7 -> k <> n.
Proof. cbn in stage. lia. Qed.

Lemma Upto_schemaLinking :
  hoare (Upto n 0) (schemaLinkingAgent w) (fun _ => Upto n 1) (Aborted n m).
Proof. apply Upto_json. Qed.

Lemma Upto_subproblem k x :
  hoare (Upto n k) (subproblemAgent w x) (fun _ => Upto n (S k)) (Aborted n m).
Proof.
  unfold subproblemAgent.
  eapply hoare_bind; [apply Upto_lift|intros ?]. apply Upto_json.
Qed.

Lemma Upto_queryPlan k x :
  hoare (Upto n k) (queryPlanAgent w x) (fun _ => Upto n (S k)) (Aborted n m).
Proof.
  unfold queryPlanAgent.
  eapply hoare_bind; [apply Upto_lift|intros ?]. apply Upto_json.
Qed.

Lemma Upto_sqlGeneration k :
  k <> n ->
  hoare (Upto n k) (sqlGenerationAgent w) (fun _ => Upto n (S k)) (Aborted n m).
Proof. apply Upto_text. Qed.

Lemma Upto_correctionPlan k message :
  hoare (Upto n k) (correctionPlanAgent w message)
    (fun _ => Upto n (S k)) (Aborted n m).
Proof.
  unfold correctionPlanAgent.
  eapply hoare_bind with (Q1 := fun _ => Upto n k).
  - destruct (tableMatch message); [apply Upto_lift|now apply Upto_still].
  - intros ?. apply Upto_json.
Qed.

Lemma Upto_correctionSQL k :
  k <> n ->
  hoare (Upto n k) (correctionSQLAgent w) (fun _ => Upto n (S k)) (Aborted n m).
Proof. apply Upto_text. Qed.

Ltac upto_step :=
  eapply hoare_bind;
  [ first [ apply Upto_writes; reflexivity
          | apply Upto_lift
          | apply Upto_schemaLinking
          | apply Upto_subproblem
          | apply Upto_queryPlan
          | apply Upto_correctionPlan
          | apply Upto_sqlGeneration; apply stage_even_or_low; lia
          | apply Upto_correctionSQL; apply stage_even_or_low; lia ]
  | intros ? ].

Lemma generate_Upto :
  hoare (Upto n 0) (generate w) (fun _ => Upto n 4) (Aborted n m).
Proof.
  unfold generate.
  do 16 upto_step.
  apply hoare_ret. auto.
Qed.

Lemma execute_Upto k v :
  hoare (Upto n k) (execute w v)
    (fun v' st => attempt v' = attempt v /\ Upto n k st) (fun _ => Upto n k).
Proof.
  unfold execute.
  eapply hoare_bind; [apply Upto_db|intros rows].
  eapply hoare_bind with (Q1 := fun _ => Upto n k).
  { apply hoare_emit. intros st. now apply Upto_emit. }
  intros ?. apply hoare_ret. auto.
Qed.

Lemma recover_Upto v message :
  hoare (Upto n (4 + 2 * attempt v)) (recover w v message)
    (fun v' => Upto n (4 + 2 * attempt v')) (Aborted n m).
Proof.
  unfold recover.
  upto_step.
  eapply hoare_bind with (Q1 := fun _ => Upto n (4 + 2 * (attempt v + 1))).
  - destruct (attempt v <? maxAttempts - 1) eqn:E.
    + apply Nat.ltb_lt in E. unfold maxAttempts in E.
      upto_step. upto_step.
      eapply hoare_bind;
        [apply Upto_correctionSQL; apply stage_even_or_low; lia|intros ?].
      do 4 upto_step.
      apply hoare_ret. intros st.
      replace (4 + 2 * (attempt v + 1)) with (S (S (4 + 2 * attempt v))) by lia.
      auto.
    + apply Nat.ltb_ge in E. unfold maxAttempts in E.
      intros st (Hk & _). pose proof stage_bound. lia.
  - intros v'. apply hoare_ret. auto.
Qed.

Lemma iteration_Upto v :
  hoare (Upto n (4 + 2 * attempt v)) (iteration w v)
    (fun v' => Upto n (4 + 2 * attempt v')) (Aborted n m).
Proof.
  unfold iteration.
  upto_step.
  eapply hoare_try_catch
    with (X1 := fun _ => Upto n (4 + 2 * attempt v)).
  - eapply hoare_weaken;
      [apply (execute_Upto (4 + 2 * attempt v))|auto| |auto].
    intros v' st [-> H]. exact H.
  - intros message. apply recover_Upto.
  - intros st. apply Upto_Aborted.
  - intros st. apply Upto_Aborted.
Qed.

Lemma Upto_Below k st : Upto n k st -> Below n st.
Proof. intros (Hk & Hc & Ho). split; [exact Ho|lia]. Qed.

Lemma loop_Upto fuel :
  forall v,
    hoare (Upto n (4 + 2 * attempt v)) (loop w fuel v)
      (fun _ => Below n) (Aborted n m).
Proof.
  induction fuel as [|fuel IH]; intros v; cbn [loop].
  - destruct (_ && _).
    + apply hoare_lift. intros st. apply Upto_Aborted.
    + apply hoare_ret. intros st. apply Upto_Below.
  - destruct (_ && _).
    + eapply hoare_bind; [apply iteration_Upto|exact IH].
    + apply hoare_ret. intros st. apply Upto_Below.
Qed.

Lemma conclude_Upto sql :
  hoare (Upto n 4) (conclude w sql)
    (fun _ st => openai_calls st <= n) (Aborted n m).
Proof.
  unfold conclude.
  eapply hoare_bind; [apply (loop_Upto _ (entry sql))|intros v].
  eapply hoare_bind with (Q1 := fun _ st => openai_calls st <= n).
  { apply hoare_emit. intros st [_ H]. now rewrite emit_state_openai_calls. }
  intros ?.
  eapply hoare_bind with (Q1 := fun _ st => openai_calls st <= n).
  { apply hoare_safeEnd. intros st H. unfold end_state.
    destruct (responseEnded st); exact H. }
  intros ?. apply hoare_ret. auto.
Qed.

Lemma pipeline_Upto req :
  hoare (Upto n 0) (pipeline w req)
    (fun _ st => openai_calls st <= n) (Aborted n m).
Proof.
  unfold pipeline.
  destruct (String.eqb (apiKey req) _);
    [intros st (_ & H & _); cbn; rewrite H; lia|].
  destruct (String.eqb (question req) _);
    [intros st (_ & H & _); cbn; rewrite H; lia|].
  eapply hoare_bind; [apply generate_Upto|intros sql]. apply conclude_Upto.
Qed.

Lemma fatal_Verdict message :
  hoare (Aborted n m (Thrown message)) (fatal w message)
    (fun _ => Verdict n m) (fun _ st => openai_calls st <= n).
Proof.
  rewrite fatal_emits.
  eapply hoare_bind with (Q1 := fun _ => Verdict n m).
  { apply hoare_emit. intros st [[Hr Ht] Hc]. unfold emit_state. rewrite Hr.
    destruct Hc as [Hc|[[= ->] Hc]]; [left; exact Hc|].
    right. split; [exact Hc|].
    exists (events st). split; [|exact Ht].
    unfold events. cbn. now rewrite map_app. }
  intros ?.
  eapply hoare_bind with (Q1 := fun _ => Verdict n m).
  { apply hoare_safeEnd. intros st H. unfold end_state.
    destruct (responseEnded st); exact H. }
  intros ?. apply hoare_ret. auto.
Qed.

Lemma handler_Verdict req :
  hoare (Upto n 0) (handler w req)
    (fun _ => Verdict n m) (fun _ st => openai_calls st <= n).
Proof.
  unfold handler.
  eapply hoare_bind with (Q1 := fun _ => Verdict n m).
  - eapply hoare_try_catch with (X1 := Aborted n m).
    + eapply hoare_weaken; [apply pipeline_Upto|auto| |auto].
      intros returned st H. left. exact H.
    + apply fatal_Verdict.
    + intros st [_ [H|[[=] _]]]. exact H.
    + intros st [_ [H|[[=] _]]]. exact H.
  - intros [|]; [apply hoare_ret; auto|].
    intros st H. exact H.
Qed.

End Malformed.

Section CliMalformed.
Import Cli Spec Hoare.
Variable w : World.
Variables (n : nat) (content : option string) (m : string).
Hypothesis stage : In n [1; 2; 4; 6; 8].
Hypothesis reply : openai_answer w n = Resolves content.
Hypothesis malformed : JSON_parse w (orElse content "{}") = inr m.

Lemma CliUpto_Aborted k x st : CliUpto n k st -> CliAborted n m x st.
Proof. intros (Hk & Hc). left. lia. Qed.

Lemma CliUpto_still {A} k (c : M A) :
  (forall st, snd (c st) = st) ->
  hoare (CliUpto n k) c (fun _ => CliUpto n k) (CliAborted n m).
Proof.
  intros Hc st Hst. specialize (Hc st).
  destruct (c st) as [[a | m' | |] st']; cbn in Hc; subst st';
    first [exact Hst | exact (CliUpto_Aborted _ _ _ Hst)].
Qed.

Lemma CliUpto_lift {A} k (o : Outcome A) :
  hoare (CliUpto n k) (lift o) (fun _ => CliUpto n k) (CliAborted n m).
Proof. now apply CliUpto_still. Qed.

(** A call whose reply is parsed: the call [n] throws [m]. *)
Lemma CliUpto_json k :
  hoare (CliUpto n k) (structured w)
    (fun _ => CliUpto n (S k)) (CliAborted n m).
Proof.
  intros st (Hk & Hc). unfold structured, bind, create, parse, lift.
  rewrite Hc.
  destruct (Nat.eq_dec k n) as [->|Hne].
  - rewrite reply. cbn. rewrite malformed.
    right. split; [reflexivity|cbn; now rewrite ?Hc].
  - assert (S k <= n) by lia.
    destruct (openai_answer w k) as [c|m'|]; cbn.
    + destruct (JSON_parse w (orElse c "{}")) as [j|m'].
      * split; auto; cbn; now rewrite ?Hc.
      * left. cbn. lia.
    + left. cbn. lia.
    + left. cbn. lia.
Qed.

(** A call whose reply is taken as text; it is not the call [n]. *)
Lemma CliUpto_text k :
  k <> n ->
  hoare (CliUpto n k)
    (bind (create w) (fun c => ret (Text.stripFences (trimmed c))))
    (fun _ => CliUpto n (S k)) (CliAborted n m).
Proof.
  intros Hne st (Hk & Hc). unfold bind, create, ret.
  rewrite Hc. assert (S k <= n) by lia.
  destruct (openai_answer w k) as [c|m'|]; cbn.
  - split; auto; cbn; now rewrite ?Hc.
  - left. cbn. lia.
  - left. cbn. lia.
Qed.

Lemma CliUpto_parsed k key :
  hoare (CliUpto n k)
    (result <- structured w ;; eval (get result key) ;; ret result)%js
    (fun _ => CliUpto n (S k)) (CliAborted n m).
Proof.
  eapply hoare_bind; [apply CliUpto_json|intros result].
  eapply hoare_bind; [apply CliUpto_lift|intros ?].
  apply hoare_ret. auto.
Qed.

Lemma cli_stage_odd k : k = 3 \/ k = 5 \/ k = 7 \/ k = 9 -> k <> n.
Proof. cbn in stage. lia. Qed.

Lemma CliUpto_executeSQL k sql :
  hoare (CliUpto n k) (executeSQL w sql)
    (fun _ => CliUpto n k) (CliAborted n m).
Proof.
  intros st Hst. unfold executeSQL.
  destruct (await _);
    first [exact Hst | exact (CliUpto_Aborted _ _ _ Hst)].
Qed.

Lemma cli_iteration_Upto v :
  hoare (CliUpto n (4 + 2 * attempt v)) (iteration w v)
    (fun v' => CliUpto n (4 + 2 * attempt v')) (CliAborted n m).
Proof.
  unfold iteration.
  eapply hoare_bind; [apply CliUpto_executeSQL|intros result].
  destruct (Executor.success result); [apply hoare_ret; auto|].
  eapply hoare_bind
    with (Q1 := fun _ => CliUpto n (4 + 2 * (attempt v + 1))).
  - destruct (attempt v <? MAX_CORRECTION_ATTEMPTS) eqn:E.
    + apply Nat.ltb_lt in E. unfold MAX_CORRECTION_ATTEMPTS in E.
      eapply hoare_bind;
        [apply (CliUpto_parsed (4 + 2 * attempt v) "error_categories")
        |intros ?].
      eapply hoare_weaken;
        [apply (CliUpto_text (S (4 + 2 * attempt v)));
         apply cli_stage_odd; lia
        |auto| |auto].
      intros sql st.
      replace (4 + 2 * (attempt v + 1)) with (S (S (4 + 2 * attempt v)))
        by lia.
      auto.
    + apply Nat.ltb_ge in E. unfold MAX_CORRECTION_ATTEMPTS in E.
      intros st (Hk & _). cbn in stage. lia.
  - intros sql. apply hoare_ret. auto.
Qed.

Lemma cli_loop_Upto fuel :
  forall v,
    hoare (CliUpto n (4 + 2 * attempt v)) (loop w fuel v)
      (fun _ st => openai_calls st <= n) (CliAborted n m).
Proof.
  induction fuel as [|fuel IH]; intros v; cbn [loop].
  - destruct (_ && _).
    + apply hoare_lift. intros st. apply CliUpto_Aborted.
    + apply hoare_ret. intros st (Hk & Hc). lia.
  - destruct (_ && _).
    + eapply hoare_bind; [apply cli_iteration_Upto|exact IH].
    + apply hoare_ret. intros st (Hk & Hc). lia.
Qed.

Lemma sqlOfThought_Verdict :
  hoare (CliUpto n 0) (sqlOfThought w)
    (fun verdict st =>
       openai_calls st <= n \/
       (openai_calls st = S n /\ verdict = PipelineError m))
    (fun _ st => openai_calls st <= n).
Proof.
  unfold sqlOfThought.
  eapply hoare_try_catch with (X1 := CliAborted n m).
  - eapply hoare_bind; [apply CliUpto_lift|intros ?].
    eapply hoare_bind; [apply (CliUpto_parsed 0 "tables")|intros linked].
    eapply hoare_bind with (Q1 := fun _ => CliUpto n 2).
    { unfold subproblemAgent.
      eapply hoare_bind; [apply CliUpto_lift|intros ?].
      apply (CliUpto_parsed 1 "clauses"). }
    intros subproblems.
    eapply hoare_bind with (Q1 := fun _ => CliUpto n 3).
    { unfold queryPlanAgent.
      eapply hoare_bind; [apply CliUpto_lift|intros ?].
      eapply hoare_bind; [apply CliUpto_lift|intros ?].
      apply (CliUpto_parsed 2 "steps"). }
    intros ?.
    eapply hoare_bind;
      [apply (CliUpto_text 3); apply cli_stage_odd; lia|intros sql].
    eapply hoare_bind;
      [apply (cli_loop_Upto _ {| success := false; attempt := 0;
                                 generatedSQL := sql |})
      |intros v].
    apply hoare_ret. auto.
  - intros message. apply hoare_ret.
    intros st [H|[[= ->] H]]; [left; exact H|right; auto].
  - intros st [H|[[=] _]]. exact H.
  - intros st [H|[[=] _]]. exact H.
Qed.

End CliMalformed.

(** C4, as the code has it.  When the reply of the subproblem stage (call
    1 of the model), of the query plan stage (call 2) or of a correction
    plan (calls 4 and 6, and 8 on the command line) is not JSON, the run is
    aborted.  In the server the handler returns normally, the stream ends
    with an [error] event that carries the message of the parser, no
    [complete] event is written and the model is not called again.  On the
    command line [sqlOfThought] ends in its [catch] block with that
    message, and the model is not called again; there, a reply without
    content is read as the text of an empty object. *)
Theorem malformed_reply_aborts_the_run :
  (forall (w : Server.World) (req : Server.Request) (n : nat) (text m : string),
      In n [1; 2; 4; 6] ->
      Server.openai_answer w n = Resolves text ->
      Server.JSON_parse w text = inr m ->
      n < Server.openai_calls (snd (Server.run w req)) ->
      fst (Server.run w req) = Return tt /\
      Server.openai_calls (snd (Server.run w req)) = S n /\
      Spec.ends_with_error m (Server.emitted w req)) /\
  (forall (w : Cli.World) (n : nat) (content : option string) (m : string),
      In n [1; 2; 4; 6; 8] ->
      Cli.openai_answer w n = Resolves content ->
      Cli.JSON_parse w (Cli.orElse content "{}") = inr m ->
      n < Cli.openai_calls (snd (Cli.run w)) ->
      fst (Cli.run w) = Return (Cli.PipelineError m) /\
      Cli.openai_calls (snd (Cli.run w)) = S n).
Proof.
  split.
  - intros w req n text m Hn Hr Hp Hcalls.
    unfold Server.emitted, Server.run in *.
    pose proof (handler_Verdict w n text m Hn Hr Hp req Server.initial) as H.
    assert (Spec.Upto n 0 Server.initial) as H0.
    { repeat split; [cbn in Hn; lia|]. intros e []. }
    specialize (H H0).
    destruct (Server.handler w req Server.initial) as [[[] | m' | |] st];
      cbn [fst snd] in *; try lia.
    destruct H as [H|[Hc He]]; [lia|]. auto.
  - intros w n content m Hn Hr Hp Hcalls.
    unfold Cli.run in *.
    pose proof (sqlOfThought_Verdict w n content m Hn Hr Hp Cli.initial) as H.
    assert (Spec.CliUpto n 0 Cli.initial) as H0.
    { split; [cbn in Hn; lia|reflexivity]. }
    specialize (H H0).
    destruct (Cli.sqlOfThought w Cli.initial) as [[verdict | m' | |] st];
      cbn [fst snd] in *; try lia.
    destruct H as [H|[Hc ->]]; [lia|]. auto.
Qed.

(* ===================================================================== *)
(** ** The fuel of the model is enough                                    *)
(* ===================================================================== *)

Section Fuel.
Import Hoare.
Context {T : Type}.

Lemma fuelled_ret {A} (a : A) : fuelled (ret (T := T) a).
Proof. intros st. discriminate. Qed.

Lemma fuelled_await {A} (a : Answer A) : fuelled (lift (T := T) (await a)).
Proof. intros st. destruct a; discriminate. Qed.

Lemma fuelled_eval {A} (t : Try A) : fuelled (eval (T := T) t).
Proof. intros st. destruct t; discriminate. Qed.

Lemma fuelled_bind {A B} (c : M T A) (k : A -> M T B) :
  fuelled c -> (forall a, fuelled (k a)) -> fuelled (bind c k).
Proof.
  intros Hc Hk st. specialize (Hc st). unfold bind.
  destruct (c st) as [[a | m | |] st']; cbn in *;
    first [discriminate | contradiction | apply Hk].
Qed.

Lemma fuelled_try_catch {A} (body : M T A) handler :
  fuelled body -> (forall m, fuelled (handler m)) ->
  fuelled (try_catch body handler).
Proof.
  intros Hb Hh st. specialize (Hb st). unfold try_catch.
  destruct (body st) as [[a | m | |] st']; cbn in *;
    first [discriminate | contradiction | apply Hh].
Qed.
End Fuel.

Ltac fuelled_auto :=
  repeat lazymatch goal with
    | |- Hoare.fuelled (bind _ _) => apply fuelled_bind; [|intros ?]
    | |- Hoare.fuelled (try_catch _ _) => apply fuelled_try_catch; [|intros ?]
    | |- Hoare.fuelled (if ?b then _ else _) => destruct b
    | |- Hoare.fuelled (match ?x with _ => _ end) => destruct x
    | |- Hoare.fuelled (ret _) => apply fuelled_ret
    | |- Hoare.fuelled (lift (await _)) => apply fuelled_await
    | |- Hoare.fuelled (lift Pending) => intros ?; discriminate
    | |- Hoare.fuelled (lift (Return _)) => apply fuelled_ret
    | |- Hoare.fuelled (lift (Throw _)) => intros ?; discriminate
    | |- Hoare.fuelled (eval _) => apply fuelled_eval
    end.

Section ServerFuel.
Import Server Hoare.
Variable w : World.

Lemma fuelled_emit e : fuelled (emit w e).
Proof. intros st. rewrite emit_spec. discriminate. Qed.

Lemma fuelled_safeEnd : fuelled (safeEnd w).
Proof. intros st. rewrite safeEnd_spec. discriminate. Qed.

Lemma fuelled_callOpenAI : fuelled (callOpenAI w).
Proof. intros st. unfold callOpenAI. cbn. destruct (openai_answer w _); discriminate. Qed.

Lemma fuelled_parse text : fuelled (parse w text).
Proof. intros st. unfold parse, lift. cbn. destruct (JSON_parse w text); discriminate. Qed.

Lemma fuelled_generate : fuelled (generate w).
Proof.
  unfold generate, schemaLinkingAgent, subproblemAgent, queryPlanAgent,
    sqlGenerationAgent.
  fuelled_auto;
    first [apply fuelled_emit | apply fuelled_callOpenAI | apply fuelled_parse].
Qed.

Lemma fuelled_handler req : fuelled (handler w req).
Proof.
  unfold handler, pipeline.
  apply fuelled_bind; [|intros [|]; [apply fuelled_ret|intros st; discriminate]].
  apply fuelled_try_catch.
  - destruct (String.eqb (apiKey req) _); [intros st; discriminate|].
    destruct (String.eqb (question req) _); [intros st; discriminate|].
    apply fuelled_bind; [apply fuelled_generate|intros sql].
    unfold conclude.
    apply fuelled_bind.
    + intros st. apply loop_fuelled. unfold maxAttempts. cbn. lia.
    + intros v. fuelled_auto; first [apply fuelled_emit | apply fuelled_safeEnd].
  - intros m. rewrite fatal_emits.
    fuelled_auto; first [apply fuelled_emit | apply fuelled_safeEnd].
Qed.

(** The handler never stops for lack of fuel. *)
Lemma run_fuelled req : fst (run w req) <> NoFuel.
Proof. apply fuelled_handler. Qed.
End ServerFuel.

Section CliFuel.
Import Cli Hoare.
Variable w : World.

Lemma fuelled_create : fuelled (create w).
Proof. intros st. unfold create. cbn. destruct (openai_answer w _); discriminate. Qed.

Lemma fuelled_cli_parse text : fuelled (parse w text).
Proof. intros st. unfold parse, lift. cbn. destruct (JSON_parse w text); discriminate. Qed.

(** [sqlOfThought] catches what its stages throw and never stops for
    lack of fuel: it ends with a verdict, or waits for an answer. *)
Lemma sqlOfThought_ends :
  (exists verdict, fst (run w) = Return verdict) \/ fst (run w) = Pending.
Proof.
  unfold run, sqlOfThought, try_catch.
  assert (fuelled
            (lift (await (schema_answer w)) ;;
             linkedSchema <- schemaLinkingAgent w ;;
             subproblems <- subproblemAgent w linkedSchema ;;
             queryPlanAgent w linkedSchema subproblems ;;
             generatedSQL <- sqlGenerationAgent w ;;
             v <- loop w (2 + MAX_CORRECTION_ATTEMPTS)
                    {| success := false; attempt := 0;
                       generatedSQL := generatedSQL |} ;;
             ret (Finished (success v) (attempt v) (Cli.generatedSQL v)))%js)
    as H.
  { unfold schemaLinkingAgent, subproblemAgent, queryPlanAgent,
      sqlGenerationAgent, structured.
    fuelled_auto;
      try first [apply fuelled_create | apply fuelled_cli_parse].
    intros st. apply cli_loop_fuelled. unfold MAX_CORRECTION_ATTEMPTS. cbn. lia. }
  specialize (H initial).
  match goal with
  | |- context [match ?c initial with _ => _ end] =>
      destruct (c initial) as [[v | m | |] st']
  end; cbn in *; eauto. congruence.
Qed.
End CliFuel.

(* ===================================================================== *)
(** ** What a run of the server has done                                  *)
(* ===================================================================== *)

Section Audit.
Import Server Spec Hoare Run.
Variable w : World.

Lemma emit_state_open e st :
  responseEnded st = false ->
  emit_state w e st = push_wire e (write_delivery w (List.length (wire st))) st.
Proof. unfold emit_state. now intros ->. Qed.

Lemma events_push e d st : events (push_wire e d st) = (events st ++ [e])%list.
Proof. unfold events. cbn. now rewrite map_app. Qed.

Lemma Running_emit e st :
  terminal e = false -> Running st -> Running (emit_state w e st).
Proof.
  intros He (Hr & Hn & Hs & Hc & Ht). rewrite emit_state_open by exact Hr.
  repeat split; auto. intros e'. rewrite events_push.
  intros [H|[<-|[]]]%in_app_or; auto.
Qed.

Lemma Frame_emit k log e st :
  terminal e = false -> Frame k log st -> Frame k log (emit_state w e st).
Proof.
  intros He (Hr & Hk & Hl). split; [now apply Running_emit|].
  now rewrite emit_state_openai_calls, emit_state_db_log.
Qed.

Lemma Frame_Broken k log x st :
  x <> Exhausted -> k <= 8 -> List.length log <= 3 ->
  Frame k log st -> Broken x st.
Proof.
  intros Hx Hk Hl (Hr & Hc & Hd). split; [exact Hx|].
  split; [exact Hr|]. rewrite Hc, Hd. auto.
Qed.

Section Steps.
Variables (k : nat) (log : list string).
Hypothesis few : List.length log <= 3.

Lemma frame_emit e :
  terminal e = false ->
  hoare (Frame k log) (emit w e) (fun _ => Frame k log) Broken.
Proof. intros He. apply hoare_emit. intros st. now apply Frame_emit. Qed.

(** Statements that neither write, nor call the model, nor ask the
    database. *)
Lemma frame_still {A} (c : M A) :
  k <= 8 ->
  (forall st, snd (c st) = st) -> (forall st, fst (c st) <> NoFuel) ->
  hoare (Frame k log) c (fun _ => Frame k log) Broken.
Proof.
  intros Hk Hc Hf st Hst. specialize (Hc st). specialize (Hf st).
  destruct (c st) as [[a | m | |] st']; cbn in Hc, Hf; subst st';
    first [exact Hst | apply (Frame_Broken k log); auto; discriminate
          | contradiction].
Qed.

Lemma frame_eval {A} (t : Try A) :
  k <= 8 -> hoare (Frame k log) (eval t) (fun _ => Frame k log) Broken.
Proof.
  intros Hk. apply frame_still; [exact Hk|reflexivity|].
  intros st. destruct t; discriminate.
Qed.

Lemma frame_await {A} (a : Answer A) :
  k <= 8 -> hoare (Frame k log) (lift (await a)) (fun _ => Frame k log) Broken.
Proof.
  intros Hk. apply frame_still; [exact Hk|reflexivity|].
  intros st. destruct a; discriminate.
Qed.

Lemma frame_console :
  k <= 8 -> hoare (Frame k log) console (fun _ => Frame k log) Broken.
Proof.
  intros Hk. apply frame_still; [exact Hk|reflexivity|discriminate].
Qed.

Lemma Frame_count st : Frame k log st -> Frame (S k) log (count_openai st).
Proof. intros (Hr & Hc & Hd). repeat split; try apply Hr; cbn; auto. Qed.

(** A call of the model whose reply is parsed. *)
Lemma frame_json :
  k < 8 ->
  hoare (Frame k log) (bind (callOpenAI w) (parse w))
    (fun _ => Frame (S k) log) Broken.
Proof.
  intros Hk st Hst. apply Frame_count in Hst.
  unfold bind, callOpenAI, parse, lift.
  destruct (openai_answer w _) as [t|m|]; cbn.
  - destruct (JSON_parse w t) as [j|m]; [exact Hst|].
    apply (Frame_Broken (S k) log); auto. discriminate.
  - apply (Frame_Broken (S k) log); auto. discriminate.
  - apply (Frame_Broken (S k) log); auto. discriminate.
Qed.

(** A call of the model whose reply is taken as text. *)
Lemma frame_text :
  k < 8 ->
  hoare (Frame k log)
    (bind (callOpenAI w) (fun response => ret (Text.stripFences response)))
    (fun _ => Frame (S k) log) Broken.
Proof.
  intros Hk st Hst. apply Frame_count in Hst.
  unfold bind, callOpenAI, ret.
  destruct (openai_answer w _) as [t|m|]; cbn.
  - exact Hst.
  - apply (Frame_Broken (S k) log); auto. discriminate.
  - apply (Frame_Broken (S k) log); auto. discriminate.
Qed.

Lemma frame_schemaLinking :
  k < 8 ->
  hoare (Frame k log) (schemaLinkingAgent w) (fun _ => Frame (S k) log) Broken.
Proof. apply frame_json. Qed.

Lemma frame_subproblem x :
  k < 8 ->
  hoare (Frame k log) (subproblemAgent w x) (fun _ => Frame (S k) log) Broken.
Proof.
  intros Hk. unfold subproblemAgent.
  eapply hoare_bind; [apply frame_eval; lia|intros ?]. now apply frame_json.
Qed.

Lemma frame_queryPlan x :
  k < 8 ->
  hoare (Frame k log) (queryPlanAgent w x) (fun _ => Frame (S k) log) Broken.
Proof.
  intros Hk. unfold queryPlanAgent.
  eapply hoare_bind; [apply frame_eval; lia|intros ?]. now apply frame_json.
Qed.

Lemma frame_sqlGeneration :
  k < 8 ->
  hoare (Frame k log) (sqlGenerationAgent w) (fun _ => Frame (S k) log) Broken.
Proof. apply frame_text. Qed.

Lemma frame_correctionPlan message :
  k < 8 ->
  hoare (Frame k log) (correctionPlanAgent w message)
    (fun _ => Frame (S k) log) Broken.
Proof.
  intros Hk. unfold correctionPlanAgent.
  eapply hoare_bind with (Q1 := fun _ => Frame k log).
  - destruct (tableMatch message).
    + apply frame_still; [lia|reflexivity|].
      intros st. cbn. destruct (describe_answer w _); discriminate.
    + apply frame_still; [lia|reflexivity|discriminate].
  - intros ?. now apply frame_json.
Qed.

Lemma frame_correctionSQL :
  k < 8 ->
  hoare (Frame k log) (correctionSQLAgent w) (fun _ => Frame (S k) log) Broken.
Proof. apply frame_text. Qed.

End Steps.

Ltac frame_step :=
  eapply hoare_bind;
  [ first [ solve [apply frame_emit; reflexivity]
          | solve [apply frame_eval; cbn; lia]
          | solve [apply frame_await; cbn; lia]
          | solve [apply frame_console; cbn; lia]
          | solve [apply frame_schemaLinking; cbn; lia]
          | solve [apply frame_subproblem; cbn; lia]
          | solve [apply frame_queryPlan; cbn; lia]
          | solve [apply frame_sqlGeneration; cbn; lia]
          | solve [apply frame_correctionPlan; cbn; lia]
          | solve [apply frame_correctionSQL; cbn; lia] ]
  | intros ? ].

Lemma generate_Frame :
  hoare (Frame 0 []) (generate w) (fun _ => Frame 4 []) Broken.
Proof.
  unfold generate.
  do 16 frame_step.
  apply hoare_ret. auto.
Qed.

(** The query of one iteration: answered with rows, or not. *)
Lemma execute_Frame k log v :
  k <= 8 -> List.length log < 3 ->
  hoare (Frame k log) (execute w v)
    (fun v' st =>
       Frame k (log ++ [sqlWithSchema v]) st /\
       exists rows,
         db_answer w (List.length log) (sqlWithSchema v) = Resolves rows /\
         v' = succeeded (cleanResults rows) v)
    (fun x st => x <> Exhausted /\ Frame k (log ++ [sqlWithSchema v]) st).
Proof.
  intros Hk Hl. unfold execute.
  eapply hoare_bind
    with (Q1 := fun rows st =>
                  Frame k (log ++ [sqlWithSchema v]) st /\
                  db_answer w (List.length log) (sqlWithSchema v) = Resolves rows).
  - intros st (Hr & Hc & Hd). unfold db_all. rewrite Hd.
    assert (Frame k (log ++ [sqlWithSchema v]) (push_db (sqlWithSchema v) st)) as HF.
    { split; [exact Hr|]. split; [exact Hc|]. cbn. now rewrite Hd. }
    destruct (db_answer w _ _) as [rows|m|]; cbn.
    + split; [exact HF|reflexivity].
    + split; [discriminate|exact HF].
    + split; [discriminate|exact HF].
  - intros rows.
    eapply hoare_bind
      with (Q1 := fun _ st =>
                    Frame k (log ++ [sqlWithSchema v]) st /\
                    db_answer w (List.length log) (sqlWithSchema v) = Resolves rows).
    + apply hoare_emit. intros st [HF Ha]. split; [|exact Ha].
      now apply Frame_emit.
    + intros ?. apply hoare_ret. intros st [HF Ha].
      split; [exact HF|]. now exists rows.
Qed.

(** The [catch] block of one iteration. *)
Lemma recover_Frame k log v message :
  k + (if attempt v <? maxAttempts - 1 then 2 else 0) <= 8 ->
  List.length log <= 3 ->
  hoare (Frame k log) (recover w v message)
    (fun v' st =>
       Frame (k + (if attempt v <? maxAttempts - 1 then 2 else 0)) log st /\
       exists sql,
         v' = set_attempt (attempt v + 1)
                (if attempt v <? maxAttempts - 1
                 then set_sqlWithSchema sql v else v))
    Broken.
Proof.
  intros Hk Hl. unfold recover.
  frame_step.
  eapply hoare_bind
    with (Q1 := fun v1 st =>
                  Frame (k + (if attempt v <? maxAttempts - 1 then 2 else 0)) log st /\
                  exists sql,
                    v1 = if attempt v <? maxAttempts - 1
                         then set_sqlWithSchema sql v else v).
  - destruct (attempt v <? maxAttempts - 1).
    + do 7 frame_step.
      apply hoare_ret. intros st H. split; [|eexists; reflexivity].
      now replace (k + 2) with (S (S k)) by lia.
    + frame_step.
      apply hoare_ret. intros st H. split; [|now exists EmptyString].
      now rewrite Nat.add_0_r.
  - intros v1. apply hoare_ret. intros st [HF [sql Hv]]. split; [exact HF|].
    exists sql. now rewrite Hv.
Qed.

Lemma hd_error_snoc (log : list string) q first :
  (log = [] -> q = first) -> (log <> [] -> hd_error log = Some first) ->
  hd_error (log ++ [q]) = Some first.
Proof.
  destruct log as [|x log]; cbn.
  - intros H _. now rewrite H.
  - intros _ H. apply H. discriminate.
Qed.

Lemma nth_error_snoc (log : list string) q :
  nth_error (log ++ [q]) (List.length log) = Some q.
Proof. induction log as [|x log IH]; [reflexivity|exact IH]. Qed.

(** One iteration, from the head of the loop to the head of the loop. *)
Lemma iteration_Looping sql v :
  attempt v < maxAttempts -> success v = false ->
  hoare (Looping w sql v) (iteration w v)
    (fun v' st =>
       Looping w sql v' st /\
       (success v' = true \/ attempt v' = attempt v + 1))
    Broken.
Proof.
  intros Ha Hs. unfold maxAttempts in Ha.
  intros st (Hr & Hc & Hn & Hle & H0 & Hhd & Hres).
  rewrite Hs in *. rewrite Nat.add_0_r in Hn.
  set (k := 4 + 2 * Nat.min (attempt v) 2) in *.
  set (log := db_log st) in *.
  set (q := sqlWithSchema v).
  set (c := attempt v <? maxAttempts - 1).
  assert (k + (if c then 2 else 0) = 4 + 2 * Nat.min (attempt v + 1) 2) as Hk.
  { subst k c. unfold maxAttempts.
    destruct (Nat.ltb_spec (attempt v) (3 - 1)); lia. }
  assert (hoare (Frame k log) (iteration w v)
            (fun v' st' =>
               (Frame k (log ++ [q]) st' /\
                exists rows,
                  db_answer w (List.length log) q = Resolves rows /\
                  v' = succeeded (cleanResults rows) v)
               \/
               (Frame (k + (if c then 2 else 0)) (log ++ [q]) st' /\
                exists sql',
                  v' = set_attempt (attempt v + 1)
                         (if c then set_sqlWithSchema sql' v else v)))
            Broken) as H.
  { unfold iteration. frame_step.
    eapply hoare_try_catch
      with (X1 := fun x st' => x <> Exhausted /\ Frame k (log ++ [q]) st').
    - eapply hoare_weaken; [apply (execute_Frame k log v); lia|auto| |auto].
      intros v' st' H. left. exact H.
    - intros message.
      eapply hoare_weaken;
        [apply (recover_Frame k (log ++ [q]) v message)| | |auto].
      + fold c. lia.
      + rewrite length_app. cbn. lia.
      + intros st' [_ H]. exact H.
      + intros v' st' H. right. exact H.
    - intros st' [Hx H]. apply (Frame_Broken k (log ++ [q])); auto; try lia.
      rewrite length_app. cbn. lia.
    - intros st' [Hx H]. now destruct Hx. }
  specialize (H st (conj Hr (conj Hc eq_refl))).
  destruct (iteration w v st) as [[v' | m | |] st']; try exact H.
  assert (hd_error (log ++ [q]) = Some (Text.addSchemaPrefix sql)) as Hq
      by now apply hd_error_snoc.
  destruct H as [[(Hr' & Hc' & Hd') (rows & Hrows & ->)]
                |[(Hr' & Hc' & Hd') (sql' & ->)]].
  - split; [|left; reflexivity].
    unfold Looping. rewrite Hd'. cbn [success attempt succeeded sqlWithSchema results].
    rewrite length_app. cbn [List.length].
    split; [exact Hr'|]. split; [exact Hc'|]. split; [lia|]. split; [lia|].
    split; [intros E; now destruct log|]. split; [intros _; exact Hq|].
    exists rows. rewrite <- Hn. split; [apply nth_error_snoc|]. split; [exact Hrows|reflexivity].
  - split; [|right; reflexivity].
    unfold Looping. rewrite Hd'.
    assert (results (if c then set_sqlWithSchema sql' v else v) = results v)
      as Hres' by (destruct c; reflexivity).
    assert (success (if c then set_sqlWithSchema sql' v else v) = false)
      as Hs' by (destruct c; exact Hs).
    cbn [success attempt set_attempt sqlWithSchema results].
    rewrite Hs', Hres', length_app. cbn [List.length].
    split; [exact Hr'|]. split; [now rewrite Hc', Hk|]. split; [lia|]. split; [lia|].
    split; [intros E; now destruct log|]. split; [intros _; exact Hq|exact Hres].
Qed.

Lemma loop_Looping sql fuel :
  forall v,
    maxAttempts - attempt v <= fuel ->
    hoare (Looping w sql v) (loop w fuel v)
      (fun v' st =>
         Looping w sql v' st /\
         (success v' = true \/ maxAttempts <= attempt v'))
      Broken.
Proof.
  induction fuel as [|fuel IH]; intros v Hf.
  - intros st H. rewrite loop_exhausted_attempts by lia.
    split; [exact H|right; lia].
  - rewrite loop_unfold.
    destruct ((attempt v <? maxAttempts) && negb (success v)) eqn:C.
    + apply andb_prop in C. destruct C as [Ha Hs].
      apply Nat.ltb_lt in Ha. apply negb_true_iff in Hs.
      eapply hoare_bind; [now apply iteration_Looping|].
      intros v' st [HL [Hs'|Ha']].
      * rewrite loop_done by exact Hs'. split; [exact HL|left; exact Hs'].
      * apply IH; [lia|exact HL].
    + apply hoare_ret. intros st H. split; [exact H|].
      apply andb_false_iff in C. destruct C as [C|C].
      * right. now apply Nat.ltb_ge in C.
      * left. now apply negb_false_iff in C.
Qed.

(** The last write: the terminal event. *)
Lemma Closing_emit e st :
  Running st -> openai_calls st <= 8 -> List.length (db_log st) <= 3 ->
  Reported w st e -> Closing w (emit_state w e st).
Proof.
  intros (Hr & Hn & Hs & Hc & Ht) Hk Hl He.
  rewrite emit_state_open by exact Hr.
  split; [exact Hr|]. split; [exact Hn|]. split; [exact Hc|].
  split; [exact Hk|]. split; [exact Hl|]. split; [exact Hs|].
  exists (events st), e. rewrite events_push.
  split; [reflexivity|]. split; [exact Ht|].
  destruct e; exact He.
Qed.

Lemma Answered_end st :
  Closing w st -> Answered w (end_state st) /\ close_listener (end_state st) = false.
Proof.
  intros (Hr & Hn & Hc & Hk & Hl & Hs & before & last & He & Hb & Hrep).
  unfold end_state. rewrite Hr. unfold Answered, Told, events in *. cbn.
  split; [|exact Hc]. split; [reflexivity|]. split; [now rewrite Hn|].
  split; [exact Hk|]. split; [exact Hl|]. split; [exact Hs|].
  exists before, last. split; [exact He|]. split; [exact Hb|].
  destruct last; exact Hrep.
Qed.

Lemma conclude_Answered sql :
  hoare (Frame 4 []) (conclude w sql)
    (fun returned st =>
       returned = false /\ Answered w st /\ close_listener st = false)
    Broken.
Proof.
  unfold conclude.
  eapply hoare_bind
    with (Q1 := fun v st =>
                  Looping w sql v st /\
                  (success v = true \/ maxAttempts <= attempt v)).
  - eapply hoare_weaken;
      [apply (loop_Looping sql (S maxAttempts) (entry sql))| |auto|auto].
    + cbn. unfold maxAttempts. lia.
    + intros st (Hr & Hc & Hd). unfold Looping. rewrite Hd, Hc. cbn.
      split; [exact Hr|]. split; [reflexivity|]. split; [reflexivity|].
      split; [lia|]. split; [reflexivity|].
      split; [intros H; now destruct H|reflexivity].
  - intros v.
    eapply hoare_bind with (Q1 := fun _ => Closing w).
    + apply hoare_emit.
      intros st [(Hr & Hc & Hn & Hle & H0 & Hhd & Hres) Hexit].
      apply Closing_emit; [exact Hr|lia|exact Hle|].
      unfold maxAttempts in Hexit. cbn.
      destruct (success v) eqn:Hs.
      * destruct Hres as (rows & Hq & Ha & Hres).
        split; [lia|]. split; [lia|]. split; [discriminate|].
        split; [apply Hhd; intros E; rewrite E in Hn; cbn in Hn; lia|].
        exists (sqlWithSchema v), rows.
        replace (attempt v + 1 - 1) with (attempt v) by lia. auto.
      * destruct Hexit as [Hexit|Hexit]; [discriminate|].
        split; [lia|]. split; [lia|]. split; [lia|].
        split; [apply Hhd; intros E; rewrite E in Hn; cbn in Hn; lia|exact Hres].
    + intros ?.
      eapply hoare_bind
        with (Q1 := fun _ st => Answered w st /\ close_listener st = false).
      * apply hoare_safeEnd. intros st. apply Answered_end.
      * intros ?. apply hoare_ret. auto.
Qed.

Lemma fatal_Answered message :
  hoare (Broken (Thrown message)) (fatal w message)
    (fun returned st =>
       returned = false /\ Answered w st /\ close_listener st = false)
    (fun _ _ => False).
Proof.
  rewrite fatal_emits.
  eapply hoare_bind with (Q1 := fun _ => Closing w).
  - apply hoare_emit. intros st [_ (Hr & Hk & Hl)].
    now apply Closing_emit.
  - intros ?.
    eapply hoare_bind
      with (Q1 := fun _ st => Answered w st /\ close_listener st = false).
    + apply hoare_safeEnd. intros st. apply Answered_end.
    + intros ?. apply hoare_ret. auto.
Qed.

(** What a run leaves behind: the refusal of the request, or an answered
    stream; a run that waits for an answer has written nothing
    terminal. *)
Lemma handler_audit req :
  hoare (fun st => st = initial) (handler w req)
    (fun _ st =>
       match refusal req with
       | Some message => st = set_status400 message initial
       | None => Answered w st /\ close_listener st = true
       end)
    (fun x st => refusal req = None /\ x = Stalled /\ Interrupted st).
Proof.
  unfold handler.
  eapply hoare_bind
    with (Q1 := fun returned st =>
                  match refusal req with
                  | Some message =>
                      returned = true /\ st = set_status400 message initial
                  | None =>
                      returned = false /\ Answered w st /\
                      close_listener st = false
                  end).
  - unfold pipeline, refusal.
    destruct (String.eqb (apiKey req) EmptyString).
    { intros st ->. cbn. auto. }
    destruct (String.eqb (question req) EmptyString).
    { intros st ->. cbn. auto. }
    eapply hoare_try_catch with (X1 := Broken).
    + eapply hoare_bind with (Q1 := fun _ => Frame 4 []).
      * eapply hoare_weaken; [apply generate_Frame| |auto|auto].
        intros st ->. repeat split. intros e [].
      * intros sql. apply conclude_Answered.
    + intros message.
      eapply hoare_weaken; [apply fatal_Answered|auto|auto|].
      intros x st [].
    + intros st [Hx H]. auto.
    + intros st [Hx H]. now destruct Hx.
  - intros returned st H. destruct (refusal req) as [message|].
    + destruct H as [-> ->]. reflexivity.
    + destruct H as (-> & (He & Hn & Ht) & Hc). cbn.
      split; [|reflexivity]. split; [exact He|]. split; [exact Hn|].
      destruct Ht as (Hk & Hl & Hs & before & last & Hev & Hb & Hrep).
      split; [exact Hk|]. split; [exact Hl|]. split; [exact Hs|].
      exists before, last. split; [exact Hev|]. split; [exact Hb|].
      destruct last; exact Hrep.
Qed.

(** The same on the run of a request. *)
Lemma run_audit req :
  match fst (run w req) with
  | Return _ =>
      match refusal req with
      | Some message => snd (run w req) = set_status400 message initial
      | None => Answered w (snd (run w req)) /\
                close_listener (snd (run w req)) = true
      end
  | Pending => refusal req = None /\ Interrupted (snd (run w req))
  | Throw _ | NoFuel => False
  end.
Proof.
  pose proof (handler_audit req initial eq_refl) as H. unfold run.
  destruct (handler w req initial) as [[[] | m | |] st]; cbn [fst snd].
  - exact H.
  - destruct H as (_ & [=] & _).
  - destruct H as (Hr & _ & Hi). auto.
  - destruct H as (_ & [=] & _).
Qed.

End Audit.

(* ===================================================================== *)
(** ** Properties of every run of the server                              *)
(* ===================================================================== *)

(** X15.  A request without API key, or without question, is answered
    with status 400 and the message of the missing field (the key is
    looked at first), and nothing else happens: no event is written, the
    model and the database are not called, the response is not ended by
    the handler.  Every other request gets no status 400. *)
Theorem request_is_refused_when_a_field_is_missing :
  forall w req,
    let st := snd (Server.run w req) in
    Server.status400 st
    = (if String.eqb (Server.apiKey req) EmptyString
       then Some "API key is required"
       else if String.eqb (Server.question req) EmptyString
            then Some "Question is required"
            else None) /\
    (Server.status400 st <> None ->
     fst (Server.run w req) = Return tt /\
     Server.wire st = [] /\ Server.openai_calls st = 0 /\
     Server.db_log st = [] /\ Server.end_calls st = 0).
Proof.
  intros w req st. subst st.
  pose proof (run_audit w req) as H. unfold Run.refusal in H.
  destruct (Server.run w req) as [[[] | m | |] st]; cbn [fst snd] in *;
    try contradiction.
  - destruct (String.eqb (Server.apiKey req) EmptyString).
    { subst st. cbn. repeat split; reflexivity. }
    destruct (String.eqb (Server.question req) EmptyString).
    { subst st. cbn. repeat split; reflexivity. }
    destruct H as [(_ & _ & _ & _ & Hs & _) _]. rewrite Hs.
    split; [reflexivity|]. intros E. now destruct E.
  - destruct H as [Hr ((_ & _ & Hs & _) & _)].
    destruct (String.eqb (Server.apiKey req) EmptyString); [discriminate|].
    destruct (String.eqb (Server.question req) EmptyString); [discriminate|].
    rewrite Hs. split; [reflexivity|]. intros E. now destruct E.
Qed.



(** X17.  Whatever the model, the engine and the client do, one request
    costs eight calls of the model at most (four stages and two
    corrections of two calls), and its execute loop gives three queries
    to the engine at most. *)
Theorem calls_of_a_run_are_bounded :
  forall w req,
    Server.openai_calls (snd (Server.run w req)) <= 8 /\
    List.length (Server.db_log (snd (Server.run w req))) <= 3.
Proof.
  intros w req. pose proof (run_audit w req) as H.
  destruct (Server.run w req) as [[[] | m | |] st]; cbn [fst snd] in *;
    try contradiction.
  - destruct (Run.refusal req) as [message|].
    + subst st. cbn. lia.
    + destruct H as [(_ & _ & Hk & Hl & _) _]. auto.
  - destruct H as [_ (_ & Hk & Hl)]. auto.
Qed.

Section Completed.
Import Server.

(** The [complete] event of a run is the event that ends its stream. *)
Lemma complete_Reported w req success sql results attempts :
  In (complete success sql results attempts) (emitted w req) ->
  Run.Reported w (snd (run w req)) (complete success sql results attempts).
Proof.
  unfold emitted. intros Hin. pose proof (run_audit w req) as H.
  assert (Spec.terminal (complete success sql results attempts) = true)
    as Ht by reflexivity.
  destruct (run w req) as [[[] | m | |] st]; cbn [fst snd] in *;
    try contradiction.
  - destruct (Run.refusal req) as [message|].
    + subst st. destruct Hin.
    + destruct H as [(_ & _ & _ & _ & _ & before & last & Hev & Hb & Hrep) _].
      rewrite Hev in Hin. apply in_app_or in Hin.
      destruct Hin as [Hin|[<-|[]]]; [|exact Hrep].
      apply Hb in Hin. congruence.
  - destruct H as [_ ((_ & _ & _ & _ & Hno) & _)].
    apply Hno in Hin. congruence.
Qed.

End Completed.

(** X18.  The [attempts] field of a [complete] event: after a success it
    is the number of queries the execute loop ran, between 1 and 3; after
    a failure it is one more than the three queries that were run, 4.
    The first query of the loop is the rewritten text of the [sql]
    field. *)
Theorem attempts_counts_the_queries :
  forall w req success sql results attempts,
    In (Server.complete success sql results attempts) (Server.emitted w req) ->
    let queries := Server.db_log (snd (Server.run w req)) in
    attempts = List.length queries + (if success then 0 else 1) /\
    (if success then 1 <= attempts <= 3 else attempts = 4) /\
    hd_error queries = Some (Text.addSchemaPrefix sql).
Proof.
  intros w req success sql results attempts Hin queries. subst queries.
  destruct (complete_Reported _ _ _ _ _ _ Hin) as (Ha & Hl & Hf & Hh & _).
  split; [exact Ha|]. split; [|exact Hh].
  destruct success; [lia|]. specialize (Hf eq_refl). lia.
Qed.

Lemma attempts_counts_the_queries_witness :
  In (Server.complete false Scenario.bad [] 4)
     (Server.emitted Scenario.never Scenario.request) /\
  (4 = List.length (Server.db_log (snd (Server.run Scenario.never Scenario.request)))
       + 1 /\
   4 = 4 /\
   hd_error (Server.db_log (snd (Server.run Scenario.never Scenario.request)))
   = Some (Text.addSchemaPrefix Scenario.bad)).
Proof.
  assert (In (Server.complete false Scenario.bad [] 4)
            (Server.emitted Scenario.never Scenario.request)) as Hin.
  { apply (nth_error_In _ 21). vm_compute. reflexivity. }
  split; [exact Hin|].
  exact (attempts_counts_the_queries _ _ _ _ _ _ Hin).
Defined.

(** X19.  The rows of a [complete] event: after a success they are the
    rows the engine gave for the last query of the execute loop, with
    every bigint turned into its decimal string; after a failure there
    are none. *)
Theorem complete_carries_the_rows_of_the_last_query :
  forall w req success sql results attempts,
    In (Server.complete success sql results attempts) (Server.emitted w req) ->
    if success then
      exists query rows,
        nth_error (Server.db_log (snd (Server.run w req))) (attempts - 1)
        = Some query /\
        List.length (Server.db_log (snd (Server.run w req))) = attempts /\
        Server.db_answer w (attempts - 1) query = Resolves rows /\
        results = Server.cleanResults rows
    else results = [].
Proof.
  intros w req success sql results attempts Hin.
  destruct (complete_Reported _ _ _ _ _ _ Hin) as (Ha & Hl & Hf & Hh & Hres).
  destruct success; [|exact Hres].
  destruct Hres as (query & rows & Hq & Hans & Hr).
  exists query, rows. split; [exact Hq|]. split; [lia|]. auto.
Qed.

Lemma complete_carries_the_rows_of_the_last_query_witness :
  In (Server.complete true Scenario.bad (Server.cleanResults Scenario.two_rows) 2)
     (Server.emitted Scenario.second_try Scenario.request) /\
  exists query rows,
    nth_error (Server.db_log (snd (Server.run Scenario.second_try Scenario.request)))
      (2 - 1) = Some query /\
    List.length (Server.db_log (snd (Server.run Scenario.second_try Scenario.request)))
    = 2 /\
    Server.db_answer Scenario.second_try (2 - 1) query = Resolves rows /\
    Server.cleanResults Scenario.two_rows = Server.cleanResults rows.
Proof.
  assert (In (Server.complete true Scenario.bad
                (Server.cleanResults Scenario.two_rows) 2)
            (Server.emitted Scenario.second_try Scenario.request)) as Hin.
  { apply (nth_error_In _ 15). vm_compute. reflexivity. }
  split; [exact Hin|].
  exact (complete_carries_the_rows_of_the_last_query _ _ _ _ _ _ Hin).
Defined.

(** X20.  The handler never throws: what its stages throw is caught and
    reported.  It either comes to its end, or waits for an answer that
    never comes; in that case the response is left open, without a
    terminal event and without a call of [res.end()]. *)
Theorem handler_returns_or_waits :
  forall w req,
    (fst (Server.run w req) = Return tt \/ fst (Server.run w req) = Pending) /\
    (fst (Server.run w req) = Pending ->
     Server.responseEnded (snd (Server.run w req)) = false /\
     Server.end_calls (snd (Server.run w req)) = 0 /\
     forall e, In e (Server.emitted w req) -> Spec.terminal e = false).
Proof.
  intros w req. unfold Server.emitted. pose proof (run_audit w req) as H.
  destruct (Server.run w req) as [[[] | m | |] st]; cbn [fst snd] in *;
    try contradiction.
  - split; [left; reflexivity|discriminate].
  - split; [right; reflexivity|]. intros _.
    destruct H as [_ ((Hr & Hn & _ & _ & Ht) & _)]. auto.
Qed.

Lemma handler_returns_or_waits_witness :
  fst (Server.run Cases.waiting Scenario.request) = Pending /\
  Server.responseEnded (snd (Server.run Cases.waiting Scenario.request)) = false /\
  Server.end_calls (snd (Server.run Cases.waiting Scenario.request)) = 0 /\
  forall e, In e (Server.emitted Cases.waiting Scenario.request) ->
            Spec.terminal e = false.
Proof.
  assert (fst (Server.run Cases.waiting Scenario.request) = Pending) as Hp
      by (vm_compute; reflexivity).
  split; [exact Hp|].
  exact (proj2 (handler_returns_or_waits Cases.waiting Scenario.request) Hp).
Defined.

(** X21.  The listener for the [close] of the request is registered when
    the run is over: whenever it is registered the response has ended
    already, so that a client that goes away never stops a run and the
    listener, when it fires, changes nothing. *)
Theorem close_listener_comes_after_the_end :
  forall w req,
    (Server.close_listener (snd (Server.run w req)) = true ->
     Server.responseEnded (snd (Server.run w req)) = true) /\
    Server.on_close (snd (Server.run w req)) = snd (Server.run w req).
Proof.
  intros w req. pose proof (run_audit w req) as H.
  assert (Server.close_listener (snd (Server.run w req)) = true ->
          Server.responseEnded (snd (Server.run w req)) = true) as Hc.
  { destruct (Server.run w req) as [[[] | m | |] st]; cbn [fst snd] in *;
      try contradiction.
    - destruct (Run.refusal req) as [message|].
      + subst st. discriminate.
      + destruct H as [(He & _) _]. auto.
    - destruct H as [_ ((_ & _ & _ & Hl & _) & _)]. congruence. }
  split; [exact Hc|].
  unfold Server.on_close.
  destruct (Server.close_listener (snd (Server.run w req))) eqn:E; [|reflexivity].
  specialize (Hc eq_refl).
  destruct (snd (Server.run w req)). cbn in *. now subst.
Qed.

(* ===================================================================== *)
(** ** What a run of the command line has done                            *)
(* ===================================================================== *)

Section CliAudit.
Import Cli Hoare CliRun.
Variable w : World.

Lemma CliFrame_Broken k log x st :
  x <> Exhausted -> k <= 10 -> List.length log <= 4 ->
  Frame k log st -> Broken x st.
Proof.
  intros Hx Hk Hl [Hc He]. split; [exact Hx|]. rewrite Hc, He. auto.
Qed.

Section Steps.
Variables (k : nat) (log : list string).
Hypothesis few : List.length log <= 4.

Lemma cli_still {A} (c : M A) :
  k <= 10 ->
  (forall st, snd (c st) = st) -> (forall st, fst (c st) <> NoFuel) ->
  hoare (Frame k log) c (fun _ => Frame k log) Broken.
Proof.
  intros Hk Hc Hf st Hst. specialize (Hc st). specialize (Hf st).
  destruct (c st) as [[a | m | |] st']; cbn in Hc, Hf; subst st';
    first [exact Hst | apply (CliFrame_Broken k log); auto; discriminate
          | contradiction].
Qed.

Lemma cli_eval {A} (t : Try A) :
  k <= 10 -> hoare (Frame k log) (eval t) (fun _ => Frame k log) Broken.
Proof.
  intros Hk. apply cli_still; [exact Hk|reflexivity|].
  intros st. destruct t; discriminate.
Qed.

Lemma cli_await {A} (a : Answer A) :
  k <= 10 -> hoare (Frame k log) (lift (await a)) (fun _ => Frame k log) Broken.
Proof.
  intros Hk. apply cli_still; [exact Hk|reflexivity|].
  intros st. destruct a; discriminate.
Qed.

Lemma cli_create :
  k < 10 ->
  hoare (Frame k log) (create w) (fun _ => Frame (S k) log) Broken.
Proof.
  intros Hk st [Hc He]. unfold create.
  assert (Frame (S k) log
            {| openai_calls := S (openai_calls st); executed := executed st |})
    as HF by (split; cbn; congruence).
  destruct (openai_answer w _) as [t|m|]; cbn.
  - exact HF.
  - apply (CliFrame_Broken (S k) log); auto. discriminate.
  - apply (CliFrame_Broken (S k) log); auto. discriminate.
Qed.

Lemma cli_parse text :
  k <= 10 -> hoare (Frame k log) (parse w text) (fun _ => Frame k log) Broken.
Proof.
  intros Hk. apply cli_still; [exact Hk|reflexivity|].
  intros st. unfold parse, lift. cbn. destruct (JSON_parse w text); discriminate.
Qed.

Lemma cli_structured :
  k < 10 ->
  hoare (Frame k log) (structured w) (fun _ => Frame (S k) log) Broken.
Proof.
  intros Hk. unfold structured.
  eapply hoare_bind; [now apply cli_create|intros content].
  intros st Hst.
  pose proof (fun H => CliFrame_Broken (S k) log (Thrown H) st) as HB.
  unfold parse, lift. destruct (JSON_parse w _) as [j|m]; [exact Hst|].
  apply HB; auto. discriminate.
Qed.

End Steps.

Ltac cli_step :=
  eapply hoare_bind;
  [ first [ solve [apply cli_eval; cbn; lia]
          | solve [apply cli_await; cbn; lia]
          | solve [apply cli_structured; cbn; lia]
          | solve [apply cli_create; cbn; lia] ]
  | intros ? ].

(** The stages in front of the loop: one call of the model each. *)
Lemma cli_schemaLinking k log :
  k < 10 -> List.length log <= 4 ->
  hoare (Frame k log) (schemaLinkingAgent w) (fun _ => Frame (S k) log) Broken.
Proof.
  intros Hk Hl. unfold schemaLinkingAgent.
  do 2 cli_step. apply hoare_ret. auto.
Qed.

Lemma cli_subproblem k log x :
  k < 10 -> List.length log <= 4 ->
  hoare (Frame k log) (subproblemAgent w x) (fun _ => Frame (S k) log) Broken.
Proof.
  intros Hk Hl. unfold subproblemAgent.
  do 3 cli_step. apply hoare_ret. auto.
Qed.

Lemma cli_queryPlan k log x y :
  k < 10 -> List.length log <= 4 ->
  hoare (Frame k log) (queryPlanAgent w x y) (fun _ => Frame (S k) log) Broken.
Proof.
  intros Hk Hl. unfold queryPlanAgent.
  do 4 cli_step. apply hoare_ret. auto.
Qed.

Lemma cli_sqlGeneration k log :
  k < 10 -> List.length log <= 4 ->
  hoare (Frame k log) (sqlGenerationAgent w) (fun _ => Frame (S k) log) Broken.
Proof.
  intros Hk Hl. unfold sqlGenerationAgent.
  cli_step. apply hoare_ret. auto.
Qed.

(** One execution of the tool. *)
Lemma cli_execute k log sql :
  k <= 10 -> List.length log < 4 ->
  hoare (Frame k log) (executeSQL w sql)
    (fun out st =>
       Frame k (log ++ [sql]) st /\
       fst (Executor.executeSQL (executor w (List.length log)) sql (DB_PATH w))
       = Resolves out)
    Broken.
Proof.
  intros Hk Hl st [Hc He]. unfold executeSQL. rewrite He.
  assert (Frame k (log ++ [sql])
            {| openai_calls := openai_calls st; executed := log ++ [sql] |})
    as HF by (split; [exact Hc|reflexivity]).
  assert (List.length (log ++ [sql]) <= 4) as Hl'
      by (rewrite length_app; cbn; lia).
  destruct (fst (Executor.executeSQL _ sql (DB_PATH w))) as [out|m|]; cbn.
  - split; [exact HF|reflexivity].
  - apply (CliFrame_Broken k (log ++ [sql])); auto. discriminate.
  - apply (CliFrame_Broken k (log ++ [sql])); auto. discriminate.
Qed.

(** The correction of one iteration: two calls of the model. *)
Lemma cli_correct k log :
  k + 2 <= 10 -> List.length log <= 4 ->
  hoare (Frame k log) (bind (correctionPlanAgent w) (fun _ => correctionSQLAgent w))
    (fun _ => Frame (k + 2) log) Broken.
Proof.
  intros Hk Hl. unfold correctionPlanAgent, correctionSQLAgent.
  eapply hoare_bind with (Q1 := fun _ => Frame (S k) log).
  { do 2 cli_step. apply hoare_ret. auto. }
  intros ?. cli_step. apply hoare_ret. intros st H.
  now replace (k + 2) with (S (S k)) by lia.
Qed.

Lemma cli_iteration_Looping v :
  attempt v <= MAX_CORRECTION_ATTEMPTS -> success v = false ->
  hoare (Looping w v) (iteration w v)
    (fun v' st =>
       Looping w v' st /\ (success v' = true \/ attempt v' = attempt v + 1))
    Broken.
Proof.
  intros Ha Hs. unfold MAX_CORRECTION_ATTEMPTS in Ha.
  intros st (Hc & Hn & Hle & Hres).
  rewrite Hs in *. rewrite Nat.add_0_r in Hn.
  set (k := 4 + 2 * Nat.min (attempt v) MAX_CORRECTION_ATTEMPTS) in *.
  set (log := executed st) in *.
  set (q := generatedSQL v).
  assert (k = 4 + 2 * attempt v) as Hk
      by (subst k; unfold MAX_CORRECTION_ATTEMPTS; lia).
  assert (hoare (Frame k log) (iteration w v)
            (fun v' st' =>
               (Frame k (log ++ [q]) st' /\ ran w (List.length log) q /\
                v' = {| success := true; attempt := attempt v;
                        generatedSQL := q |})
               \/
               (exists sql,
                  Frame (if attempt v <? MAX_CORRECTION_ATTEMPTS
                         then k + 2 else k) (log ++ [q]) st' /\
                  ((attempt v <? MAX_CORRECTION_ATTEMPTS) = false -> sql = q) /\
                  v' = {| success := false; attempt := attempt v + 1;
                          generatedSQL := sql |}))
            Broken) as H.
  { unfold iteration.
    eapply hoare_bind; [apply (cli_execute k log q); lia|].
    intros out. destruct (Executor.success out) eqn:Eo.
    - apply hoare_ret. intros st' [HF Hout]. left.
      split; [exact HF|]. split; [now exists out|reflexivity].
    - eapply hoare_bind
        with (Q1 := fun sql st' =>
                      Frame (if attempt v <? MAX_CORRECTION_ATTEMPTS
                             then k + 2 else k) (log ++ [q]) st' /\
                      ((attempt v <? MAX_CORRECTION_ATTEMPTS) = false -> sql = q)).
      + destruct (Nat.ltb_spec (attempt v) MAX_CORRECTION_ATTEMPTS) as [Hlt|Hge].
        * unfold MAX_CORRECTION_ATTEMPTS in Hlt.
          eapply hoare_weaken;
            [apply (cli_correct k (log ++ [q]))| | |auto].
          -- lia.
          -- rewrite length_app. cbn. lia.
          -- intros st' [HF _]. exact HF.
          -- intros sql st' HF. split; [exact HF|discriminate].
        * apply hoare_ret. intros st' [HF _]. split; [exact HF|reflexivity].
      + intros sql. apply hoare_ret. intros st' [HF Hsql]. right.
        exists sql. rewrite Hs. auto. }
  specialize (H st (conj Hc eq_refl)).
  destruct (iteration w v st) as [[v' | m | |] st']; try exact H.
  destruct H as [([Hc' He'] & Hran & ->)|(sql & [Hc' He'] & Hsql & ->)].
  - split; [|left; reflexivity].
    unfold Looping. rewrite He', Hc'. cbn [success attempt generatedSQL].
    rewrite length_app. cbn [List.length].
    split; [reflexivity|]. split; [lia|]. split; [lia|].
    rewrite <- Hn. split; [apply nth_error_snoc|exact Hran].
  - split; [|right; reflexivity].
    unfold Looping. rewrite He', Hc'. cbn [success attempt generatedSQL].
    rewrite length_app. cbn [List.length].
    unfold MAX_CORRECTION_ATTEMPTS in *.
    destruct (Nat.ltb_spec (attempt v) 3) as [Hlt|Hge].
    + split; [lia|]. split; [lia|]. split; [lia|]. intros; lia.
    + split; [lia|]. split; [lia|]. split; [lia|]. intros _.
      rewrite (Hsql eq_refl).
      replace 3 with (List.length log) by lia. apply nth_error_snoc.
Qed.

Lemma cli_loop_Looping fuel :
  forall v,
    S MAX_CORRECTION_ATTEMPTS - attempt v <= fuel ->
    hoare (Looping w v) (loop w fuel v)
      (fun v' st =>
         Looping w v' st /\
         (success v' = true \/ MAX_CORRECTION_ATTEMPTS < attempt v'))
      Broken.
Proof.
  induction fuel as [|fuel IH]; intros v Hf; cbn [loop].
  - destruct (Nat.leb_spec (attempt v) MAX_CORRECTION_ATTEMPTS);
      [unfold MAX_CORRECTION_ATTEMPTS in *; lia|].
    cbn [andb]. apply hoare_ret. intros st Hst. split; [exact Hst|right; lia].
  - destruct ((attempt v <=? MAX_CORRECTION_ATTEMPTS) && negb (success v)) eqn:C.
    + apply andb_prop in C. destruct C as [Ha Hs].
      apply Nat.leb_le in Ha. apply negb_true_iff in Hs.
      eapply hoare_bind; [now apply cli_iteration_Looping|].
      intros v' st [HL [Hs'|Ha']].
      * rewrite cli_loop_done by exact Hs'. split; [exact HL|left; exact Hs'].
      * apply IH; [unfold MAX_CORRECTION_ATTEMPTS in *; lia|exact HL].
    + apply hoare_ret. intros st Hst. split; [exact Hst|].
      apply andb_false_iff in C. destruct C as [C|C].
      * right. now apply Nat.leb_gt in C.
      * left. now apply negb_false_iff in C.
Qed.

(** What a run of the command line leaves behind. *)
Lemma sqlOfThought_audit :
  match run w with
  | (Return verdict, st) => Reported w st verdict
  | (Pending, st) => openai_calls st <= 10 /\ List.length (executed st) <= 4
  | _ => False
  end.
Proof.
  assert (hoare (Frame 0 []) (sqlOfThought w)
            (fun verdict st => Reported w st verdict)
            (fun x st => x = Stalled /\ openai_calls st <= 10 /\
                         List.length (executed st) <= 4)) as H.
  { unfold sqlOfThought.
    eapply hoare_try_catch with (X1 := Broken).
    - eapply hoare_bind; [apply cli_await; cbn; lia|intros ?].
      eapply hoare_bind; [apply cli_schemaLinking; cbn; lia|intros linkedSchema].
      eapply hoare_bind; [apply cli_subproblem; cbn; lia|intros subproblems].
      eapply hoare_bind; [apply cli_queryPlan; cbn; lia|intros ?].
      eapply hoare_bind; [apply cli_sqlGeneration; cbn; lia|intros sql].
      eapply hoare_bind
        with (Q1 := fun v st =>
                      Looping w v st /\
                      (success v = true \/ MAX_CORRECTION_ATTEMPTS < attempt v)).
      + eapply hoare_weaken;
          [apply (cli_loop_Looping (2 + MAX_CORRECTION_ATTEMPTS))| |auto|auto].
        * cbn. lia.
        * intros st [Hc He]. unfold Looping. rewrite Hc, He. cbn.
          split; [reflexivity|]. split; [reflexivity|]. split; [lia|].
          unfold MAX_CORRECTION_ATTEMPTS. lia.
      + intros v. apply hoare_ret.
        intros st [(Hc & Hn & Hle & Hres) Hexit].
        unfold Reported, MAX_CORRECTION_ATTEMPTS in *.
        split; [lia|]. split; [exact Hle|].
        destruct (success v) eqn:Hs; cbv beta iota.
        * destruct Hres as [Hq Hran].
          replace (List.length (executed st) - 1) with (attempt v) by lia.
          split; [exact Hn|]. split; [lia|]. split; [exact Hq|auto].
        * destruct Hexit as [Hexit|Hexit]; [discriminate|].
          replace (List.length (executed st) - 1) with 3 by lia.
          split; [exact Hn|]. split; [lia|]. split; [now apply Hres|discriminate].
    - intros message. apply hoare_ret. intros st (_ & Hk & Hl).
      split; [exact Hk|]. split; [exact Hl|exact I].
    - intros st (_ & Hk & Hl). auto.
    - intros st (Hx & _). now destruct Hx. }
  specialize (H initial (conj eq_refl eq_refl)). unfold run.
  destruct (sqlOfThought w initial) as [[verdict | m | |] st].
  - exact H.
  - destruct H as [[=] _].
  - destruct H as [_ H]. exact H.
  - destruct H as [[=] _].
Qed.

End CliAudit.

(** X22.  Whatever the model and the database do, one run of the command
    line makes ten calls of the model at most (four stages and three
    corrections of two calls) and runs four queries at most: the first one
    and one after each of the three corrections. *)
Theorem command_line_calls_are_bounded :
  forall w,
    Cli.openai_calls (snd (Cli.run w)) <= 10 /\
    List.length (Cli.executed (snd (Cli.run w))) <= 4.
Proof.
  intros w. pose proof (sqlOfThought_audit w) as H.
  destruct (Cli.run w) as [[verdict | m | |] st]; cbn [snd]; try contradiction.
  - destruct H as (Hk & Hl & _). auto.
  - exact H.
Qed.

(** X23.  When the command line comes to its closing banner, the SQL it
    holds is the SQL of its last execution; after a success the tool
    reported a success for that execution, and the attempt counter is the
    number of corrections, three at most; after a failure four queries
    were run and the counter is 4. *)
Theorem command_line_reports_its_last_query :
  forall w success attempt sql,
    fst (Cli.run w) = Return (Cli.Finished success attempt sql) ->
    let executed := Cli.executed (snd (Cli.run w)) in
    List.length executed = attempt + (if success then 1 else 0) /\
    (if success then attempt <= 3 else attempt = 4) /\
    nth_error executed (List.length executed - 1) = Some sql /\
    (success = true -> CliRun.ran w (List.length executed - 1) sql).
Proof.
  intros w success attempt sql Hr executed. subst executed.
  pose proof (sqlOfThought_audit w) as H.
  destruct (Cli.run w) as [[verdict | m | |] st]; cbn [fst snd] in *;
    try discriminate.
  injection Hr as ->. destruct H as (_ & _ & H). exact H.
Qed.

Lemma command_line_reports_its_last_query_witness :
  fst (Cli.run Cases.cli_never) = Return (Cli.Finished false 4 Scenario.bad) /\
  (List.length (Cli.executed (snd (Cli.run Cases.cli_never))) = 4 + 0 /\
   4 = 4 /\
   nth_error (Cli.executed (snd (Cli.run Cases.cli_never)))
     (List.length (Cli.executed (snd (Cli.run Cases.cli_never))) - 1)
   = Some Scenario.bad /\
   (false = true ->
    CliRun.ran Cases.cli_never
      (List.length (Cli.executed (snd (Cli.run Cases.cli_never))) - 1)
      Scenario.bad)).
Proof.
  assert (fst (Cli.run Cases.cli_never)
          = Return (Cli.Finished false 4 Scenario.bad)) as Hr
      by (vm_compute; reflexivity).
  split; [exact Hr|].
  exact (command_line_reports_its_last_query _ _ _ _ Hr).
Defined.

(* ===================================================================== *)
(** ** The executor tool: what it reports and what it leaves open         *)
(* ===================================================================== *)

Section ToolReport.
Import Executor.

(** X24.  The promise of [executeSQL] is never rejected: the tool
    reports every failure in its result.  A result with
    [success: true] carries the rows of the engine for the cleaned and
    prefixed text, their number and no error; a result with
    [success: false] carries an error message and neither rows nor a
    row count. *)
Theorem executeSQL_reports_in_its_result :
  forall w sql dbPath,
    (forall message, fst (executeSQL w sql dbPath) <> Rejects message) /\
    forall out,
      fst (executeSQL w sql dbPath) = Resolves out ->
      if success out then
        error out = None /\
        exists rows,
          query_answer w (Text.prefixTables (Text.cleanSQL sql)) = Resolves rows /\
          result out = Some rows /\ row_count out = Some (List.length rows)
      else
        result out = None /\ row_count out = None /\
        exists message, error out = Some message.
Proof.
  intros w sql dbPath. unfold executeSQL.
  destruct (Text.cleanSQL sql) eqn:Ec.
  { split; [discriminate|]. intros out [= <-]. cbn. eauto. }
  destruct (install_answer w).
  2:{ split; [discriminate|]. intros out [= <-]. cbn. eauto. }
  2:{ split; discriminate. }
  destruct (attach_answer w).
  2:{ split; [discriminate|]. intros out [= <-]. cbn. eauto. }
  2:{ split; discriminate. }
  destruct (query_answer w _) as [rows|m|] eqn:Eq.
  - split; [discriminate|]. intros out [= <-]. cbn. eauto.
  - split; [discriminate|]. intros out [= <-]. cbn. eauto.
  - split; discriminate.
Qed.

(** X25.  When [executeSQL] resolves, the database it opened has been
    closed exactly when the [ATTACH] statement was issued, and then
    [close] is the last call made on it.  So the database stays open
    when the extension cannot be loaded, and no database call is made
    at all when cleaning leaves no text. *)
Theorem executeSQL_closes_after_attach :
  forall w sql dbPath out calls,
    executeSQL w sql dbPath = (Resolves out, calls) ->
    (In close calls <-> In (all (attach dbPath)) calls) /\
    (In close calls -> last calls (all install) = close) /\
    (forall i j, nth_error calls i = Some close ->
                 nth_error calls j = Some close -> i = j) /\
    (Text.cleanSQL sql = EmptyString -> calls = []) /\
    (forall message, install_answer w = Rejects message ->
                     Text.cleanSQL sql <> EmptyString -> calls = [all install]).
Proof.
  intros w sql dbPath out calls. unfold executeSQL.
  assert (forall cs : list Call,
            (forall i, nth_error cs i = Some close -> i = List.length cs - 1) ->
            forall i j, nth_error cs i = Some close ->
                        nth_error cs j = Some close -> i = j) as Once.
  { intros cs H i j Hi Hj. rewrite (H i Hi), (H j Hj). reflexivity. }
  destruct (Text.cleanSQL sql) eqn:Ec.
  { intros [= <- <-]. split; [cbn; tauto|]. split; [intros []|].
    split; [intros [|i] j; discriminate|]. split; [reflexivity|].
    intros message _ H. now destruct H. }
  destruct (install_answer w) eqn:Ei.
  2:{ intros [= <- <-].
      split; [split; intros [H|[]]; discriminate|].
      split; [intros [H|[]]; discriminate|].
      split; [intros [|[|i]] j; discriminate|]. split; [discriminate|].
      reflexivity. }
  2:{ discriminate. }
  destruct (attach_answer w).
  2:{ intros [= <- <-]. split; [cbn; tauto|]. split; [reflexivity|].
      split; [|split; [discriminate|discriminate]].
      apply Once. intros [|[|[|[|i]]]]; cbn; congruence. }
  2:{ discriminate. }
  destruct (query_answer w _) as [rows|m|]; [| |discriminate].
  - intros [= <- <-]. split; [cbn; tauto|]. split; [reflexivity|].
    split; [|split; [discriminate|discriminate]].
    apply Once. intros [|[|[|[|[|i]]]]]; cbn; congruence.
  - intros [= <- <-]. split; [cbn; tauto|]. split; [reflexivity|].
    split; [|split; [discriminate|discriminate]].
    apply Once. intros [|[|[|[|[|i]]]]]; cbn; congruence.
Qed.

End ToolReport.

Lemma executeSQL_closes_after_attach_witness :
  Executor.executeSQL Cases.no_extension "SELECT 1" Scenario.path
  = (Resolves (Executor.failure
                 "Failed to load SQLite extension: IO Error: extension not found"
                 (Some 7%Z)),
     [Executor.all Executor.install]) /\
  ((In Executor.close [Executor.all Executor.install]
    <-> In (Executor.all (Executor.attach Scenario.path))
           [Executor.all Executor.install]) /\
   (In Executor.close [Executor.all Executor.install] ->
    last [Executor.all Executor.install] (Executor.all Executor.install)
    = Executor.close) /\
   (forall i j,
      nth_error [Executor.all Executor.install] i = Some Executor.close ->
      nth_error [Executor.all Executor.install] j = Some Executor.close -> i = j) /\
   (Text.cleanSQL "SELECT 1" = EmptyString -> [Executor.all Executor.install] = []) /\
   (forall message,
      Executor.install_answer Cases.no_extension = Rejects message ->
      Text.cleanSQL "SELECT 1" <> EmptyString ->
      [Executor.all Executor.install] = [Executor.all Executor.install])).
Proof.
  assert (Executor.executeSQL Cases.no_extension "SELECT 1" Scenario.path
          = (Resolves (Executor.failure
                         "Failed to load SQLite extension: IO Error: extension not found"
                         (Some 7%Z)),
             [Executor.all Executor.install])) as H by reflexivity.
  split; [exact H|].
  exact (executeSQL_closes_after_attach _ _ _ _ _ H).
Defined.

(* ===================================================================== *)
(** ** The executor tool                                                  *)
(* ===================================================================== *)

Section Tool.
Import Executor.
Variable w : World.

(** The tool hands over the rows of the engine as they are. *)
Lemma executeSQL_success sql dbPath out calls :
  executeSQL w sql dbPath = (Resolves out, calls) ->
  success out = true ->
  exists rows,
    query_answer w (Text.prefixTables (Text.cleanSQL sql)) = Resolves rows /\
    result out = Some rows /\ row_count out = Some (List.length rows).
Proof.
  unfold executeSQL.
  destruct (Text.cleanSQL sql) eqn:Ec; [intros [= <- _]; discriminate|].
  destruct (install_answer w); [|intros [= <- _]; discriminate|discriminate].
  destruct (attach_answer w); [|intros [= <- _]; discriminate|discriminate].
  destruct (query_answer w _) as [rows| |] eqn:Eq;
    [|intros [= <- _]; discriminate|discriminate].
  intros [= <- _] _. exists rows. auto.
Qed.

(** Nothing is asked of the database when cleaning leaves no text. *)
Lemma executeSQL_empty sql dbPath :
  Text.cleanSQL sql = EmptyString ->
  executeSQL w sql dbPath
  = (Resolves (failure "Empty SQL query after cleaning" None), []).
Proof. unfold executeSQL. intros ->. reflexivity. Qed.

(** The promise is never rejected. *)
Lemma executeSQL_never_rejects sql dbPath message :
  fst (executeSQL w sql dbPath) <> Rejects message.
Proof.
  unfold executeSQL.
  destruct (Text.cleanSQL sql); [discriminate|].
  destruct (install_answer w); try discriminate.
  destruct (attach_answer w); try discriminate.
  destruct (query_answer w _); discriminate.
Qed.
End Tool.

(* ===================================================================== *)
(** ** The claims on concrete runs                                        *)
(* ===================================================================== *)

(** C1.  When the engine rejects all three queries, two correction cycles
    run, the last correction message says [Failed after 3 attempts], and the
    [complete] event reports [attempts] 4. *)
Theorem attempts_reported_after_three_failures :
  let st := snd (Server.run Scenario.never Scenario.request) in
  List.length (Server.db_log st) = 3 /\
  List.length (filter (fun e => match e with
                                | Server.agent_start a => String.eqb a "correction"
                                | _ => false
                                end) (Server.events st)) = 2 /\
  In (Server.agent_complete "correction"
        ("Failed after 3 attempts. Final error: "
         ++ "Binder Error: Referenced column Nation not found"))
     (Server.events st) /\
  last (Server.events st) (Server.error "")
  = Server.complete false Scenario.bad [] 4.
Proof.
  vm_compute. repeat split.
  repeat first [left; reflexivity | right].
Qed.

(** C2.  Neither rewrite is idempotent.  The one of the server leaves a
    doubled prefix where the text had three, and rewrites what follows a
    table whose name ends in a keyword only at the second pass; the one of
    the executor tool prefixes a reference that is already qualified. *)
Theorem schema_prefix_applied_twice :
  Text.addSchemaPrefix "SELECT * FROM chinook.chinook.chinook.Album"
  = "SELECT * FROM chinook.chinook.Album" /\
  Text.addSchemaPrefix "SELECT * FROM chinook.chinook.Album"
  = "SELECT * FROM chinook.Album" /\
  Text.addSchemaPrefix "SELECT * FROM transfers_from t"
  = "SELECT * FROM chinook.transfers_from t" /\
  Text.addSchemaPrefix "SELECT * FROM chinook.transfers_from t"
  = "SELECT * FROM chinook.transfers_FROM chinook.t" /\
  Text.prefixTables "SELECT * FROM Album"
  = "SELECT * FROM chinook.Album" /\
  Text.prefixTables "SELECT * FROM chinook.Album"
  = "SELECT * FROM chinook.chinook.Album".
Proof. repeat split. Qed.

(** C3.  After one correction the run succeeds with the corrected,
    qualified query, and the [complete] event carries the text first
    generated. *)
Theorem complete_event_carries_generated_sql :
  let st := snd (Server.run Scenario.second_try Scenario.request) in
  last (Server.db_log st) EmptyString
  = "SELECT * FROM chinook.customers WHERE Country = 'USA'" /\
  last (Server.events st) (Server.error "")
  = Server.complete true "SELECT * FROM customers WHERE Nation = 'USA'"
      (Server.cleanResults Scenario.two_rows) 2.
Proof. vm_compute. split; reflexivity. Qed.

(** C4, as stated, fails: a subproblem reply that is not JSON ends the run
    with an [error] event, and the query plan stage never starts. *)
Lemma malformed_subproblem_reply_is_fatal :
  Server.JSON_parse Scenario.garbled_subproblem Scenario.not_json
  = inr "Unexpected token in JSON" /\
  Server.emitted Scenario.garbled_subproblem Scenario.request
  = [Server.agent_start "schema";
     Server.agent_complete "schema" "Tables: customers";
     Server.agent_start "subproblem";
     Server.error "Unexpected token in JSON"].
Proof. split; reflexivity. Qed.

Lemma malformed_reply_aborts_the_run_witness :
  let w := Scenario.garbled_subproblem in
  let c := Scenario.cli_world Scenario.cli_replies Scenario.engine in
(* the server, subproblem stage *)
(In 1 [1; 2; 4; 6] /\
 Server.openai_answer w 1 = Resolves Scenario.not_json /\
 Server.JSON_parse w Scenario.not_json = inr "Unexpected token in JSON" /\
 1 < Server.openai_calls (snd (Server.run w Scenario.request)) /\
 fst (Server.run w Scenario.request) = Return tt /\
 Server.openai_calls (snd (Server.run w Scenario.request)) = 2 /\
 Spec.ends_with_error "Unexpected token in JSON"
   (Server.emitted w Scenario.request)) /\
(* the command line, query plan stage *)
(In 2 [1; 2; 4; 6; 8] /\
 Cli.openai_answer c 2 = Resolves (Some Scenario.not_json) /\
 Cli.JSON_parse c (Cli.orElse (Some Scenario.not_json) "{}")
 = inr "Unexpected token in JSON" /\
 2 < Cli.openai_calls (snd (Cli.run c)) /\
 fst (Cli.run c) = Return (Cli.PipelineError "Unexpected token in JSON") /\
 Cli.openai_calls (snd (Cli.run c)) = 3).
Proof.
  intros w c.
  assert (In 1 [1; 2; 4; 6]) as H1 by (left; reflexivity).
  assert (1 < Server.openai_calls (snd (Server.run w Scenario.request)))
    as H4 by (vm_compute; lia).
  assert (In 2 [1; 2; 4; 6; 8]) as K1 by (right; left; reflexivity).
  assert (2 < Cli.openai_calls (snd (Cli.run c))) as K4 by (vm_compute; lia).
  destruct malformed_reply_aborts_the_run as [Tserver Tcli].
  split.
  - repeat split; try reflexivity; try assumption;
      apply (Tserver w Scenario.request 1 Scenario.not_json
               "Unexpected token in JSON" H1 eq_refl eq_refl H4).
  - repeat split; try reflexivity; try assumption;
      apply (Tcli c 2 (Some Scenario.not_json) "Unexpected token in JSON"
               K1 eq_refl eq_refl K4).
Defined.

(** C5, as stated, fails for the executor tool: a 64-bit total leaves
    [executeSQL] as the big integer the engine returned. *)
Lemma executor_returns_bigint_unconverted :
  fst (Executor.executeSQL Scenario.engine
         "SELECT SUM(Total) AS Total FROM Invoice" Scenario.path)
  = Resolves
      {| Executor.success := true;
         Executor.result := Some [[("Total", VBigInt 9007199254740993)]];
         Executor.error := None;
         Executor.row_count := Some 1;
         Executor.execution_time_ms := Some 7%Z |}.
Proof. reflexivity. Qed.

(** C5, as the code has it.  The conversion is made by the loop of the
    server, not by the executor: the rows of a successful [complete] event
    are the rows of the engine with every top-level big integer replaced by
    its decimal text, which reads back as the same integer, whatever its
    size; the executor tool returns the rows of the engine as they are. *)
Theorem bigint_conversion_in_the_server_loop :
  (forall (w : Server.World) (req : Server.Request) sql results attempts,
      In (Server.complete true sql results attempts) (Server.emitted w req) ->
      Spec.cleaned w results) /\
  (forall (rows : list Row) i row j key z,
      nth_error rows i = Some row ->
      nth_error row j = Some (key, VBigInt z) ->
      exists row',
        nth_error (Server.cleanResults rows) i = Some row' /\
        nth_error row' j = Some (key, VString (BigInt_toString z)) /\
        BigInt_parse (BigInt_toString z) = Some z) /\
  (forall (w : Executor.World) sql dbPath out calls,
      Executor.executeSQL w sql dbPath = (Resolves out, calls) ->
      Executor.success out = true ->
      exists rows,
        Executor.query_answer w (Text.prefixTables (Text.cleanSQL sql))
        = Resolves rows /\
        Executor.result out = Some rows).
Proof.
  split; [|split].
  - intros w req sql results attempts H.
    exact (run_Clean w req sql results attempts H).
  - intros rows i row j key z Hi Hj.
    destruct (cleanResults_entry rows i row j key (VBigInt z) Hi Hj)
      as (row' & H1 & H2).
    exists row'. repeat split; auto. apply BigInt_round_trip.
  - intros w sql dbPath out calls H Hs.
    destruct (executeSQL_success w sql dbPath out calls H Hs) as (rows & ? & ? & _).
    eauto.
Qed.

Lemma bigint_conversion_in_the_server_loop_witness :
  In (Server.complete true Scenario.usa (Server.cleanResults Scenario.two_rows) 1)
     (Server.emitted Scenario.first_try Scenario.request) /\
  Spec.cleaned Scenario.first_try (Server.cleanResults Scenario.two_rows) /\
  (exists row',
      nth_error (Server.cleanResults Scenario.two_rows) 0 = Some row' /\
      nth_error row' 0 = Some ("CustomerId", VString "9007199254740993") /\
      BigInt_parse "9007199254740993" = Some 9007199254740993%Z) /\
  (exists rows,
      Executor.query_answer Scenario.engine
        (Text.prefixTables (Text.cleanSQL "SELECT 1 FROM Invoice"))
      = Resolves rows /\
      Some Scenario.big_total = Some rows).
Proof.
  assert (In (Server.complete true Scenario.usa
                (Server.cleanResults Scenario.two_rows) 1)
             (Server.emitted Scenario.first_try Scenario.request)) as H.
  { vm_compute. repeat first [left; reflexivity | right]. }
  destruct bigint_conversion_in_the_server_loop as (T1 & T2 & T3).
  split; [exact H|]. split; [|split].
  - exact (T1 _ _ _ _ _ H).
  - exact (T2 Scenario.two_rows 0 _ 0 "CustomerId" 9007199254740993%Z
              eq_refl eq_refl).
  - exact (T3 Scenario.engine "SELECT 1 FROM Invoice" Scenario.path _ _
              eq_refl eq_refl).
Defined.

(** C10.  A block comment that contains two dashes is not removed: the
    line-comment pattern first cuts it at the dashes, the closing mark goes
    with the cut, and what is left is sent to the database. *)
Theorem dashed_block_comment_reaches_the_database :
  Spec.comments_only Scenario.dashed_comment = true /\
  Text.cleanSQL Scenario.dashed_comment = "/* totals" /\
  Executor.executeSQL Scenario.strict_engine Scenario.dashed_comment
    Scenario.path
  = (Resolves (Executor.failure "Parser Error: syntax error" (Some 7%Z)),
     [Executor.all "INSTALL sqlite; LOAD sqlite;";
      Executor.all "ATTACH 'data/chinook.db' AS chinook (TYPE SQLITE);";
      Executor.all "/* totals";
      Executor.close]).
Proof. repeat split. Qed.
